(** * libscheduler: a multi-core job scheduler (FCFS, SJF, PSJF, PRI, PPRI, RR)

    Shallow embedding of [src/libscheduler/libscheduler.c] and proofs about
    its three event handlers and its statistics queries.

    - A C [int] is a [Z] kept in the signed 32-bit range: every addition and
      subtraction of the source goes through [add32] / [sub32], which wrap.
    - [job_t] objects live in a memory [mem] (a list; an address is an
      index). [malloc] returns the next free address. The job list
      ([job_ptr], [next]) and the queue both hold addresses, so a job that
      is mutated through one of them is seen mutated through the other.
    - A handler is a function from the global state to [option]: [None]
      stands for a run-time fault of the C code (a NULL or dangling
      dereference, an out-of-bounds array access, the use of an
      uninitialised local). *)

From stdpp Require Import base decidable option numbers list.

Local Open Scope Z_scope.

(** ** Machine integers *)

Definition INT_MAX : Z := 2147483647.
Definition INT_MIN : Z := -2147483648.

Definition wrap (z : Z) : Z := (z + 2147483648) `mod` 4294967296 - 2147483648.
Definition add32 (a b : Z) : Z := wrap (a + b).
Definition sub32 (a b : Z) : Z := wrap (a - b).

Definition int_range (z : Z) : Prop := INT_MIN ≤ z ≤ INT_MAX.

(** ** Jobs *)

(** An address is an index into the memory of job objects. *)
Abbreviation ptr := nat (only parsing).

(** [struct _job_t]. *)
Record job_t := Job {
  id : Z;
  arr_time : Z;
  duration : Z;
  priority : Z;
  remaining_time : Z;
  wait_time : Z;
  start_wait : Z;
  response_time : Z;
  turnover_time : Z;
  turn : Z;
  core_id : Z;
  next : option ptr
}.

Definition set_remaining_time (v : Z) (j : job_t) : job_t :=
  Job (id j) (arr_time j) (duration j) (priority j) v (wait_time j)
      (start_wait j) (response_time j) (turnover_time j) (turn j) (core_id j)
      (next j).
Definition set_wait_time (v : Z) (j : job_t) : job_t :=
  Job (id j) (arr_time j) (duration j) (priority j) (remaining_time j) v
      (start_wait j) (response_time j) (turnover_time j) (turn j) (core_id j)
      (next j).
Definition set_start_wait (v : Z) (j : job_t) : job_t :=
  Job (id j) (arr_time j) (duration j) (priority j) (remaining_time j)
      (wait_time j) v (response_time j) (turnover_time j) (turn j) (core_id j)
      (next j).
Definition set_response_time (v : Z) (j : job_t) : job_t :=
  Job (id j) (arr_time j) (duration j) (priority j) (remaining_time j)
      (wait_time j) (start_wait j) v (turnover_time j) (turn j) (core_id j)
      (next j).
Definition set_turnover_time (v : Z) (j : job_t) : job_t :=
  Job (id j) (arr_time j) (duration j) (priority j) (remaining_time j)
      (wait_time j) (start_wait j) (response_time j) v (turn j) (core_id j)
      (next j).
Definition set_turn (v : Z) (j : job_t) : job_t :=
  Job (id j) (arr_time j) (duration j) (priority j) (remaining_time j)
      (wait_time j) (start_wait j) (response_time j) (turnover_time j) v
      (core_id j) (next j).
Definition set_core_id (v : Z) (j : job_t) : job_t :=
  Job (id j) (arr_time j) (duration j) (priority j) (remaining_time j)
      (wait_time j) (start_wait j) (response_time j) (turnover_time j)
      (turn j) v (next j).
Definition set_next (v : option ptr) (j : job_t) : job_t :=
  Job (id j) (arr_time j) (duration j) (priority j) (remaining_time j)
      (wait_time j) (start_wait j) (response_time j) (turnover_time j)
      (turn j) (core_id j) v.

(** The right-hand side of
    [tmp->remaining_time = tmp->duration - (time - tmp->wait_time - tmp->arr_time)]. *)
Definition remaining_at (time : Z) (j : job_t) : Z :=
  sub32 (duration j) (sub32 (sub32 time (wait_time j)) (arr_time j)).

(** ** The comparers *)

Definition compare1 (a b : job_t) : Z := sub32 (id a) (id b).

Definition compare2 (a b : job_t) : Z :=
  if decide (remaining_time a < remaining_time b) then -1
  else if decide (remaining_time a > remaining_time b) then 1
  else sub32 (id a) (id b).

Definition compare3 (a b : job_t) : Z :=
  if decide (priority a < priority b) then -1
  else if decide (priority a > priority b) then 1
  else sub32 (id a) (id b).

Definition compare4 (a b : job_t) : Z := sub32 (turn a) (turn b).

(** Modelled from the spec: [scheme_t] is declared in [libscheduler.h], which
    is not part of the sources at hand. The six policies are those of the
    spec; [SCHEME_OTHER] stands for any other integer stored in the enum,
    which the [switch] of [scheduler_start_up] sends to its [default]. *)
Inductive scheme_t := FCFS | SJF | PSJF | PRI | PPRI | RR | SCHEME_OTHER.

Global Instance scheme_eq_dec : EqDecision scheme_t.
Proof. solve_decision. Defined.

(** ** The priority queue

    Modelled from the spec: [libpriqueue] is not part of the sources at hand.
    The queue is "a mutable ordered collection of job references, ordered by
    a policy-supplied comparator", with insert-with-rank, rank-indexed
    access, removal by rank, size and peek. The comparer is applied to the
    jobs the stored references point to, at the time of the insertion; an
    insertion places the new reference before the first stored one that the
    comparer puts strictly after it, and at the end when there is none. *)
Record priqueue_t := Priqueue {
  comparer : job_t → job_t → Z;
  elems : list ptr
}.

Definition priqueue_init (cmp : job_t → job_t → Z) : priqueue_t :=
  Priqueue cmp [].

Definition priqueue_size (q : priqueue_t) : Z := Z.of_nat (length (elems q)).

(** [NULL] (here [None]) when the index is out of range. *)
Definition priqueue_at (q : priqueue_t) (i : nat) : option ptr := elems q !! i.

Definition priqueue_peek (q : priqueue_t) : option ptr := elems q !! 0%nat.

Definition priqueue_remove_at (q : priqueue_t) (i : nat)
  : option ptr * priqueue_t :=
  (elems q !! i, Priqueue (comparer q) (delete i (elems q))).

(** The rank at which a job [a] goes into [l]. *)
Fixpoint offer_rank (m : list job_t) (cmp : job_t → job_t → Z) (a : job_t)
    (l : list ptr) : option nat :=
  match l with
  | [] => Some 0%nat
  | p :: l' =>
      b ← m !! p;
      if decide (cmp a b < 0) then Some 0%nat
      else S <$> offer_rank m cmp a l'
  end.

Definition priqueue_offer (m : list job_t) (q : priqueue_t) (p : ptr)
  : option (nat * priqueue_t) :=
  a ← m !! p;
  k ← offer_rank m (comparer q) a (elems q);
  Some (k, Priqueue (comparer q) (take k (elems q) ++ p :: drop k (elems q))).

(** ** The global state *)

Record sched := Sched {
  numOfJobs : Z;
  totalJobs : Z;
  numOfCores : Z;
  job_ptr : option ptr;      (* head of the job list *)
  core_arr : list Z;         (* status of the cores *)
  head : priqueue_t;         (* the queue *)
  sch : scheme_t;
  mem : list job_t           (* the allocated job_t objects *)
}.

Definition with_numOfJobs (v : Z) (s : sched) : sched :=
  Sched v (totalJobs s) (numOfCores s) (job_ptr s) (core_arr s) (head s)
        (sch s) (mem s).
Definition with_totalJobs (v : Z) (s : sched) : sched :=
  Sched (numOfJobs s) v (numOfCores s) (job_ptr s) (core_arr s) (head s)
        (sch s) (mem s).
Definition with_job_ptr (v : option ptr) (s : sched) : sched :=
  Sched (numOfJobs s) (totalJobs s) (numOfCores s) v (core_arr s) (head s)
        (sch s) (mem s).
Definition with_core_arr (v : list Z) (s : sched) : sched :=
  Sched (numOfJobs s) (totalJobs s) (numOfCores s) (job_ptr s) v (head s)
        (sch s) (mem s).
Definition with_head (v : priqueue_t) (s : sched) : sched :=
  Sched (numOfJobs s) (totalJobs s) (numOfCores s) (job_ptr s) (core_arr s) v
        (sch s) (mem s).
Definition with_mem (v : list job_t) (s : sched) : sched :=
  Sched (numOfJobs s) (totalJobs s) (numOfCores s) (job_ptr s) (core_arr s)
        (head s) (sch s) v.

(** [p->field], faulting on [NULL] and on an address that was never
    allocated. *)
Definition load (s : sched) (p : option ptr) : option job_t :=
  a ← p; mem s !! a.

Definition store (s : sched) (a : ptr) (j : job_t) : sched :=
  with_mem (<[a := j]> (mem s)) s.

(** [core_arr[c] = v], faulting outside the array. *)
Definition write_core (s : sched) (c v : Z) : option sched :=
  if decide (0 ≤ c < Z.of_nat (length (core_arr s)))
  then Some (with_core_arr (<[Z.to_nat c := v]> (core_arr s)) s)
  else None.

(** ** scheduler_start_up *)

Definition scheduler_start_up (cores : Z) (scheme : scheme_t) : sched :=
  Sched 0 0 cores None (replicate (Z.to_nat cores) 0)
    (match scheme with
     | FCFS => priqueue_init compare1
     | SJF | PSJF => priqueue_init compare2
     | PRI | PPRI => priqueue_init compare3
     | RR => priqueue_init compare4
     | SCHEME_OTHER => priqueue_init compare1
     end)
    scheme [].

(** ** scheduler_new_job *)

(** What [malloc] hands out before the fields are assigned. The source
    assigns every field of a new job before it reads any. *)
Definition job_uninit : job_t := Job 0 0 0 0 0 0 0 0 0 0 0 None.

Definition malloc_job (s : sched) : ptr * sched :=
  (length (mem s), with_mem (mem s ++ [job_uninit]) s).

(** [for(i = 0; i < n; i++) tmp1 = tmp1->next;] *)
Fixpoint list_walk (n : nat) (s : sched) (tmp1 : option ptr)
  : option (option ptr) :=
  match n with
  | O => Some tmp1
  | S n' => j ← load s tmp1; list_walk n' s (next j)
  end.

(** [p->next = v] *)
Definition link_after (s : sched) (p : option ptr) (v : ptr) : option sched :=
  a ← p; j ← mem s !! a; Some (store s a (set_next (Some v) j)).

(** "Add new job to the job list": returns [tmp1]. *)
Definition append_job (s : sched) (job_number : Z) : option (ptr * sched) :=
  if decide (job_number = 0) then
    let '(a, s1) := malloc_job s in
    Some (a, with_job_ptr (Some a) s1)
  else if decide (job_number = 1) then
    let '(a, s1) := malloc_job s in
    s2 ← link_after s1 (job_ptr s1) a;
    Some (a, s2)
  else
    tmp1 ← list_walk (Z.to_nat (sub32 (totalJobs s) 2)) s (job_ptr s);
    let '(a, s1) := malloc_job s in
    s2 ← link_after s1 tmp1 a;
    Some (a, s2).

(** "Update the remaining time of jobs that are currently active":
    iteration [i] of the loop, with [fuel] iterations left at most. *)
Fixpoint update_active (fuel i : nat) (time : Z) (s : sched) : option sched :=
  if decide (Z.of_nat i < priqueue_size (head s)) then
    match fuel with
    | O => None
    | S fuel' =>
        a ← priqueue_at (head s) i;
        tmp2 ← mem s !! a;
        update_active fuel' (S i) time
          (if decide (core_id tmp2 ≠ -1)
           then store s a (set_remaining_time (remaining_at time tmp2) tmp2)
           else s)
    end
  else Some s.

(** The first [i' ≥ i] below [i + n] with [core_arr[i'] == 0]. *)
Fixpoint first_idle (n i : nat) (arr : list Z) : option (option nat) :=
  match n with
  | O => Some None
  | S n' =>
      c ← arr !! i;
      if decide (c = 0) then Some (Some i) else first_idle n' (S i) arr
  end.

(** [for(i = n-1; i >= 0; i--)]: the last queue entry below rank [n] whose
    job is on a core. *)
Fixpoint last_active (s : sched) (n : nat) : option (option ptr) :=
  match n with
  | O => Some None
  | S i =>
      a ← priqueue_at (head s) i;
      tmp2 ← mem s !! a;
      if decide (core_id tmp2 ≠ -1) then Some (Some a) else last_active s i
  end.

(** What a preemption does to its victim [tmp2]: off the core, waiting from
    [time] on, and back to the defaults when it has not run any cycle. *)
Definition evict (time : Z) (tmp2 : job_t) : job_t :=
  let tmp2 := set_core_id (-1) tmp2 in
  let tmp2 := set_start_wait time tmp2 in
  let tmp2 := set_remaining_time (remaining_at time tmp2) tmp2 in
  if decide (remaining_time tmp2 = duration tmp2)
  then set_wait_time (-1) (set_start_wait (-1) (set_response_time (-1) tmp2))
  else tmp2.

(** The body run on the victim of a preemption; returns its core. *)
Definition preempt (s : sched) (a : ptr) (time : Z) : option (Z * sched) :=
  tmp2 ← mem s !! a;
  let new_core_id := core_id tmp2 in
  s ← write_core s new_core_id 1;
  Some (new_core_id, store s a (evict time tmp2)).

(** What both dispatch paths of [scheduler_new_job] do to the new job. *)
Definition run_on (c : Z) (tmp1 : job_t) : job_t :=
  set_response_time 0 (set_wait_time 0 (set_core_id c tmp1)).

Definition offer (s : sched) (a : ptr) : option (nat * sched) :=
  '(index, q) ← priqueue_offer (mem s) (head s) a;
  Some (index, with_head q s).

(** [if(sch == RR) tmp1->turn = priqueue_size(head);] *)
Definition stamp_turn (s : sched) (a : ptr) : option sched :=
  if decide (sch s = RR) then
    j ← mem s !! a; Some (store s a (set_turn (priqueue_size (head s)) j))
  else Some s.

(** "Initialize the new job." *)
Definition fresh_job (job_number time running_time priority : Z) : job_t :=
  Job job_number time running_time priority running_time (-1) (-1) (-1)
      (-1) (-1) (-1) None.

Definition scheduler_new_job (s : sched)
    (job_number time running_time priority : Z) : option (Z * sched) :=
  let s := with_numOfJobs (add32 (numOfJobs s) 1) s in
  let s := with_totalJobs (add32 (totalJobs s) 1) s in
  '(tmp1, s) ← append_job s job_number;
  let s := store s tmp1 (fresh_job job_number time running_time priority) in
  s ← update_active (length (elems (head s))) 0 time s;
  idle ← first_idle (Z.to_nat (numOfCores s)) 0 (core_arr s);
  match idle with
  | Some i =>
      j ← mem s !! tmp1;
      let s := store s tmp1 (run_on (Z.of_nat i) j) in
      s ← stamp_turn s tmp1;
      '(_, s) ← offer s tmp1;
      s ← write_core s (Z.of_nat i) 1;
      Some (Z.of_nat i, s)
  | None =>
      if decide (sch s = PSJF ∨ sch s = PPRI) then
        '(index, s) ← offer s tmp1;
        if decide (Z.of_nat index < numOfCores s) then
          victim ← last_active s (length (elems (head s)));
          '(new_core_id, s) ←
            match victim with
            | Some a => preempt s a time
            | None => Some (-1, s)
            end;
          j ← mem s !! tmp1;
          Some (new_core_id, store s tmp1 (run_on new_core_id j))
        else Some (-1, s)
      else
        s ← stamp_turn s tmp1;
        '(_, s) ← offer s tmp1;
        Some (-1, s)
  end.

(** ** scheduler_job_finished *)

(** What [scheduler_job_finished] does to the finished job; [rr] tells the
    round-robin branch, which also clears the turn. *)
Definition retire (rr : bool) (time : Z) (tmp : job_t) : job_t :=
  let tmp := set_turnover_time (sub32 time (arr_time tmp)) tmp in
  let tmp := set_remaining_time (remaining_at time tmp) tmp in
  let tmp := set_core_id (-1) tmp in
  if rr then set_turn (-1) tmp else tmp.

(** "find the finished job in the list": iteration [i]; [idle_core_id] is
    [None] as long as the local variable is not assigned. *)
Fixpoint finish_scan (fuel i : nat) (s : sched) (core job_number time : Z)
    (idle_core_id : option Z) : option (option Z * sched) :=
  if decide (Z.of_nat i < priqueue_size (head s)) then
    match fuel with
    | O => None
    | S fuel' =>
        a ← priqueue_at (head s) i;
        tmp ← mem s !! a;
        if decide (id tmp = job_number) then
          let s := store s a (retire (bool_decide (sch s = RR)) time tmp) in
          let s := with_head (priqueue_remove_at (head s) i).2 s in
          finish_scan fuel' (S i) s core job_number time (Some core)
        else finish_scan fuel' (S i) s core job_number time idle_core_id
    end
  else Some (idle_core_id, s).

(** "Update the jobs' turn values": iteration [i]. *)
Fixpoint renumber (fuel i : nat) (s : sched) : option sched :=
  if decide (Z.of_nat i < priqueue_size (head s)) then
    match fuel with
    | O => None
    | S fuel' =>
        a ← priqueue_at (head s) i;
        tmp ← mem s !! a;
        renumber fuel' (S i) (store s a (set_turn (Z.of_nat i) tmp))
    end
  else Some s.

(** [while(i < (priqueue_size(head)-1) && tmp->core_id != -1)] *)
Fixpoint next_inactive (fuel i : nat) (s : sched) (a : ptr) : option ptr :=
  if decide (Z.of_nat i < sub32 (priqueue_size (head s)) 1) then
    tmp ← mem s !! a;
    if decide (core_id tmp ≠ -1) then
      match fuel with
      | O => None
      | S fuel' =>
          a' ← priqueue_at (head s) (S i);
          next_inactive fuel' (S i) s a'
      end
    else Some a
  else Some a.

(** What a dispatch does to the times of the chosen job: a first dispatch
    sets the response and waiting times, a later one closes the wait that a
    preemption opened. *)
Definition resume (time : Z) (tmp : job_t) : job_t :=
  let tmp :=
    if decide (response_time tmp = -1)
    then set_wait_time (sub32 time (arr_time tmp))
           (set_response_time (sub32 time (arr_time tmp)) tmp)
    else tmp in
  if decide (start_wait tmp ≠ -1)
  then set_start_wait (-1)
         (set_wait_time (add32 (wait_time tmp) (sub32 time (start_wait tmp)))
            tmp)
  else tmp.

(** "Get the next inactive job in queue", the tail shared by
    [scheduler_job_finished] (both branches) and [scheduler_quantum_expired].
    [assigned] is what the source stores into [tmp->core_id]:
    [idle_core_id] in the former, [core_id] in the latter. *)
Definition dispatch_next (s : sched) (assigned : option Z) (core time : Z)
  : option (Z * sched) :=
  match priqueue_peek (head s) with
  | None => Some (-1, s)
  | Some a0 =>
      a ← next_inactive (length (elems (head s))) 0 s a0;
      tmp ← mem s !! a;
      if decide (core_id tmp ≠ -1) then Some (-1, s)
      else
        let tmp := resume time tmp in
        c ← assigned;
        let tmp := set_core_id c tmp in
        s ← write_core (store s a tmp) core 1;
        Some (id tmp, s)
  end.

Definition scheduler_job_finished (s : sched) (core job_number time : Z)
  : option (Z * sched) :=
  let s := with_numOfJobs (sub32 (numOfJobs s) 1) s in
  s ← write_core s core 0;
  '(idle_core_id, s) ←
    finish_scan (length (elems (head s))) 0 s core job_number time None;
  s ← (if decide (sch s = RR)
       then renumber (length (elems (head s))) 0 s else Some s);
  dispatch_next s idle_core_id core time.

(** ** scheduler_quantum_expired *)

(** What the expiry of its quantum does to the running job. *)
Definition suspend (time : Z) (curr : job_t) : job_t :=
  let curr := set_core_id (-1) curr in
  let curr := set_start_wait time curr in
  set_remaining_time (remaining_at time curr) curr.

(** "get the job where the quantum has expired": iteration [i]; [curr] is
    [None] as long as the local variable is not assigned. *)
Fixpoint quantum_scan (fuel i : nat) (s : sched) (core time : Z)
    (curr : option ptr) : option (option ptr * sched) :=
  if decide (Z.of_nat i < priqueue_size (head s)) then
    match fuel with
    | O => None
    | S fuel' =>
        a ← priqueue_at (head s) i;
        j ← mem s !! a;
        if decide (core_id j = core) then
          s ← write_core s core (-1);
          let s := store s a (suspend time j) in
          let '(removed, q) := priqueue_remove_at (head s) i in
          let s := with_head q s in
          a' ← removed;
          j' ← mem s !! a';
          Some (Some a', store s a' (set_turn (priqueue_size (head s)) j'))
        else quantum_scan fuel' (S i) s core time (Some a)
    end
  else Some (curr, s).

Definition scheduler_quantum_expired (s : sched) (core time : Z)
  : option (Z * sched) :=
  '(curr, s) ← quantum_scan (length (elems (head s))) 0 s core time None;
  s ← renumber (length (elems (head s))) 0 s;
  a ← curr;
  '(_, s) ← offer s a;
  dispatch_next s (Some core) core time.

(** ** The statistics *)

(** The operands of the final [(float)total / (float)totalJobs]: the
    quotient is left unevaluated, so that a zero divisor stays visible. *)
Inductive float_quotient := FloatDiv (num den : Z).

Definition divisor (r : float_quotient) : Z := let 'FloatDiv _ d := r in d.
Definition dividend (r : float_quotient) : Z := let 'FloatDiv n _ := r in n.

(** [for(i = 0; i < n; i++) { total += tmp->field; tmp = tmp->next; }] *)
Fixpoint sum_jobs (field : job_t → Z) (n : nat) (s : sched)
    (tmp : option ptr) (total : Z) : option Z :=
  match n with
  | O => Some total
  | S n' =>
      j ← load s tmp;
      sum_jobs field n' s (next j) (add32 total (field j))
  end.

Definition scheduler_average_waiting_time (s : sched) : option float_quotient :=
  totalWaitTime ← sum_jobs wait_time (Z.to_nat (totalJobs s)) s (job_ptr s) 0;
  Some (FloatDiv totalWaitTime (totalJobs s)).

Definition scheduler_average_turnaround_time (s : sched)
  : option float_quotient :=
  totalTurnTime ←
    sum_jobs turnover_time (Z.to_nat (totalJobs s)) s (job_ptr s) 0;
  Some (FloatDiv totalTurnTime (totalJobs s)).

(** The local array [resp_arr] is written and never read. *)
Definition scheduler_average_response_time (s : sched)
  : option float_quotient :=
  totalRespTime ←
    sum_jobs response_time (Z.to_nat (totalJobs s)) s (job_ptr s) 0;
  Some (FloatDiv totalRespTime (totalJobs s)).

(** ** Events *)

Inductive event :=
  | NewJob (job_number time running_time priority : Z)
  | JobFinished (core job_number time : Z)
  | QuantumExpired (core time : Z).

Definition event_time (e : event) : Z :=
  match e with
  | NewJob _ t _ _ => t
  | JobFinished _ _ t => t
  | QuantumExpired _ t => t
  end.

Definition handle (s : sched) (e : event) : option (Z * sched) :=
  match e with
  | NewJob n t r p => scheduler_new_job s n t r p
  | JobFinished c n t => scheduler_job_finished s c n t
  | QuantumExpired c t => scheduler_quantum_expired s c t
  end.

Lemma handle_new_job s job_number time running_time priority :
  handle s (NewJob job_number time running_time priority)
  = scheduler_new_job s job_number time running_time priority.
Proof. reflexivity. Qed.


Lemma handle_quantum_expired s core time :
  handle s (QuantumExpired core time)
  = scheduler_quantum_expired s core time.
Proof. reflexivity. Qed.

(** Runs the events in order; the answers of the handlers come out in the
    same order. *)
Fixpoint run (s : sched) (es : list event) : option (list Z * sched) :=
  match es with
  | [] => Some ([], s)
  | e :: es' =>
      '(r, s1) ← handle s e;
      '(rs, s2) ← run s1 es';
      Some (r :: rs, s2)
  end.

(** * Well-formed states *)

(** A field of every allocated job, by address. *)
Definition field {B : Type} (f : job_t → B) (s : sched) : list B := f <$> mem s.

(** The jobs of the queue, in rank order. *)
Definition queue_jobs (s : sched) : list job_t :=
  omap (λ p, mem s !! p) (elems (head s)).

(** The cores marked busy, and the jobs that hold a core. *)
Definition busy_cores (s : sched) : nat :=
  length (filter (λ c, c ≠ 0) (core_arr s)).
Definition assigned_jobs (s : sched) : nat :=
  length (filter (λ j, core_id j ≠ -1) (queue_jobs s)).

(** The job list: [total] jobs, linked in the order of their addresses, with
    job numbers that grow along the list. *)
Record list_wf (total : Z) (jp : option ptr) (nexts : list (option ptr))
    (ids : list Z) : Prop := {
  lw_total : total = Z.of_nat (length ids);
  lw_ptr : jp = if decide (ids = []) then None else Some 0%nat;
  lw_len : length nexts = length ids;
  lw_next : ∀ k v, nexts !! k = Some v →
      v = if decide (S k < length ids)%nat then Some (S k) else None;
  lw_id_lo : ∀ k a, ids !! k = Some a → Z.of_nat k ≤ a < INT_MAX;
  lw_id_inc : ∀ k k' a b,
      ids !! k = Some a → ids !! k' = Some b → (k < k')%nat → a < b
}.

(** The cores [arr], the queue [q] and the [core_id] of every job agree. *)
Record cores_wf (nc : Z) (arr : list Z) (q : list ptr) (cids : list Z)
    : Prop := {
  cw_len : nc = Z.of_nat (length arr);
  cw_val : Forall (λ c, c = 0 ∨ c = 1) arr;
  cw_nodup : NoDup q;
  cw_valid : ∀ p, p ∈ q → (p < length cids)%nat;
  cw_assign : ∀ p c, cids !! p = Some c → c ≠ -1 →
      p ∈ q ∧ 0 ≤ c ∧ arr !! Z.to_nat c = Some 1;
  cw_inj : ∀ p p' c, cids !! p = Some c → cids !! p' = Some c → c ≠ -1 →
      p = p';
  cw_count :
      length (filter (λ c, c ≠ 0) arr) = length (filter (λ c, c ≠ -1) cids)
}.

(** Round robin: the [turn] of a queued job is its rank. *)
Definition turns_wf (q : list ptr) (turns : list Z) : Prop :=
  ∀ i p, q !! i = Some p → turns !! p = Some (Z.of_nat i).

Record wf (s : sched) : Prop := {
  wf_list :
    list_wf (totalJobs s) (job_ptr s) (field next s) (field id s);
  wf_cores :
    cores_wf (numOfCores s) (core_arr s) (elems (head s)) (field core_id s);
  wf_cmp4 : sch s = RR → comparer (head s) = compare4;
  wf_turn : sch s = RR → turns_wf (elems (head s)) (field turn s)
}.

(** ** Preconditions of the handlers *)

(** Job numbers start at 0 and grow with every arrival. *)
Definition arrival_ok (s : sched) (job_number : Z) : Prop :=
  0 ≤ job_number < INT_MAX ∧
  (mem s = [] → job_number = 0) ∧
  (∀ a, a ∈ field id s → a < job_number).

(** Job [job_number] is in the queue and holds core [core]. *)
Definition on_core (s : sched) (job_number core : Z) : Prop :=
  ∃ p, p ∈ elems (head s) ∧ field id s !! p = Some job_number ∧
       field core_id s !! p = Some core ∧ core ≠ -1.

(** Some job of the queue holds core [core]. *)
Definition core_in_use (s : sched) (core : Z) : Prop :=
  ∃ p, p ∈ elems (head s) ∧ field core_id s !! p = Some core ∧ core ≠ -1.

(** The event can be delivered at simulation time [now]. *)
Definition valid_event (now : Z) (s : sched) (e : event) : Prop :=
  match e with
  | NewJob job_number time running_time priority =>
      now ≤ time ≤ INT_MAX ∧ arrival_ok s job_number ∧
      (∀ a, a ∈ field arr_time s → a < time) ∧
      int_range running_time ∧ int_range priority
  | JobFinished core job_number time =>
      now ≤ time ≤ INT_MAX ∧ on_core s job_number core
  | QuantumExpired core time =>
      now ≤ time ≤ INT_MAX ∧ sch s = RR ∧ core_in_use s core
  end.

(** The states of the runs that start with [scheduler_start_up cores scheme]
    at time 0, together with the time of the last event. *)
Inductive reachable (cores : Z) (scheme : scheme_t) : Z → sched → Prop :=
  | reach_start :
      0 < cores →
      reachable cores scheme 0 (scheduler_start_up cores scheme)
  | reach_step now s e r s' :
      reachable cores scheme now s →
      valid_event now s e →
      handle s e = Some (r, s') →
      reachable cores scheme (event_time e) s'.

(** * Proofs *)

(** ** Arithmetic *)

Lemma wrap_small z : int_range z → wrap z = z.
Proof.
  unfold int_range, INT_MIN, INT_MAX, wrap. intros Hz.
  rewrite Z.mod_small; lia.
Qed.

Lemma sub32_small a b : int_range (a - b) → sub32 a b = a - b.
Proof. apply wrap_small. Qed.

Lemma add32_small a b : int_range (a + b) → add32 a b = a + b.
Proof. apply wrap_small. Qed.

(** ** Memory *)

Lemma fmap_insert_same {B} (f : job_t → B) (m : list job_t) a j j' :
  m !! a = Some j → f j' = f j → f <$> <[a:=j']> m = f <$> m.
Proof.
  intros Ha Hf. rewrite list_fmap_insert. apply list_insert_id.
  rewrite list_lookup_fmap, Ha. simpl. by rewrite Hf.
Qed.

Ltac unfold_state :=
  unfold store, with_mem, with_head, with_core_arr, with_job_ptr,
    with_totalJobs, with_numOfJobs; simpl.

Lemma with_mem_id s : with_mem (mem s) s = s.
Proof. by destruct s. Qed.

Lemma store_alter s a j (g : job_t → job_t) :
  mem s !! a = Some j → store s a (g j) = with_mem (alter g a (mem s)) s.
Proof.
  intros Ha. unfold store. f_equal. apply list_eq. intros i.
  rewrite list_lookup_alter. destruct (decide (a = i)) as [->|Hne].
  - rewrite Ha. simpl. apply list_lookup_insert_eq. by eapply lookup_lt_Some.
  - by apply list_lookup_insert_ne.
Qed.

Lemma fmap_alter_same {B} (f : job_t → B) (g : job_t → job_t)
    (m : list job_t) a :
  (∀ j, f (g j) = f j) → f <$> alter g a m = f <$> m.
Proof.
  intros Hf.
  rewrite (list_fmap_alter f g (λ b, b)) by (apply Forall_forall; auto).
  by apply list_alter_id.
Qed.

Lemma fmap_alter_set {B} (f : job_t → B) (g : job_t → job_t) (v : B)
    (m : list job_t) a :
  (∀ j, f (g j) = v) → f <$> alter g a m = <[a:=v]> (f <$> m).
Proof.
  intros Hf.
  rewrite (list_fmap_alter f g (λ _, v)) by (apply Forall_forall; auto).
  by rewrite list_insert_alter.
Qed.

(** ** The start state *)

Lemma start_up_elems cores scheme :
  elems (head (scheduler_start_up cores scheme)) = [].
Proof. by destruct scheme. Qed.

Lemma filter_replicate_0 n : filter (λ c, c ≠ 0) (replicate n 0) = [].
Proof.
  induction n as [|n IH]; simpl; [done|].
  rewrite filter_cons_False; [done | intros H; by apply H].
Qed.

Lemma start_up_wf cores scheme : 0 < cores → wf (scheduler_start_up cores scheme).
Proof.
  intros Hc. split; rewrite ?start_up_elems.
  - by split.
  - split; simpl; try done.
    + rewrite length_replicate. lia.
    + apply Forall_replicate. by left.
    + constructor.
    + intros p Hp. by apply elem_of_nil in Hp.
    + by rewrite filter_replicate_0.
  - simpl. by intros ->.
  - by intros _ i p Hi.
Qed.

(** ** The loop that refreshes the remaining times *)

(** What the loop may do to a job: nothing, or refresh the remaining time of
    a job that holds a core. *)
Definition refresh_rel (time : Z) (j j' : job_t) : Prop :=
  j' = j ∨ (core_id j ≠ -1 ∧ j' = set_remaining_time (remaining_at time j) j).

Lemma refresh_rel_step time j j' :
  refresh_rel time j j' → core_id j' ≠ -1 →
  refresh_rel time j (set_remaining_time (remaining_at time j') j').
Proof. intros [->|[Hc ->]] Hc'; right; by split. Qed.

Lemma update_active_acc fuel i time s s' m0 :
  Forall2 (refresh_rel time) m0 (mem s) →
  update_active fuel i time s = Some s' →
  ∃ m', s' = with_mem m' s ∧ Forall2 (refresh_rel time) m0 m'.
Proof.
  revert i s. induction fuel as [|fuel IH]; intros i s Hm0; simpl.
  - case_decide; [done|]. intros [= <-]. exists (mem s).
    by rewrite with_mem_id.
  - case_decide; [|intros [= <-]; exists (mem s); by rewrite with_mem_id].
    destruct (priqueue_at (head s) i) as [a|] eqn:Ha; [simpl|done].
    destruct (mem s !! a) as [j|] eqn:Hj; [simpl|done].
    case_decide as Hc; [|by apply IH].
    rewrite (store_alter s a j
               (λ j, set_remaining_time (remaining_at time j) j) Hj).
    intros (m' & -> & Hm')%IH; [by exists m'|]. simpl.
    apply Forall2_alter_r; [done|]. intros x y _ Hy Hxy.
    apply refresh_rel_step; congruence.
Qed.

Lemma update_active_spec fuel i time s s' :
  update_active fuel i time s = Some s' →
  ∃ m', s' = with_mem m' s ∧ Forall2 (refresh_rel time) (mem s) m'.
Proof.
  apply update_active_acc, Forall2_same_length_lookup_2; [done|].
  intros k x y Hx Hy. left. congruence.
Qed.

Lemma refresh_field {B} (f : job_t → B) time m m' :
  (∀ v j, f (set_remaining_time v j) = f j) →
  Forall2 (refresh_rel time) m m' → f <$> m' = f <$> m.
Proof.
  intros Hf Hm. induction Hm as [|j j' m m' [->|[_ ->]] _ IH]; [done|..];
    by rewrite !fmap_cons, ?Hf, IH.
Qed.

Lemma refresh_inactive time m m' p j :
  Forall2 (refresh_rel time) m m' → m !! p = Some j → core_id j = -1 →
  m' !! p = Some j.
Proof.
  intros Hm Hp Hc. destruct (Forall2_lookup_l _ _ _ _ _ Hm Hp) as (j' & Hj' & Hr).
  destruct Hr as [->|[? _]]; done.
Qed.

Lemma update_active_total fuel i time s :
  (∀ p, p ∈ elems (head s) → (p < length (mem s))%nat) →
  (length (elems (head s)) ≤ fuel + i)%nat →
  is_Some (update_active fuel i time s).
Proof.
  revert i s. induction fuel as [|fuel IH]; intros i s Hv Hlen; simpl;
    unfold priqueue_size, priqueue_at.
  - case_decide; [lia | done].
  - case_decide; [|done].
    destruct (lookup_lt_is_Some_2 (elems (head s)) i) as [a Ha]; [lia|].
    rewrite Ha. simpl.
    destruct (lookup_lt_is_Some_2 (mem s) a) as [j Hj].
    { apply Hv. apply list_elem_of_lookup. eauto. }
    rewrite Hj. simpl. apply IH.
    + case_decide; [|done]. simpl. intros p Hp. rewrite length_insert. auto.
    + case_decide; simpl; lia.
Qed.

(** ** Registering the new job *)

Lemma field_lookup {B} (f : job_t → B) s p j :
  mem s !! p = Some j → field f s !! p = Some (f j).
Proof. intros Hp. unfold field. by rewrite list_lookup_fmap, Hp. Qed.

Lemma field_lookup_inv {B} (f : job_t → B) s p b :
  field f s !! p = Some b → ∃ j, mem s !! p = Some j ∧ b = f j.
Proof.
  unfold field. rewrite list_lookup_fmap. intros Hp.
  destruct (mem s !! p) as [j|]; [|done]. injection Hp as <-. eauto.
Qed.

Lemma field_length {B} (f : job_t → B) s : length (field f s) = length (mem s).
Proof. apply length_fmap. Qed.

Section facts_on_wf.
Context (s : sched) (Hwf : wf s).

Lemma wf_id_lookup p j : mem s !! p = Some j → Z.of_nat p ≤ id j < INT_MAX.
Proof.
  intros Hp. apply (lw_id_lo _ _ _ _ (wf_list s Hwf) p).
  by apply field_lookup.
Qed.

Lemma wf_mem_bound : Z.of_nat (length (mem s)) ≤ INT_MAX.
Proof.
  destruct (mem s) as [|j0 m] eqn:Hm using rev_ind; [simpl; unfold INT_MAX; lia|].
  rewrite length_app. simpl.
  assert (mem s !! length m = Some j0) as Hj.
  { rewrite Hm. by apply list_lookup_middle. }
  apply wf_id_lookup in Hj. lia.
Qed.

Lemma wf_queue_valid p : p ∈ elems (head s) → (p < length (mem s))%nat.
Proof.
  intros Hp. rewrite <-(field_length core_id).
  by apply (cw_valid _ _ _ _ (wf_cores s Hwf)).
Qed.

Lemma wf_queue_lookup i p :
  elems (head s) !! i = Some p → ∃ j, mem s !! p = Some j.
Proof.
  intros Hi. apply lookup_lt_is_Some_2, wf_queue_valid.
  apply list_elem_of_lookup. eauto.
Qed.

Lemma wf_queue_length : (length (elems (head s)) ≤ length (mem s))%nat.
Proof.
  pose proof (cw_nodup _ _ _ _ (wf_cores s Hwf)) as Hnd.
  assert (elems (head s) ⊆ seq 0 (length (mem s))) as Hsub.
  { intros p Hp. apply elem_of_seq. pose proof (wf_queue_valid p Hp). lia. }
  apply (NoDup_submseteq _ _ Hnd), submseteq_length in Hsub.
  by rewrite length_seq in Hsub.
Qed.

Lemma arrival_ok_length job_number :
  arrival_ok s job_number → Z.of_nat (length (mem s)) ≤ job_number.
Proof.
  intros (Hr & _ & Hlt).
  destruct (mem s) as [|j0 m] eqn:Hm using rev_ind; [simpl; lia|].
  rewrite length_app. simpl.
  assert (mem s !! length m = Some j0) as Hj.
  { rewrite Hm. by apply list_lookup_middle. }
  pose proof (wf_id_lookup _ _ Hj).
  assert (id j0 < job_number); [|lia].
  apply Hlt. unfold field. rewrite Hm, fmap_app. apply elem_of_app. right.
  simpl. apply list_elem_of_singleton. done.
Qed.
End facts_on_wf.

Lemma walk_chain s n k :
  (∀ k v, field next s !! k = Some v →
     v = if decide (S k < length (mem s))%nat then Some (S k) else None) →
  (k + n < length (mem s))%nat →
  list_walk n s (Some k) = Some (Some (k + n)%nat).
Proof.
  intros Hnext. revert k. induction n as [|n IH]; intros k Hk; simpl.
  - by rewrite Nat.add_0_r.
  - destruct (lookup_lt_is_Some_2 (mem s) k) as [j Hj]; [lia|].
    rewrite Hj. simpl.
    assert (next j = Some (S k)) as ->.
    { rewrite (Hnext k (next j)).
      - case_decide; [done | lia].
      - unfold field. by rewrite list_lookup_fmap, Hj. }
    rewrite IH by lia. do 2 f_equal. lia.
Qed.

(** The job list after the previous tail is linked to the next free address. *)
Definition linked (m : list job_t) : list job_t :=
  alter (set_next (Some (length m))) (pred (length m)) m.

(** The state once the new job [j0] is in the job list. *)
Definition registered (s : sched) (j0 : job_t) : sched :=
  Sched (add32 (numOfJobs s) 1) (totalJobs s + 1) (numOfCores s) (Some 0%nat)
        (core_arr s) (head s) (sch s) (linked (mem s) ++ [j0]).

Lemma insert_alter_app (m k : list job_t) i j (g : job_t → job_t) :
  m !! i = Some j → <[i:=g j]> (m ++ k) = alter g i m ++ k.
Proof.
  intros Hi. rewrite insert_app_l by (by eapply lookup_lt_Some). f_equal.
  apply list_eq. intros i'. rewrite list_lookup_alter.
  destruct (decide (i = i')) as [->|Hne].
  - rewrite Hi. simpl. apply list_lookup_insert_eq. by eapply lookup_lt_Some.
  - by apply list_lookup_insert_ne.
Qed.

Lemma append_job_spec s job_number :
  wf s → arrival_ok s job_number →
  append_job (with_totalJobs (add32 (totalJobs s) 1)
                (with_numOfJobs (add32 (numOfJobs s) 1) s)) job_number
  = Some (length (mem s), registered s job_uninit).
Proof.
  intros Hwf Hok. pose proof (arrival_ok_length s Hwf _ Hok) as Hlen.
  destruct Hok as (Hr & Hnil & Hlt).
  pose proof (lw_total _ _ _ _ (wf_list s Hwf)) as Htot.
  pose proof (lw_ptr _ _ _ _ (wf_list s Hwf)) as Hptr.
  rewrite field_length in Htot.
  assert (add32 (totalJobs s) 1 = totalJobs s + 1) as Hadd.
  { apply add32_small. unfold int_range, INT_MIN, INT_MAX in *. lia. }
  unfold append_job, registered, linked. rewrite Hadd.
  destruct (decide (job_number = 0)) as [->|Hn0].
  { destruct (mem s) as [|j m] eqn:Hm; [|simpl in Hlen; lia].
    unfold malloc_job. simpl. rewrite Hm. done. }
  destruct (mem s) as [|j m] eqn:Hm; [by specialize (Hnil eq_refl)|].
  unfold field in Hptr. rewrite Hm, decide_False in Hptr by done.
  destruct (decide (job_number = 1)) as [->|Hn1].
  { destruct m as [|j' m]; [|simpl in Hlen; lia].
    unfold malloc_job, link_after, store. simpl. rewrite Hptr, Hm. simpl.
    unfold_state. by rewrite Hptr. }
  set (s1 := with_totalJobs _ _).
  change (totalJobs s1) with (totalJobs s + 1).
  change (job_ptr s1) with (job_ptr s). rewrite Hptr, Htot.
  assert (sub32 (Z.of_nat (length (j :: m)) + 1) 2
          = Z.of_nat (length m)) as ->.
  { rewrite sub32_small; simpl length; unfold int_range, INT_MIN, INT_MAX in *;
      simpl in Hlen; lia. }
  rewrite Nat2Z.id. rewrite walk_chain.
  - simpl. unfold malloc_job, link_after. subst s1. simpl. rewrite Hm.
    destruct (lookup_lt_is_Some_2 (j :: m) (length m)) as [jl Hjl]; [simpl; lia|].
    change (j :: m ++ [job_uninit]) with ((j :: m) ++ [job_uninit]).
    rewrite (lookup_app_l (j :: m)) by (simpl; lia). rewrite Hjl. simpl.
    unfold_state.
    change (j :: m ++ [job_uninit]) with ((j :: m) ++ [job_uninit]).
    by rewrite (insert_alter_app _ _ _ _ _ Hjl), Hptr, Htot.
  - intros k v. unfold field. subst s1. simpl. rewrite Hm. intros Hk.
    pose proof (lw_next _ _ _ _ (wf_list s Hwf) k v) as Hn.
    rewrite field_length in Hn. unfold field in Hn. rewrite Hm in Hn. auto.
  - subst s1. simpl. rewrite Hm. simpl. lia.
Qed.

Lemma registered_store s j0 :
  store (registered s job_uninit) (length (mem s)) j0 = registered s j0.
Proof.
  unfold store, registered. simpl. f_equal.
  rewrite insert_app_r_alt by (unfold linked; by rewrite length_alter).
  unfold linked. rewrite length_alter, Nat.sub_diag. done.
Qed.

(** ** Cores, queue and assignments: the elementary transitions *)

Lemma filter_insert_length {A} (P : A → Prop) `{!∀ x, Decision (P x)}
    (l : list A) i x y :
  l !! i = Some x →
  (length (filter P (<[i:=y]> l)) + (if decide (P x) then 1 else 0)
   = length (filter P l) + (if decide (P y) then 1 else 0))%nat.
Proof.
  intros Hi. rewrite insert_take_drop by (by eapply lookup_lt_Some).
  rewrite <-(take_drop_middle l i x Hi) at 3.
  rewrite !filter_app, !length_app.
  destruct (decide (P x)), (decide (P y)).
  - rewrite !filter_cons_True by done. simpl. lia.
  - rewrite (filter_cons_True _ x), (filter_cons_False _ y) by done. simpl. lia.
  - rewrite (filter_cons_False _ x), (filter_cons_True _ y) by done. simpl. lia.
  - rewrite !filter_cons_False by done. lia.
Qed.

Section cores_transitions.
Context (nc : Z) (arr : list Z) (q : list ptr) (cids : list Z).
Context (Hcw : cores_wf nc arr q cids).

(** A job that was just allocated holds no core. *)
Lemma cw_register : cores_wf nc arr q (cids ++ [-1]).
Proof.
  destruct Hcw as [Hlen Hval Hnd Hv Has Hinj Hcnt]. split; try done.
  - intros p Hp. rewrite length_app. specialize (Hv p Hp). lia.
  - intros p c [Hp|[_ Hp]]%lookup_app_Some ?; [eauto|].
    apply list_lookup_singleton_Some in Hp as [_ <-]. done.
  - intros p p' c [Hp|[_ Hp]]%lookup_app_Some [Hp'|[_ Hp']]%lookup_app_Some ?;
      [eauto|..].
    all: try apply list_lookup_singleton_Some in Hp as [_ <-]; try done.
    all: try apply list_lookup_singleton_Some in Hp' as [_ <-]; done.
  - rewrite filter_app, length_app, Hcnt.
    rewrite filter_cons_False by (intros H; by apply H). simpl. lia.
Qed.

Lemma cw_perm q' : q ≡ₚ q' → cores_wf nc arr q' cids.
Proof.
  intros Hperm.
  destruct Hcw as [Hlen Hval Hnd Hv Has Hinj Hcnt]. split; try done.
  - by rewrite <-Hperm.
  - intros p Hp. apply Hv. by rewrite Hperm.
  - intros p c Hp Hc. destruct (Has p c Hp Hc) as (? & ? & ?).
    by rewrite <-Hperm.
Qed.

(** A valid address that is not queued yet enters the queue. *)
Lemma cw_enqueue n q' :
  (n < length cids)%nat → n ∉ q → q' ≡ₚ n :: q → cores_wf nc arr q' cids.
Proof.
  intros Hn Hnq Hperm.
  destruct Hcw as [Hlen Hval Hnd Hv Has Hinj Hcnt]. split; try done.
  - rewrite Hperm. by constructor.
  - intros p. rewrite Hperm. intros [->|Hp]%elem_of_cons; auto.
  - intros p c Hp Hc. destruct (Has p c Hp Hc) as (? & ? & ?).
    rewrite Hperm. split_and!; [by right|done..].
Qed.

(** A job that holds no core leaves the queue. *)
Lemma cw_dequeue p q' :
  q ≡ₚ p :: q' → cids !! p = Some (-1) → cores_wf nc arr q' cids.
Proof.
  intros Hperm Hp.
  destruct Hcw as [Hlen Hval Hnd Hv Has Hinj Hcnt].
  rewrite Hperm in Hnd. apply NoDup_cons in Hnd as [Hpq Hnd'].
  split; try done.
  - intros p' Hp'. apply Hv. rewrite Hperm. by right.
  - intros p' c Hp' Hc. destruct (Has p' c Hp' Hc) as (Hin & ? & ?).
    split_and!; [|done..]. rewrite Hperm in Hin.
    apply elem_of_cons in Hin as [->|Hin]; [|done]. congruence.
Qed.

(** A waiting job of the queue gets the idle core [c]. *)
Lemma cw_dispatch p c :
  p ∈ q → cids !! p = Some (-1) → 0 ≤ c → arr !! Z.to_nat c = Some 0 →
  cores_wf nc (<[Z.to_nat c:=1]> arr) q (<[p:=c]> cids).
Proof.
  intros Hpq Hp Hc Harr.
  destruct Hcw as [Hlen Hval Hnd Hv Has Hinj Hcnt]. split; try done.
  - by rewrite length_insert.
  - apply Forall_insert; auto.
  - intros p' Hp'. rewrite length_insert. auto.
  - intros p' c' Hp' Hc'. destruct (decide (p = p')) as [<-|Hne].
    + rewrite list_lookup_insert_eq in Hp' by (by eapply lookup_lt_Some).
      injection Hp' as <-. split_and!; [done..|].
      apply list_lookup_insert_eq. by eapply lookup_lt_Some.
    + rewrite list_lookup_insert_ne in Hp' by done.
      destruct (Has p' c' Hp' Hc') as (? & ? & Hc1). split_and!; [done..|].
      rewrite list_lookup_insert_ne; [done|]. intros Heq.
      rewrite Heq in Harr. congruence.
  - intros p1 p2 c' H1 H2 Hc'.
    destruct (decide (p = p1)) as [<-|Hne1], (decide (p = p2)) as [<-|Hne2];
      [done|..].
    + rewrite list_lookup_insert_eq in H1 by (by eapply lookup_lt_Some).
      rewrite list_lookup_insert_ne in H2 by done. injection H1 as <-.
      destruct (Has p2 c H2 Hc') as (? & ? & ?). congruence.
    + rewrite list_lookup_insert_eq in H2 by (by eapply lookup_lt_Some).
      rewrite list_lookup_insert_ne in H1 by done. injection H2 as <-.
      destruct (Has p1 c H1 Hc') as (? & ? & ?). congruence.
    + rewrite list_lookup_insert_ne in H1, H2 by done. eauto.
  - pose proof (filter_insert_length (λ c, c ≠ 0) arr _ 0 1 Harr) as H1.
    pose proof (filter_insert_length (λ c, c ≠ -1) cids _ (-1) c Hp) as H2.
    repeat case_decide; lia.
Qed.

(** The job at [p] gives its core back. *)
Lemma cw_release p c :
  cids !! p = Some c → c ≠ -1 →
  cores_wf nc (<[Z.to_nat c:=0]> arr) q (<[p:=-1]> cids).
Proof.
  intros Hp Hc.
  destruct Hcw as [Hlen Hval Hnd Hv Has Hinj Hcnt].
  destruct (Has p c Hp Hc) as (Hpq & Hc0 & Harr). split; try done.
  - by rewrite length_insert.
  - apply Forall_insert; auto.
  - intros p' Hp'. rewrite length_insert. auto.
  - intros p' c' Hp' Hc'. destruct (decide (p = p')) as [<-|Hne].
    + rewrite list_lookup_insert_eq in Hp' by (by eapply lookup_lt_Some).
      congruence.
    + rewrite list_lookup_insert_ne in Hp' by done.
      destruct (Has p' c' Hp' Hc') as (? & ? & Hc1). split_and!; [done..|].
      rewrite list_lookup_insert_ne; [done|]. intros Heq.
      assert (c = c') as <- by lia. apply Hne. eauto.
  - intros p1 p2 c' H1 H2 Hc'.
    destruct (decide (p = p1)) as [<-|Hne1].
    { rewrite list_lookup_insert_eq in H1 by (by eapply lookup_lt_Some).
      congruence. }
    destruct (decide (p = p2)) as [<-|Hne2].
    { rewrite list_lookup_insert_eq in H2 by (by eapply lookup_lt_Some).
      congruence. }
    rewrite list_lookup_insert_ne in H1, H2 by done. eauto.
  - pose proof (filter_insert_length (λ c, c ≠ 0) arr _ 1 0 Harr) as H1.
    pose proof (filter_insert_length (λ c, c ≠ -1) cids _ c (-1) Hp) as H2.
    repeat case_decide; lia.
Qed.
End cores_transitions.

(** ** Searching the core array and the queue *)

Lemma first_idle_spec n i (arr : list Z) :
  (i + n ≤ length arr)%nat →
  (∃ c, first_idle n i arr = Some (Some c) ∧ (i ≤ c < i + n)%nat ∧
        arr !! c = Some 0 ∧ ∀ k, (i ≤ k < c)%nat → arr !! k ≠ Some 0) ∨
  (first_idle n i arr = Some None ∧
   ∀ k, (i ≤ k < i + n)%nat → arr !! k ≠ Some 0).
Proof.
  revert i. induction n as [|n IH]; intros i Hlen; simpl.
  - right. split; [done|]. intros k Hk. lia.
  - destruct (lookup_lt_is_Some_2 arr i) as [c Hc]; [lia|]. rewrite Hc. simpl.
    case_decide as Hc0.
    + left. exists i. subst c. split_and!; [done|lia..|done|]. intros k Hk. lia.
    + destruct (IH (S i)) as [(c' & -> & Hr & Hc' & Hlow)|[-> Hall]]; [lia|..].
      * left. exists c'. split_and!; [done|lia..|done|].
        intros k Hk. destruct (decide (k = i)) as [->|]; [congruence|].
        apply Hlow. lia.
      * right. split; [done|]. intros k Hk.
        destruct (decide (k = i)) as [->|]; [congruence|]. apply Hall. lia.
Qed.

Lemma offer_rank_le m cmp a l k :
  offer_rank m cmp a l = Some k → (k ≤ length l)%nat.
Proof.
  revert k. induction l as [|p l IH]; intros k; simpl.
  - intros [= <-]. lia.
  - destruct (m !! p) as [b|]; [simpl|done]. case_decide.
    + intros [= <-]. lia.
    + destruct (offer_rank m cmp a l) as [k'|]; [simpl|done].
      intros [= <-]. specialize (IH k' eq_refl). lia.
Qed.

Lemma offer_rank_total (m : list job_t) cmp a (l : list ptr) :
  (∀ p, p ∈ l → (p < length m)%nat) → is_Some (offer_rank m cmp a l).
Proof.
  induction l as [|p l IH]; intros Hv; simpl; [done|].
  destruct (lookup_lt_is_Some_2 m p) as [b ->]; [apply Hv; by left|]. simpl.
  case_decide; [done|]. destruct IH as [k ->]; [|done].
  intros p' Hp'. apply Hv. by right.
Qed.

(** A job that no queued job follows goes to the tail. *)
Lemma offer_rank_last (m : list job_t) cmp a (l : list ptr) :
  (∀ p, p ∈ l → ∃ b, m !! p = Some b ∧ ¬ cmp a b < 0) →
  offer_rank m cmp a l = Some (length l).
Proof.
  induction l as [|p l IH]; intros Hv; simpl; [done|].
  destruct (Hv p) as (b & -> & Hb); [by left|]. simpl.
  rewrite decide_False by done. rewrite IH; [done|].
  intros p' Hp'. apply Hv. by right.
Qed.

Lemma insert_at_perm {A} (l : list A) k x :
  take k l ++ x :: drop k l ≡ₚ x :: l.
Proof. by rewrite <-Permutation_middle, take_drop. Qed.

Lemma last_active_spec s n :
  (n ≤ length (elems (head s)))%nat →
  (∀ p, p ∈ elems (head s) → (p < length (mem s))%nat) →
  (∃ i a j, last_active s n = Some (Some a) ∧ (i < n)%nat ∧
       elems (head s) !! i = Some a ∧ mem s !! a = Some j ∧ core_id j ≠ -1) ∨
  (last_active s n = Some None ∧
   ∀ i a j, (i < n)%nat → elems (head s) !! i = Some a → mem s !! a = Some j →
      core_id j = -1).
Proof.
  intros Hn Hv. induction n as [|n IH]; simpl.
  - right. split; [done|]. intros i a j Hi. lia.
  - unfold priqueue_at.
    destruct (lookup_lt_is_Some_2 (elems (head s)) n) as [a Ha]; [lia|].
    rewrite Ha. simpl.
    destruct (lookup_lt_is_Some_2 (mem s) a) as [j Hj].
    { apply Hv, list_elem_of_lookup. eauto. }
    rewrite Hj. simpl. case_decide as Hc.
    + left. exists n, a, j. split_and!; [done|lia|done..].
    + destruct IH as [(i & a' & j' & -> & Hi & ?)|[-> Hall]]; [lia|..].
      * left. exists i, a', j'. split_and!; [done|lia|tauto..].
      * right. split; [done|]. intros i a' j' Hi Ha' Hj'.
        destruct (decide (i = n)) as [->|].
        { assert (a' = a) as -> by congruence.
          assert (j' = j) as -> by congruence.
          destruct (decide (core_id j = -1)); [done|]. by destruct Hc. }
        eapply Hall; [|done..]. lia.
Qed.

(** Under round robin the new turn is the queue size: the job goes last. *)
Lemma offer_rank_rr (m : list job_t) a (l : list ptr) :
  turns_wf l (turn <$> m) →
  turn a = Z.of_nat (length l) →
  Z.of_nat (length l) ≤ INT_MAX →
  offer_rank m compare4 a l = Some (length l).
Proof.
  intros Ht Ha Hlen. apply offer_rank_last. intros p (i & Hi)%list_elem_of_lookup.
  pose proof (lookup_lt_Some _ _ _ Hi) as Hlt.
  specialize (Ht i p Hi). rewrite list_lookup_fmap in Ht.
  destruct (m !! p) as [b|]; [|done]. injection Ht as Ht.
  exists b. split; [done|]. unfold compare4. rewrite Ha, Ht.
  rewrite sub32_small; unfold int_range, INT_MIN, INT_MAX in *; lia.
Qed.

(** ** What scheduler_new_job does *)

Section new_job.
Context (s : sched) (job_number time running_time priority : Z).

Definition stamp (j : job_t) : job_t :=
  if decide (sch s = RR)
  then set_turn (Z.of_nat (length (elems (head s)))) j else j.

(** The state after the call, up to the core array, the rank of the new
    job and the memory. *)
Definition new_job_state (arr : list Z) (k : nat) (m : list job_t) : sched :=
  Sched (add32 (numOfJobs s) 1) (totalJobs s + 1) (numOfCores s)
    (Some 0%nat) arr
    (Priqueue (comparer (head s))
       (take k (elems (head s)) ++
        length (mem s) :: drop k (elems (head s))))
    (sch s) m.

(** The memory once the job is registered and the remaining times are
    refreshed. *)
Definition arrived (m2 : list job_t) : Prop :=
  Forall2 (refresh_rel time)
    (linked (mem s) ++ [fresh_job job_number time running_time priority]) m2.

Definition rank_ok (k : nat) : Prop :=
  (k ≤ length (elems (head s)))%nat ∧
  (sch s = RR → k = length (elems (head s))).

Inductive new_job_outcome : Z → sched → Prop :=
  | nj_idle (i k : nat) m2 :
      arrived m2 → rank_ok k →
      core_arr s !! i = Some 0 →
      (∀ i', (i' < i)%nat → core_arr s !! i' ≠ Some 0) →
      new_job_outcome (Z.of_nat i)
        (new_job_state (<[i:=1]> (core_arr s)) k
           (alter (λ j, stamp (run_on (Z.of_nat i) j)) (length (mem s)) m2))
  | nj_preempt (k v : nat) jv m2 :
      arrived m2 → rank_ok k →
      (∀ i', core_arr s !! i' ≠ Some 0) →
      sch s = PSJF ∨ sch s = PPRI →
      Z.of_nat k < numOfCores s →
      v ∈ elems (head s) → m2 !! v = Some jv → core_id jv ≠ -1 →
      new_job_outcome (core_id jv)
        (new_job_state (core_arr s) k
           (alter (run_on (core_id jv)) (length (mem s))
              (alter (evict time) v m2)))
  | nj_wait (k : nat) m2 :
      arrived m2 → rank_ok k →
      (∀ i', core_arr s !! i' ≠ Some 0) →
      (sch s = PSJF ∨ sch s = PPRI → numOfCores s ≤ Z.of_nat k) →
      new_job_outcome (-1)
        (new_job_state (core_arr s) k (alter stamp (length (mem s)) m2)).
End new_job.

Lemma linked_length m : length (linked m) = length m.
Proof. apply length_alter. Qed.

Lemma linked_field {B} (f : job_t → B) m :
  (∀ v j, f (set_next v j) = f j) → f <$> linked m = f <$> m.
Proof. intros Hf. by apply fmap_alter_same. Qed.

Section arrived_facts.
Context (s : sched) (job_number time running_time priority : Z).
Context (m2 : list job_t).
Context (Harr : arrived s job_number time running_time priority m2).

Lemma arrived_length : length m2 = S (length (mem s)).
Proof.
  apply Forall2_length in Harr. rewrite <-Harr, length_app, linked_length.
  simpl. lia.
Qed.

Lemma arrived_fresh :
  m2 !! length (mem s)
  = Some (fresh_job job_number time running_time priority).
Proof.
  eapply refresh_inactive; [exact Harr| |done].
  rewrite <-(linked_length (mem s)). by apply list_lookup_middle.
Qed.

Lemma arrived_field {B} (f : job_t → B) :
  (∀ v j, f (set_remaining_time v j) = f j) →
  (∀ v j, f (set_next v j) = f j) →
  f <$> m2
  = field f s ++ [f (fresh_job job_number time running_time priority)].
Proof.
  intros Hf1 Hf2. rewrite (refresh_field f _ _ _ Hf1 Harr).
  by rewrite fmap_app, linked_field.
Qed.

Lemma arrived_old p j :
  mem s !! p = Some j →
  ∃ j', m2 !! p = Some j' ∧
    ∀ (B : Type) (f : job_t → B),
      (∀ v j, f (set_remaining_time v j) = f j) →
      (∀ v j, f (set_next v j) = f j) → f j' = f j.
Proof.
  intros Hp. pose proof (lookup_lt_Some _ _ _ Hp) as Hlt.
  destruct (lookup_lt_is_Some_2 m2 p) as [j' Hj'];
    [rewrite arrived_length; lia|].
  exists j'. split; [done|]. intros B f Hf1 Hf2.
  pose proof (arrived_field f Hf1 Hf2) as Hf.
  apply (f_equal (λ l, l !! p)) in Hf.
  rewrite list_lookup_fmap, Hj', lookup_app_l in Hf
    by (by rewrite field_length).
  unfold field in Hf. rewrite list_lookup_fmap, Hp in Hf. by injection Hf.
Qed.
End arrived_facts.

Lemma write_core_in s (c : nat) v :
  (c < length (core_arr s))%nat →
  write_core s (Z.of_nat c) v = Some (with_core_arr (<[c:=v]> (core_arr s)) s).
Proof.
  intros Hc. unfold write_core. rewrite decide_True by lia.
  by rewrite Nat2Z.id.
Qed.

Lemma stamp_turn_spec s0 s a j :
  sch s0 = sch s → elems (head s0) = elems (head s) → mem s0 !! a = Some j →
  stamp_turn s0 a = Some (with_mem (alter (stamp s) a (mem s0)) s0).
Proof.
  intros Hsch Hel Ha. unfold stamp_turn, stamp, priqueue_size.
  rewrite Hsch, Hel. case_decide.
  - rewrite Ha. simpl. by erewrite store_alter.
  - by rewrite list_alter_id, with_mem_id.
Qed.

Lemma offer_exec s0 a :
  (∀ p, p ∈ elems (head s0) → (p < length (mem s0))%nat) →
  (a < length (mem s0))%nat →
  ∃ k,
    offer s0 a
    = Some (k, with_head
                 (Priqueue (comparer (head s0))
                    (take k (elems (head s0)) ++ a :: drop k (elems (head s0))))
                 s0) ∧
    (k ≤ length (elems (head s0)))%nat ∧
    (comparer (head s0) = compare4 →
     turns_wf (elems (head s0)) (field turn s0) →
     field turn s0 !! a = Some (Z.of_nat (length (elems (head s0)))) →
     Z.of_nat (length (elems (head s0))) ≤ INT_MAX →
     k = length (elems (head s0))).
Proof.
  intros Hv Ha. unfold offer, priqueue_offer.
  destruct (lookup_lt_is_Some_2 (mem s0) a Ha) as [j Hj]. rewrite Hj. simpl.
  destruct (offer_rank_total (mem s0) (comparer (head s0)) j _ Hv) as [k Hk].
  rewrite Hk. simpl. exists k. split_and!; [done|by eapply offer_rank_le|].
  intros Hcmp Ht Hturn Hlen. rewrite Hcmp in Hk.
  rewrite (field_lookup turn _ _ _ Hj) in Hturn. injection Hturn as Hturn.
  rewrite offer_rank_rr in Hk by done. by injection Hk.
Qed.

Lemma rank_ok_intro s job_number time running_time priority m2 k g :
  wf s → arrived s job_number time running_time priority m2 →
  (k ≤ length (elems (head s)))%nat →
  (comparer (head s) = compare4 →
   turns_wf (elems (head s)) (turn <$> alter g (length (mem s)) m2) →
   (turn <$> alter g (length (mem s)) m2) !! length (mem s)
   = Some (Z.of_nat (length (elems (head s)))) →
   Z.of_nat (length (elems (head s))) ≤ INT_MAX →
   k = length (elems (head s))) →
  (sch s = RR →
   turn (g (fresh_job job_number time running_time priority))
   = Z.of_nat (length (elems (head s)))) →
  rank_ok s k.
Proof.
  intros Hwf Hm2 Hk Hrr Hturn. split; [done|]. intros Hsch.
  apply Hrr.
  - by apply (wf_cmp4 s Hwf).
  - intros i p Hi. rewrite list_lookup_fmap.
    assert (p < length (mem s))%nat as Hp.
    { apply (wf_queue_valid s Hwf), list_elem_of_lookup. eauto. }
    rewrite list_lookup_alter_ne by lia. rewrite <-list_lookup_fmap.
    rewrite (arrived_field _ _ _ _ _ _ Hm2 turn) by done.
    rewrite lookup_app_l by (by rewrite field_length).
    by apply (wf_turn s Hwf Hsch).
  - rewrite list_lookup_fmap, list_lookup_alter_eq.
    rewrite (arrived_fresh _ _ _ _ _ _ Hm2). simpl. by rewrite Hturn.
  - pose proof (wf_queue_length s Hwf). pose proof (wf_mem_bound s Hwf). lia.
Qed.

Lemma write_core_same s c v :
  0 ≤ c → core_arr s !! Z.to_nat c = Some v → write_core s c v = Some s.
Proof.
  intros Hc Hv. unfold write_core.
  pose proof (lookup_lt_Some _ _ _ Hv). rewrite decide_True by lia.
  rewrite list_insert_id by done. by destruct s.
Qed.

Lemma busy_has_active nc arr q cids :
  cores_wf nc arr q cids → (∀ i, arr !! i ≠ Some 0) → 0 < nc →
  ∃ p c, cids !! p = Some c ∧ c ≠ -1.
Proof.
  intros Hcw Hall Hnc.
  assert (filter (λ c, c ≠ 0) arr = arr) as Hf.
  { clear Hcw Hnc. induction arr as [|c arr IH]; [done|].
    rewrite filter_cons_True.
    - f_equal. apply IH. intros i. apply (Hall (S i)).
    - intros ->. by apply (Hall 0%nat). }
  pose proof (cw_count _ _ _ _ Hcw) as Hcnt. rewrite Hf in Hcnt.
  pose proof (cw_len _ _ _ _ Hcw) as Hlen.
  destruct (filter (λ c, c ≠ -1) cids) as [|c l] eqn:Hfc; [simpl in Hcnt; lia|].
  assert (c ∈ filter (λ c, c ≠ -1) cids) as Hc by (rewrite Hfc; by left).
  apply list_elem_of_filter in Hc as [Hc1 (p & Hp)%list_elem_of_lookup]. eauto.
Qed.

Lemma new_job_exec s job_number time running_time priority :
  wf s → arrival_ok s job_number →
  ∃ r s',
    scheduler_new_job s job_number time running_time priority = Some (r, s') ∧
    new_job_outcome s job_number time running_time priority r s'.
Proof.
  intros Hwf Hok. unfold scheduler_new_job. cbv zeta.
  change (append_job _ job_number)
    with (append_job (with_totalJobs (add32 (totalJobs s) 1)
                        (with_numOfJobs (add32 (numOfJobs s) 1) s))
            job_number).
  rewrite (append_job_spec s job_number Hwf Hok). cbn -[registered].
  rewrite registered_store.
  set (fresh := fresh_job job_number time running_time priority).
  set (n := length (mem s)).
  change (length (elems (head (registered s job_uninit))))
    with (length (elems (head s))).
  destruct (update_active_total (length (elems (head s))) 0
              time (registered s fresh)) as [s2 Hs2].
  { simpl. intros p Hp%(wf_queue_valid s Hwf).
    rewrite length_app, linked_length. lia. }
  { simpl. lia. }
  rewrite Hs2. cbn -[registered].
  apply update_active_spec in Hs2 as (m2 & -> & Hm2). cbn.
  change (arrived s job_number time running_time priority m2) in Hm2.
  assert (m2 !! n = Some fresh) as Hfresh by by eapply arrived_fresh.
  assert (length m2 = S n) as Hlen2 by by eapply arrived_length.
  pose proof (wf_cores s Hwf) as Hcw.
  pose proof (cw_len _ _ _ _ Hcw) as Hnc.
  assert (∀ p, p ∈ elems (head s) → (p < length m2)%nat) as Hv2.
  { intros p Hp%(wf_queue_valid s Hwf). fold n in Hp. lia. }
  destruct (first_idle_spec (Z.to_nat (numOfCores s)) 0 (core_arr s))
    as [(i & -> & Hr & Hi & Hlow)|[-> Hall]]; [lia|..]; cbn.
  - rewrite Hfresh. cbn.
    rewrite (store_alter _ n fresh (run_on (Z.of_nat i))) by done.
    erewrite (stamp_turn_spec _ s n); [|done|done|]; cycle 1.
    { cbn. by rewrite list_lookup_alter_eq, Hfresh. }
    cbn. rewrite list_alter_alter_eq.
    match goal with |- context [offer ?s0 n] =>
      destruct (offer_exec s0 n) as (k & -> & Hk & Hrr) end.
    { cbn. intros p Hp. rewrite length_alter. auto. }
    { cbn. rewrite length_alter. lia. }
    cbn. rewrite write_core_in by (cbn; lia). cbn.
    eexists _, _. split; [done|]. cbn in Hk, Hrr.
    apply (nj_idle s job_number time running_time priority i k m2);
      [done| |done|intros; apply Hlow; lia].
    eapply (rank_ok_intro _ _ _ _ _ _ _ _ Hwf Hm2 Hk Hrr).
    intros Hsch. unfold stamp. cbn. by rewrite decide_True.
  - assert (∀ i', core_arr s !! i' ≠ Some 0) as Hbusy.
    { intros i' Hi'. pose proof (lookup_lt_Some _ _ _ Hi'). apply (Hall i'); [lia|done]. }
    destruct (decide (sch s = PSJF ∨ sch s = PPRI)) as [Hpre|Hnpre].
    + assert (sch s ≠ RR) as Hnrr by (intros Heq; rewrite Heq in Hpre; by destruct Hpre).
      assert (∀ m : list job_t, alter (stamp s) n m = m) as Hstamp.
      { intros m. apply list_alter_id. intros j. unfold stamp. by rewrite decide_False. }
      match goal with |- context [offer ?s0 n] =>
        destruct (offer_exec s0 n) as (k & -> & Hk & Hrr) end.
      { cbn. auto. }
      { cbn. lia. }
      cbn in Hk, Hrr. cbn.
      assert (rank_ok s k) as Hrank by (split; [done|by intros ?]).
      destruct (decide (Z.of_nat k < numOfCores s)) as [Hlt|Hge]; cycle 1.
      { eexists _, _. split; [done|].
        rewrite <-(Hstamp m2).
        apply (nj_wait s job_number time running_time priority k m2);
          [done..|intros; lia]. }
      match goal with |- context [last_active ?s0 ?n0] =>
        destruct (last_active_spec s0 n0)
          as [(iv & v & jv & -> & _ & Hiv & Hjv & Hcv)|[-> Hnone]] end.
      { done. }
      { cbn. intros p Hp. rewrite insert_at_perm in Hp.
        apply elem_of_cons in Hp as [->|Hp]; [lia|auto]. }
      * cbn in Hiv, Hjv. cbn.
        assert (v ∈ elems (head s)) as Hvl.
        { apply list_elem_of_lookup_2 in Hiv. rewrite insert_at_perm in Hiv.
          apply elem_of_cons in Hiv as [->|?]; [|done].
          rewrite Hfresh in Hjv. injection Hjv as <-. done. }
        destruct (lookup_lt_is_Some_2 (mem s) v) as [jv0 Hjv0];
          [by apply (wf_queue_valid s Hwf)|].
        destruct (arrived_old _ _ _ _ _ _ Hm2 v jv0 Hjv0) as (jv' & Hjv' & Hsame).
        assert (jv' = jv) as -> by congruence.
        pose proof (field_lookup core_id s v jv0 Hjv0) as Hcid.
        rewrite <-(Hsame _ core_id) in Hcid by done.
        destruct (cw_assign _ _ _ _ Hcw v _ Hcid Hcv) as (_ & Hc0 & Hc1).
        assert (v ≠ n) as Hvn.
        { intros ->. rewrite Hfresh in Hjv. injection Hjv as <-. done. }
        unfold preempt. cbn. rewrite Hjv. cbn.
        rewrite write_core_same by done. cbn.
        rewrite list_lookup_insert_ne, Hfresh by done. cbn.
        eexists _, _. split; [done|].
        rewrite (store_alter _ v jv (evict time)) by done.
        rewrite (store_alter _ n fresh (run_on (core_id jv))); cycle 1.
        { cbn. by rewrite list_lookup_alter_ne. }
        by apply (nj_preempt s job_number time running_time priority k v jv m2).
      * exfalso.
        destruct (busy_has_active _ _ _ _ Hcw Hbusy) as (p & c & Hp & Hc);
          [lia|].
        destruct (cw_assign _ _ _ _ Hcw p c Hp Hc) as (Hpl & _).
        apply field_lookup_inv in Hp as (j & Hj & ->).
        destruct (arrived_old _ _ _ _ _ _ Hm2 p j Hj) as (j' & Hj' & Hsame).
        assert (p ∈ take k (elems (head s)) ++ n :: drop k (elems (head s)))
          as (ip & Hip)%list_elem_of_lookup.
        { rewrite insert_at_perm. by right. }
        apply Hc. rewrite <-(Hsame _ core_id) by done.
        eapply (Hnone ip p j'); [|done..].
        by eapply lookup_lt_Some.
    + erewrite (stamp_turn_spec _ s n); [|done|done|exact Hfresh]. cbn.
      match goal with |- context [offer ?s0 n] =>
        destruct (offer_exec s0 n) as (k & -> & Hk & Hrr) end.
      { cbn. intros p Hp. rewrite length_alter. auto. }
      { cbn. rewrite length_alter. lia. }
      cbn in Hk, Hrr. cbn. eexists _, _. split; [done|].
      apply (nj_wait s job_number time running_time priority k m2);
        [done| |done..].
      eapply (rank_ok_intro _ _ _ _ _ _ _ _ Hwf Hm2 Hk Hrr).
      intros Hsch. unfold stamp. cbn. by rewrite decide_True.
Qed.

(** ** scheduler_new_job keeps the state well formed *)

Lemma list_wf_append total jp nexts ids job_number :
  list_wf total jp nexts ids →
  0 ≤ job_number < INT_MAX → (ids = [] → job_number = 0) →
  (∀ a, a ∈ ids → a < job_number) →
  list_wf (total + 1) (Some 0%nat)
    (alter (λ _, Some (length ids)) (pred (length ids)) nexts ++ [None])
    (ids ++ [job_number]).
Proof.
  intros [Htot Hptr Hlen Hnext Hlo Hinc] Hr Hnil Hlt. split.
  - rewrite length_app. simpl. lia.
  - rewrite decide_False; [done|]. by destruct ids.
  - rewrite !length_app, length_alter. simpl. lia.
  - intros k v. rewrite length_app. simpl.
    intros [Hk|[Hk1 Hk2]]%lookup_app_Some.
    + pose proof (lookup_lt_Some _ _ _ Hk) as Hklt.
      rewrite length_alter in Hklt. rewrite list_lookup_alter in Hk.
      case_decide as Heq.
      * destruct (nexts !! pred (length ids)); [|done]. injection Hk as <-.
        rewrite decide_True by lia. f_equal. lia.
      * rewrite (Hnext k v Hk). repeat case_decide; (done || lia).
    + rewrite length_alter in Hk1, Hk2.
      apply list_lookup_singleton_Some in Hk2 as [? <-].
      rewrite decide_False; [done|lia].
  - intros k a [Hk|[Hk1 Hk2]]%lookup_app_Some; [eauto|].
    apply list_lookup_singleton_Some in Hk2 as [? <-].
    split; [|lia].
    destruct ids as [|a0 ids'] eqn:Hids using rev_ind; [simpl in *; lia|].
    assert (a0 < job_number).
    { apply Hlt, elem_of_app. right. by left. }
    assert (Z.of_nat (length ids') ≤ a0).
    { apply (Hlo (length ids')). by apply list_lookup_middle. }
    rewrite length_app in *. simpl in *. lia.
  - intros k k' a b [Hk|[Hk1 Hk2]]%lookup_app_Some
      [Hk'|[Hk1' Hk2']]%lookup_app_Some Hkk'.
    + eauto.
    + apply list_lookup_singleton_Some in Hk2' as [? <-].
      apply Hlt, list_elem_of_lookup. eauto.
    + apply lookup_lt_Some in Hk'. lia.
    + apply list_lookup_singleton_Some in Hk2 as [? <-].
      apply list_lookup_singleton_Some in Hk2' as [? <-]. lia.
Qed.

Lemma evict_core_id time j : core_id (evict time j) = -1.
Proof. unfold evict. cbn. by case_decide. Qed.

Lemma turns_wf_snoc (l : list ptr) (t t' : list Z) n :
  turns_wf l t →
  (∀ p, p ∈ l → t' !! p = t !! p) →
  t' !! n = Some (Z.of_nat (length l)) →
  turns_wf (l ++ [n]) t'.
Proof.
  intros Ht Hsame Hn i p [Hi|[Hi1 Hi2]]%lookup_app_Some.
  - rewrite Hsame by (apply list_elem_of_lookup; eauto). by apply Ht.
  - apply list_lookup_singleton_Some in Hi2 as [? <-].
    rewrite Hn. do 2 f_equal. lia.
Qed.

Lemma insert_at_end {A} (l : list A) x :
  take (length l) l ++ x :: drop (length l) l = l ++ [x].
Proof. by rewrite take_ge, drop_ge by lia. Qed.

Ltac solve_field :=
  intros; unfold stamp, run_on, evict, resume, retire, suspend; cbn;
  repeat case_decide; repeat case_match; reflexivity.

Section new_job_wf.
Context (s : sched) (job_number time running_time priority : Z).
Context (Hwf : wf s) (Hok : arrival_ok s job_number).
Context (m2 : list job_t).
Context (Hm2 : arrived s job_number time running_time priority m2).

Lemma nj_list_wf arr k m' :
  id <$> m' = id <$> m2 → next <$> m' = next <$> m2 →
  list_wf (totalJobs s + 1) (Some 0%nat)
    (field next (new_job_state s arr k m'))
    (field id (new_job_state s arr k m')).
Proof.
  intros Hid Hnext. unfold field. cbn. rewrite Hid, Hnext.
  rewrite (arrived_field _ _ _ _ _ _ Hm2 id) by done.
  rewrite (refresh_field next _ _ _ (λ _ _, eq_refl) Hm2).
  rewrite fmap_app. unfold linked.
  rewrite (list_fmap_alter next _ (λ _, Some (length (mem s))))
    by (by apply Forall_forall).
  rewrite <-(field_length id s). destruct Hok as (? & Hnil & ?).
  eapply list_wf_append; [by apply (wf_list s Hwf)|done| |done].
  intros Hids. apply Hnil. unfold field in Hids.
  by apply fmap_nil_inv in Hids.
Qed.

Lemma nj_cids_registered :
  cores_wf (numOfCores s) (core_arr s) (elems (head s)) (core_id <$> m2).
Proof.
  rewrite (arrived_field _ _ _ _ _ _ Hm2 core_id) by done. cbn.
  apply cw_register, (wf_cores s Hwf).
Qed.

Lemma nj_not_queued : length (mem s) ∉ elems (head s).
Proof. intros Hn%(wf_queue_valid s Hwf). lia. Qed.

Lemma nj_turns k m' :
  rank_ok s k → sch s = RR →
  (∀ p, p ≠ length (mem s) → (turn <$> m') !! p = (turn <$> m2) !! p) →
  (turn <$> m') !! length (mem s)
  = Some (Z.of_nat (length (elems (head s)))) →
  turns_wf (take k (elems (head s)) ++
            length (mem s) :: drop k (elems (head s))) (turn <$> m').
Proof.
  intros [_ Hk] Hsch Hold Hnew. rewrite (Hk Hsch), insert_at_end.
  apply (turns_wf_snoc _ (field turn s)); [by apply (wf_turn s Hwf)| |done].
  intros p Hp. pose proof (wf_queue_valid s Hwf p Hp).
  rewrite Hold by lia.
  rewrite (arrived_field _ _ _ _ _ _ Hm2 turn) by done.
  by rewrite lookup_app_l by (by rewrite field_length).
Qed.
End new_job_wf.

Lemma new_job_wf s job_number time running_time priority r s' :
  wf s → arrival_ok s job_number →
  new_job_outcome s job_number time running_time priority r s' → wf s'.
Proof.
  intros Hwf Hok Hout.
  pose proof (wf_cores s Hwf) as Hcw.
  destruct Hout as [i k m2 Hm2 Hrank Hi Hlow
                   |k v jv m2 Hm2 Hrank Hbusy Hpre Hlt Hv Hjv Hcv
                   |k m2 Hm2 Hrank Hbusy Hge].
  - pose proof (arrived_length _ _ _ _ _ _ Hm2) as Hlen2.
    pose proof (nj_cids_registered _ _ _ _ _ Hwf _ Hm2) as Hcw2.
    split.
    + eapply nj_list_wf; [done..| |]; by apply fmap_alter_same; solve_field.
    + unfold field. cbn.
      rewrite (fmap_alter_set core_id _ (Z.of_nat i)) by solve_field.
      rewrite <-(Nat2Z.id i) at 1. apply cw_dispatch; [|..|lia|by rewrite Nat2Z.id].
      * eapply cw_enqueue; [done| |by apply nj_not_queued|apply insert_at_perm].
        rewrite length_fmap. lia.
      * rewrite insert_at_perm. by left.
      * rewrite (arrived_field _ _ _ _ _ _ Hm2 core_id) by done.
        rewrite <-(field_length core_id s). by apply list_lookup_middle.
    + cbn. apply (wf_cmp4 s Hwf).
    + cbn. intros Hsch. eapply nj_turns; [done..| |].
      * intros p Hp. by rewrite !list_lookup_fmap, list_lookup_alter_ne.
      * rewrite list_lookup_fmap, list_lookup_alter_eq.
        rewrite (arrived_fresh _ _ _ _ _ _ Hm2). unfold stamp. cbn.
        by rewrite decide_True.
  - pose proof (arrived_length _ _ _ _ _ _ Hm2) as Hlen2.
    pose proof (nj_cids_registered _ _ _ _ _ Hwf _ Hm2) as Hcw2.
    assert ((core_id <$> m2) !! v = Some (core_id jv)) as Hcid
        by (by rewrite list_lookup_fmap, Hjv).
    destruct (cw_assign _ _ _ _ Hcw2 v _ Hcid Hcv) as (_ & Hc0 & Hc1).
    assert (v ≠ length (mem s)) as Hvn.
    { intros ->. by apply (nj_not_queued s Hwf). }
    split.
    + eapply nj_list_wf; [done..| |].
      all: rewrite fmap_alter_same by solve_field.
      all: by apply fmap_alter_same; solve_field.
    + unfold field. cbn.
      rewrite (fmap_alter_set core_id _ (core_id jv)) by solve_field.
      rewrite (fmap_alter_set core_id _ (-1)) by apply evict_core_id.
      assert (<[Z.to_nat (core_id jv):=1]>
                (<[Z.to_nat (core_id jv):=0]> (core_arr s)) = core_arr s)
        as Harr by (rewrite list_insert_insert_eq; by apply list_insert_id).
      rewrite <-Harr at 1.
      apply cw_dispatch; [|..|done|].
      * eapply cw_enqueue; [by eapply cw_release| |by apply nj_not_queued
                           |apply insert_at_perm].
        rewrite length_insert, length_fmap. lia.
      * rewrite insert_at_perm. by left.
      * rewrite list_lookup_insert_ne by done.
        rewrite (arrived_field _ _ _ _ _ _ Hm2 core_id) by done.
        rewrite <-(field_length core_id s). by apply list_lookup_middle.
      * apply list_lookup_insert_eq. by eapply lookup_lt_Some.
    + cbn. apply (wf_cmp4 s Hwf).
    + cbn. intros Hsch. rewrite Hsch in Hpre. by destruct Hpre.
  - pose proof (arrived_length _ _ _ _ _ _ Hm2) as Hlen2.
    pose proof (nj_cids_registered _ _ _ _ _ Hwf _ Hm2) as Hcw2.
    split.
    + eapply nj_list_wf; [done..| |]; by apply fmap_alter_same; solve_field.
    + unfold field. cbn. rewrite fmap_alter_same by solve_field.
      eapply cw_enqueue; [done| |by apply nj_not_queued|apply insert_at_perm].
      rewrite length_fmap. lia.
    + cbn. apply (wf_cmp4 s Hwf).
    + cbn. intros Hsch. eapply nj_turns; [done..| |].
      * intros p Hp. by rewrite !list_lookup_fmap, list_lookup_alter_ne.
      * rewrite list_lookup_fmap, list_lookup_alter_eq.
        rewrite (arrived_fresh _ _ _ _ _ _ Hm2). unfold stamp. cbn.
        by rewrite decide_True.
Qed.

(** ** The loops of scheduler_job_finished and scheduler_quantum_expired *)

(** Past the finished job the scan finds nothing. *)
Lemma finish_scan_skip fuel i s core job_number time idle :
  (∀ k p, (i ≤ k)%nat → elems (head s) !! k = Some p →
     ∃ j, mem s !! p = Some j ∧ id j ≠ job_number) →
  (length (elems (head s)) ≤ fuel + i)%nat →
  finish_scan fuel i s core job_number time idle = Some (idle, s).
Proof.
  revert i. induction fuel as [|fuel IH]; intros i Hne Hlen; simpl;
    unfold priqueue_size, priqueue_at.
  - rewrite decide_False by lia. done.
  - case_decide as Hi; [|done].
    destruct (lookup_lt_is_Some_2 (elems (head s)) i) as [p Hp]; [lia|].
    rewrite Hp. simpl. destruct (Hne i p) as (j & Hj & Hid); [lia|done|].
    rewrite Hj. simpl. rewrite decide_False by done.
    apply IH; [|lia]. intros k p' Hk. apply Hne. lia.
Qed.

Lemma finish_scan_found fuel i s core job_number time idle k p j :
  elems (head s) !! k = Some p → mem s !! p = Some j → id j = job_number →
  (∀ k' p', k' ≠ k → elems (head s) !! k' = Some p' →
     p' ≠ p ∧ ∃ j', mem s !! p' = Some j' ∧ id j' ≠ job_number) →
  (i ≤ k)%nat → (length (elems (head s)) ≤ fuel + i)%nat →
  finish_scan fuel i s core job_number time idle
  = Some (Some core,
          with_head (Priqueue (comparer (head s)) (delete k (elems (head s))))
            (with_mem
               (alter (retire (bool_decide (sch s = RR)) time) p (mem s)) s)).
Proof.
  intros Hk Hj Hid Hothers. revert i idle.
  induction fuel as [|fuel IH]; intros i idle Hi Hlen; simpl;
    unfold priqueue_size, priqueue_at.
  { apply lookup_lt_Some in Hk. lia. }
  pose proof (lookup_lt_Some _ _ _ Hk) as Hklt.
  rewrite decide_True by lia.
  destruct (decide (i = k)) as [->|Hik].
  - rewrite Hk. simpl. rewrite Hj. simpl. rewrite decide_True by done.
    rewrite (store_alter s p j (retire (bool_decide (sch s = RR)) time) Hj).
    apply finish_scan_skip; cbn.
    + intros k' p' Hk' Hp'. rewrite list_lookup_delete_ge in Hp' by lia.
      destruct (Hothers (S k') p') as (Hne & j' & Hj' & Hid'); [lia|done|].
      exists j'. by rewrite list_lookup_alter_ne.
    + rewrite length_delete by eauto. lia.
  - destruct (lookup_lt_is_Some_2 (elems (head s)) i) as [p' Hp']; [lia|].
    rewrite Hp'. simpl.
    destruct (Hothers i p') as (Hne & j' & Hj' & Hid'); [done..|].
    rewrite Hj'. simpl. rewrite decide_False by done. apply IH; lia.
Qed.

(** The renumbering changes turns only. *)
Definition turn_rel (j j' : job_t) : Prop := j' = set_turn (turn j') j.

Lemma turn_rel_field {B} (f : job_t → B) m m' :
  (∀ v j, f (set_turn v j) = f j) → Forall2 turn_rel m m' → f <$> m' = f <$> m.
Proof.
  intros Hf Hm. induction Hm as [|j j' m m' Hj _ IH]; [done|].
  rewrite !fmap_cons, IH. f_equal. rewrite Hj. apply Hf.
Qed.

Lemma turn_rel_refl m : Forall2 turn_rel m m.
Proof.
  apply Forall2_same_length_lookup_2; [done|].
  intros k x y Hx Hy. assert (x = y) as -> by congruence. by destruct y.
Qed.

Lemma renumber_spec fuel i s :
  NoDup (elems (head s)) →
  (∀ p, p ∈ elems (head s) → (p < length (mem s))%nat) →
  (length (elems (head s)) ≤ fuel + i)%nat →
  ∃ m', renumber fuel i s = Some (with_mem m' s) ∧
    Forall2 turn_rel (mem s) m' ∧
    (∀ k p, elems (head s) !! k = Some p → (i ≤ k)%nat →
       (turn <$> m') !! p = Some (Z.of_nat k)) ∧
    (∀ k p, elems (head s) !! k = Some p → (k < i)%nat →
       (turn <$> m') !! p = (turn <$> mem s) !! p) ∧
    (∀ p, p ∉ elems (head s) → m' !! p = mem s !! p).
Proof.
  intros Hnd. revert i s Hnd.
  induction fuel as [|fuel IH]; intros i s Hnd Hv Hlen; simpl;
    unfold priqueue_size, priqueue_at.
  - rewrite decide_False by lia. exists (mem s).
    rewrite with_mem_id. split_and!; [done|apply turn_rel_refl|..|done|done].
    intros k p Hk%lookup_lt_Some ?. lia.
  - case_decide as Hi; cycle 1.
    { exists (mem s). rewrite with_mem_id.
      split_and!; [done|apply turn_rel_refl|..|done|done].
      intros k p Hk%lookup_lt_Some ?. lia. }
    destruct (lookup_lt_is_Some_2 (elems (head s)) i) as [a Ha]; [lia|].
    rewrite Ha. simpl.
    destruct (lookup_lt_is_Some_2 (mem s) a) as [j Hj].
    { apply Hv, list_elem_of_lookup. eauto. }
    rewrite Hj. simpl.
    rewrite (store_alter s a j (set_turn (Z.of_nat i)) Hj).
    destruct (IH (S i) (with_mem (alter (set_turn (Z.of_nat i)) a (mem s)) s))
      as (m' & -> & Hrel & Hge & Hlt & Hout); [done| |simpl; lia|].
    { cbn. intros p Hp. rewrite length_alter. auto. }
    cbn in *. exists m'. split_and!; [done|..].
    + apply Forall2_same_length_lookup_2.
      { apply Forall2_length in Hrel. by rewrite length_alter in Hrel. }
      intros p x y Hx Hy.
      destruct (Forall2_lookup_r _ _ _ _ _ Hrel Hy) as (x' & Hx' & Hxy).
      rewrite list_lookup_alter in Hx'. case_decide; subst.
      * rewrite Hx in Hx'. injection Hx' as <-. by rewrite Hxy.
      * congruence.
    + intros k p Hk Hik. destruct (decide (k = i)) as [->|].
      * assert (p = a) as -> by congruence.
        rewrite (Hlt i a) by (done || lia).
        by rewrite list_lookup_fmap, list_lookup_alter_eq, Hj.
      * apply Hge; [done|lia].
    + intros k p Hk Hki. rewrite (Hlt k p) by (done || lia).
      rewrite !list_lookup_fmap, list_lookup_alter_ne; [done|].
      intros ->. pose proof (NoDup_lookup _ _ _ _ Hnd Ha Hk). lia.
    + intros p Hp. rewrite (Hout p Hp). apply list_lookup_alter_ne.
      intros ->. apply Hp, list_elem_of_lookup. eauto.
Qed.

Lemma next_inactive_spec fuel i s a :
  elems (head s) !! i = Some a →
  (∀ p, p ∈ elems (head s) → (p < length (mem s))%nat) →
  Z.of_nat (length (elems (head s))) ≤ INT_MAX →
  (length (elems (head s)) ≤ fuel + S i)%nat →
  ∃ k p j, next_inactive fuel i s a = Some p ∧
    elems (head s) !! k = Some p ∧ mem s !! p = Some j ∧ (i ≤ k)%nat ∧
    (∀ k' p' j', (i ≤ k' < k)%nat → elems (head s) !! k' = Some p' →
       mem s !! p' = Some j' → core_id j' ≠ -1) ∧
    (core_id j ≠ -1 → S k = length (elems (head s))).
Proof.
  intros Ha Hv Hmax. revert i a Ha.
  induction fuel as [|fuel IH]; intros i a Ha Hlen;
    pose proof (lookup_lt_Some _ _ _ Ha) as Hi;
    (destruct (lookup_lt_is_Some_2 (mem s) a) as [j Hj];
       [apply Hv, list_elem_of_lookup; eauto|]);
    simpl; unfold priqueue_size, priqueue_at;
    (rewrite sub32_small by (unfold int_range, INT_MIN, INT_MAX in *; lia)).
  - rewrite decide_False by lia. exists i, a, j.
    split_and!; [done..|intros; lia|intros; lia].
  - case_decide as Hlast; cycle 1.
    { exists i, a, j. split_and!; [done..|intros; lia|intros; lia]. }
    rewrite Hj. simpl. case_decide as Hc; cycle 1.
    { exists i, a, j. split_and!; [done..|intros; lia|done]. }
    destruct (lookup_lt_is_Some_2 (elems (head s)) (S i)) as [a' Ha']; [lia|].
    rewrite Ha'. simpl.
    destruct (IH (S i) a' Ha') as (k & p & jp & -> & Hk & Hp & Hik & Hact & Hl);
      [lia|].
    exists k, p, jp. split_and!; [done..|lia| |done].
    intros k' p' j' Hk' Hp' Hj'. destruct (decide (k' = i)) as [->|].
    + congruence.
    + eapply Hact; [|done..]. lia.
Qed.

(** What the dispatch at the end of a handler does: nothing when every
    queued job holds a core, else the first waiting job gets the core. *)
Inductive dispatch_outcome (s : sched) (c core time : Z) : Z → sched → Prop :=
  | dn_none :
      (∀ p j, p ∈ elems (head s) → mem s !! p = Some j → core_id j ≠ -1) →
      dispatch_outcome s c core time (-1) s
  | dn_some k p j :
      elems (head s) !! k = Some p → mem s !! p = Some j → core_id j = -1 →
      (∀ k' p' j', (k' < k)%nat → elems (head s) !! k' = Some p' →
         mem s !! p' = Some j' → core_id j' ≠ -1) →
      dispatch_outcome s c core time (id j)
        (with_core_arr (<[Z.to_nat core:=1]> (core_arr s))
           (with_mem (alter (λ j, set_core_id c (resume time j)) p (mem s))
              s)).

Lemma dispatch_next_exec s c core time :
  (∀ p, p ∈ elems (head s) → (p < length (mem s))%nat) →
  Z.of_nat (length (elems (head s))) ≤ INT_MAX →
  0 ≤ core < Z.of_nat (length (core_arr s)) →
  ∃ r s', dispatch_next s (Some c) core time = Some (r, s') ∧
          dispatch_outcome s c core time r s'.
Proof.
  intros Hv Hmax Hcore. unfold dispatch_next, priqueue_peek.
  destruct (elems (head s) !! 0%nat) as [a0|] eqn:Ha0; cycle 1.
  { eexists _, _. split; [done|]. apply dn_none. intros p j Hp.
    apply lookup_ge_None in Ha0. destruct (elems (head s)); [|simpl in *; lia].
    by apply elem_of_nil in Hp. }
  destruct (next_inactive_spec (length (elems (head s))) 0 s a0)
    as (k & p & j & -> & Hk & Hp & _ & Hact & Hlast); [done..|lia|].
  cbn. rewrite Hp. cbn. case_decide as Hc.
  - eexists _, _. split; [done|]. apply dn_none.
    intros p' j' (k' & Hk')%list_elem_of_lookup Hj'.
    pose proof (lookup_lt_Some _ _ _ Hk'). specialize (Hlast Hc).
    destruct (decide (k' = k)) as [->|]; [congruence|].
    eapply (Hact k'); [lia|done..].
  - unfold write_core. cbn. rewrite decide_True by done. cbn.
    eexists _, _. split; [done|].
    rewrite (store_alter s p j (λ j, set_core_id c (resume time j)) Hp).
    change (id (set_core_id c (resume time j))) with (id (resume time j)).
    replace (id (resume time j)) with (id j) by solve_field.
    apply (dn_some s c core time k p j); [done..| |].
    + destruct (decide (core_id j = -1)); [done|]. by destruct Hc.
    + intros k' p' j' Hk'. eapply Hact. lia.
Qed.

(** ** What scheduler_job_finished does *)

Lemma wf_id_inj s p p' a :
  wf s → field id s !! p = Some a → field id s !! p' = Some a → p = p'.
Proof.
  intros Hwf Hp Hp'. pose proof (lw_id_inc _ _ _ _ (wf_list s Hwf)) as Hinc.
  destruct (Nat.lt_trichotomy p p') as [Hlt|[->|Hlt]]; [|done|].
  - specialize (Hinc _ _ _ _ Hp Hp' Hlt). lia.
  - specialize (Hinc _ _ _ _ Hp' Hp Hlt). lia.
Qed.

(** The state once the finished job is out of the queue and its core is
    marked idle, before the next job is chosen. *)
Definition finished_state (s : sched) (core : Z) (k : nat) (m3 : list job_t)
  : sched :=
  Sched (sub32 (numOfJobs s) 1) (totalJobs s) (numOfCores s) (job_ptr s)
    (<[Z.to_nat core:=0]> (core_arr s))
    (Priqueue (comparer (head s)) (delete k (elems (head s))))
    (sch s) m3.

Inductive finish_outcome (s : sched) (core job_number time : Z)
    : Z → sched → Prop :=
  | fin_intro k p j m3 r s' :
      elems (head s) !! k = Some p → mem s !! p = Some j →
      id j = job_number → core_id j = core → core ≠ -1 →
      Forall2 turn_rel
        (alter (retire (bool_decide (sch s = RR)) time) p (mem s)) m3 →
      (sch s ≠ RR →
       m3 = alter (retire (bool_decide (sch s = RR)) time) p (mem s)) →
      (sch s = RR → turns_wf (delete k (elems (head s))) (turn <$> m3)) →
      dispatch_outcome (finished_state s core k m3) core core time r s' →
      finish_outcome s core job_number time r s'.

Lemma NoDup_delete {A} (l : list A) k : NoDup l → NoDup (delete k l).
Proof. intros Hnd. exact (sublist_NoDup _ _ Hnd (sublist_delete l k)). Qed.

Lemma delete_perm {A} (l : list A) k x :
  l !! k = Some x → l ≡ₚ x :: delete k l.
Proof.
  intros Hk. rewrite delete_take_drop, Permutation_middle.
  by rewrite take_drop_middle.
Qed.

Lemma job_finished_exec s core job_number time :
  wf s → on_core s job_number core →
  ∃ r s', scheduler_job_finished s core job_number time = Some (r, s') ∧
          finish_outcome s core job_number time r s'.
Proof.
  intros Hwf (p & (k & Hk)%list_elem_of_lookup & Hid & Hcid & Hcore).
  pose proof (wf_cores s Hwf) as Hcw.
  destruct (cw_assign _ _ _ _ Hcw p core Hcid Hcore) as (_ & Hc0 & Hc1).
  pose proof (lookup_lt_Some _ _ _ Hc1) as Hclt.
  apply field_lookup_inv in Hid as (j & Hj & Hid).
  rewrite (field_lookup core_id s p j Hj) in Hcid. injection Hcid as Hcid.
  unfold scheduler_job_finished. cbv zeta.
  unfold write_core at 1. cbn. rewrite decide_True by lia. cbn.
  erewrite (finish_scan_found _ 0 _ core job_number time None k p j);
    [|done|done|done| |lia|cbn; lia]; cycle 1.
  { cbn. intros k' p' Hkk' Hp'.
    assert (p' ≠ p) as Hpp'.
    { intros ->. pose proof (NoDup_lookup _ _ _ _ (cw_nodup _ _ _ _ Hcw) Hk Hp').
      done. }
    split; [done|]. destruct (wf_queue_lookup s Hwf k' p' Hp') as [j' Hj'].
    exists j'. split; [done|]. intros Heq. apply Hpp'.
    eapply (wf_id_inj s p' p); [done|by apply field_lookup|].
    rewrite Heq, Hid. by apply field_lookup. }
  cbn.
  set (m1 := alter (retire (bool_decide (sch s = RR)) time) p (mem s)).
  assert (NoDup (delete k (elems (head s)))) as Hnd'
    by apply NoDup_delete, (cw_nodup _ _ _ _ Hcw).
  assert (∀ p', p' ∈ delete k (elems (head s)) → (p' < length m1)%nat) as Hv'.
  { intros p' Hp'. unfold m1. rewrite length_alter.
    apply (wf_queue_valid s Hwf). rewrite (delete_perm _ _ _ Hk). by right. }
  assert (Z.of_nat (length (delete k (elems (head s)))) ≤ INT_MAX) as Hmax'.
  { rewrite length_delete by eauto. pose proof (wf_queue_length s Hwf).
    pose proof (wf_mem_bound s Hwf). lia. }
  destruct (decide (sch s = RR)) as [Hrr|Hnrr].
  - match goal with |- context [renumber ?f 0 ?s0] =>
      destruct (renumber_spec f 0 s0) as (m3 & -> & Hrel & Hge & _ & _) end;
      [done|done|cbn; lia|].
    cbn in Hrel, Hge. cbn.
    match goal with |- context [dispatch_next ?s0 _ _ _] =>
      destruct (dispatch_next_exec s0 core core time)
        as (r & s' & -> & Hout) end.
    { cbn. intros p' Hp'. apply Forall2_length in Hrel. rewrite <-Hrel. auto. }
    { done. }
    { cbn. rewrite length_insert. lia. }
    exists r, s'. split; [done|].
    eapply (fin_intro s core job_number time k p j m3); try done.
    intros _ i p' Hi. apply Hge; [done|lia].
  - cbn.
    match goal with |- context [dispatch_next ?s0 _ _ _] =>
      destruct (dispatch_next_exec s0 core core time)
        as (r & s' & -> & Hout) end; [done|done|cbn; rewrite length_insert; lia|].
    exists r, s'. split; [done|].
    eapply (fin_intro s core job_number time k p j m1); try done.
    apply turn_rel_refl.
Qed.

(** ** scheduler_job_finished keeps the state well formed *)

Lemma retire_core_id rr time j : core_id (retire rr time j) = -1.
Proof. by destruct rr. Qed.

Lemma finished_state_wf s core time k p j m3 :
  wf s →
  elems (head s) !! k = Some p → mem s !! p = Some j →
  core_id j = core → core ≠ -1 →
  Forall2 turn_rel
    (alter (retire (bool_decide (sch s = RR)) time) p (mem s)) m3 →
  (sch s = RR → turns_wf (delete k (elems (head s))) (turn <$> m3)) →
  wf (finished_state s core k m3).
Proof.
  intros Hwf Hk Hj Hcid Hcore Hrel Hturn. split.
  - unfold field. cbn.
    rewrite (turn_rel_field next _ _ (λ _ _, eq_refl) Hrel).
    rewrite (turn_rel_field id _ _ (λ _ _, eq_refl) Hrel).
    rewrite !fmap_alter_same by solve_field. apply (wf_list s Hwf).
  - unfold field. cbn.
    rewrite (turn_rel_field core_id _ _ (λ _ _, eq_refl) Hrel).
    rewrite (fmap_alter_set core_id _ (-1)) by apply retire_core_id.
    eapply cw_dequeue; [|by apply delete_perm|].
    + apply cw_release; [apply (wf_cores s Hwf)| |done].
      rewrite <-Hcid. by apply field_lookup.
    + apply list_lookup_insert_eq. rewrite length_fmap.
      by eapply lookup_lt_Some.
  - cbn. apply (wf_cmp4 s Hwf).
  - done.
Qed.

Lemma dispatch_wf s core time r s' :
  wf s → 0 ≤ core → core_arr s !! Z.to_nat core = Some 0 →
  dispatch_outcome s core core time r s' → wf s'.
Proof.
  intros Hwf Hc0 Hc [Hall|k p j Hk Hj Hcj Hact]; [done|]. split.
  - unfold field. cbn. rewrite !fmap_alter_same by solve_field.
    apply (wf_list s Hwf).
  - unfold field. cbn.
    rewrite (fmap_alter_set core_id _ core) by solve_field.
    apply cw_dispatch; [apply (wf_cores s Hwf)| | |done..].
    + apply list_elem_of_lookup. eauto.
    + rewrite <-Hcj. by apply field_lookup.
  - cbn. apply (wf_cmp4 s Hwf).
  - cbn. unfold field. cbn. rewrite fmap_alter_same by solve_field.
    apply (wf_turn s Hwf).
Qed.

Lemma job_finished_wf s core job_number time r s' :
  wf s → finish_outcome s core job_number time r s' → wf s'.
Proof.
  intros Hwf [k p j m3 r' s'' Hk Hj Hid Hcid Hcore Hrel Hnrr Hturn Hout].
  pose proof (wf_cores s Hwf) as Hcw.
  destruct (cw_assign _ _ _ _ Hcw p core) as (_ & Hc0 & Hc1);
    [rewrite <-Hcid; by apply field_lookup|done|].
  eapply dispatch_wf; [|done| |done].
  - by eapply finished_state_wf.
  - cbn. apply list_lookup_insert_eq. by eapply lookup_lt_Some.
Qed.

(** ** What scheduler_quantum_expired does *)

Lemma quantum_scan_found fuel i s core time curr k p j :
  elems (head s) !! k = Some p → mem s !! p = Some j → core_id j = core →
  (∀ k' p', (k' < k)%nat → elems (head s) !! k' = Some p' →
     ∃ j', mem s !! p' = Some j' ∧ core_id j' ≠ core) →
  (i ≤ k)%nat → (length (elems (head s)) ≤ fuel + i)%nat →
  0 ≤ core < Z.of_nat (length (core_arr s)) →
  quantum_scan fuel i s core time curr
  = Some (Some p,
          Sched (numOfJobs s) (totalJobs s) (numOfCores s) (job_ptr s)
            (<[Z.to_nat core:=-1]> (core_arr s))
            (Priqueue (comparer (head s)) (delete k (elems (head s))))
            (sch s)
            (alter (λ j, set_turn
                           (Z.of_nat (length (delete k (elems (head s)))))
                           (suspend time j)) p (mem s))).
Proof.
  intros Hk Hj Hcid Hbefore. revert i curr.
  induction fuel as [|fuel IH]; intros i curr Hi Hlen Hcore; simpl;
    unfold priqueue_size, priqueue_at.
  { apply lookup_lt_Some in Hk. lia. }
  pose proof (lookup_lt_Some _ _ _ Hk) as Hklt.
  rewrite decide_True by lia.
  destruct (decide (i = k)) as [->|Hik].
  - rewrite Hk. simpl. rewrite Hj. simpl. rewrite decide_True by done.
    unfold write_core. rewrite decide_True by done. cbn.
    rewrite Hk. cbn.
    rewrite list_lookup_insert_eq by (by eapply lookup_lt_Some). cbn.
    unfold priqueue_size. cbn. do 2 f_equal. unfold_state. f_equal.
    rewrite list_insert_insert_eq. apply list_eq. intros p'.
    rewrite list_lookup_alter, list_lookup_insert.
    destruct (decide (p = p')) as [->|]; [|by rewrite decide_False by tauto].
    rewrite Hj. cbn. rewrite decide_True; [done|].
    split; [done|]. by eapply lookup_lt_Some.
  - destruct (lookup_lt_is_Some_2 (elems (head s)) i) as [p' Hp']; [lia|].
    rewrite Hp'. simpl.
    destruct (Hbefore i p') as (j' & Hj' & Hne); [lia|done|].
    rewrite Hj'. simpl. rewrite decide_False by done. apply IH; [lia..|done].
Qed.

(** The state once the job whose quantum expired is back at the tail. *)
Definition requeued_state (s : sched) (k p : nat) (arr : list Z)
    (m : list job_t) : sched :=
  Sched (numOfJobs s) (totalJobs s) (numOfCores s) (job_ptr s) arr
    (Priqueue (comparer (head s)) (delete k (elems (head s)) ++ [p]))
    (sch s) m.

Inductive quantum_outcome (s : sched) (core time : Z) : Z → sched → Prop :=
  | qe_intro k p j m3 k' p' j' :
      elems (head s) !! k = Some p → mem s !! p = Some j →
      core_id j = core → core ≠ -1 →
      Forall2 turn_rel (alter (suspend time) p (mem s)) m3 →
      turns_wf (delete k (elems (head s)) ++ [p]) (turn <$> m3) →
      (delete k (elems (head s)) ++ [p]) !! k' = Some p' →
      m3 !! p' = Some j' → core_id j' = -1 →
      (∀ k'' p'' j'', (k'' < k')%nat →
         (delete k (elems (head s)) ++ [p]) !! k'' = Some p'' →
         m3 !! p'' = Some j'' → core_id j'' ≠ -1) →
      quantum_outcome s core time (id j')
        (requeued_state s k p (core_arr s)
           (alter (λ j, set_core_id core (resume time j)) p' m3)).

Lemma quantum_expired_exec s core time :
  wf s → sch s = RR → core_in_use s core →
  ∃ r s', scheduler_quantum_expired s core time = Some (r, s') ∧
          quantum_outcome s core time r s'.
Proof.
  intros Hwf Hrr (p & (k & Hk)%list_elem_of_lookup & Hcid & Hcore).
  pose proof (wf_cores s Hwf) as Hcw.
  destruct (cw_assign _ _ _ _ Hcw p core Hcid Hcore) as (_ & Hc0 & Hc1).
  pose proof (lookup_lt_Some _ _ _ Hc1) as Hclt.
  pose proof (lookup_lt_Some _ _ _ Hk) as Hklt.
  pose proof Hcid as Hcid'.
  apply field_lookup_inv in Hcid' as (j & Hj & Hcj).
  unfold scheduler_quantum_expired.
  erewrite (quantum_scan_found _ 0 s core time None k p j);
    [|done|done|done| |lia|lia|lia]; cycle 1.
  { intros k' p' Hk' Hp'. destruct (wf_queue_lookup s Hwf k' p' Hp') as [j' Hj'].
    exists j'. split; [done|]. intros Heq.
    assert (p' = p).
    { eapply (cw_inj _ _ _ _ Hcw p' p core); [|done..].
      rewrite <-Heq. by apply field_lookup. }
    subst p'. pose proof (NoDup_lookup _ _ _ _ (cw_nodup _ _ _ _ Hcw) Hk Hp').
    lia. }
  cbn.
  set (q' := delete k (elems (head s))).
  set (m1 := alter _ p (mem s)).
  assert (NoDup q') as Hnd' by apply NoDup_delete, (cw_nodup _ _ _ _ Hcw).
  assert (p ∉ q') as Hpq'.
  { pose proof (cw_nodup _ _ _ _ Hcw) as Hnd.
    rewrite (delete_perm _ _ _ Hk) in Hnd. by apply NoDup_cons in Hnd as [? _]. }
  assert (∀ p', p' ∈ q' → (p' < length m1)%nat) as Hv'.
  { intros p' Hp'. unfold m1. rewrite length_alter.
    apply (wf_queue_valid s Hwf). rewrite (delete_perm _ _ _ Hk). by right. }
  assert (S (length q') = length (elems (head s))) as Hlen'.
  { unfold q'. rewrite length_delete by eauto. lia. }
  pose proof (wf_queue_length s Hwf) as Hql.
  pose proof (wf_mem_bound s Hwf) as Hmb.
  match goal with |- context [renumber ?f 0 ?s0] =>
    destruct (renumber_spec f 0 s0) as (m3 & -> & Hrel & Hge & _ & Hout) end;
    [done|done|cbn; lia|].
  cbn in Hrel, Hge, Hout. cbn.
  assert (m3 !! p = Some (set_turn (Z.of_nat (length q')) (suspend time j)))
    as Hp3.
  { rewrite (Hout p Hpq'). unfold m1.
    by rewrite list_lookup_alter_eq, Hj. }
  pose proof (Forall2_length _ _ _ Hrel) as Hlen3.
  match goal with |- context [offer ?s0 p] =>
    destruct (offer_exec s0 p) as (k2 & -> & _ & Hk2) end.
  { cbn. intros p' Hp'. rewrite <-Hlen3. auto. }
  { cbn. by eapply lookup_lt_Some. }
  cbn in Hk2. rewrite Hk2; cycle 1.
  { by apply (wf_cmp4 s Hwf). }
  { intros i p' Hi. apply Hge; [done|lia]. }
  { unfold field. cbn. by rewrite list_lookup_fmap, Hp3. }
  { lia. }
  cbn. rewrite insert_at_end.
  match goal with |- context [dispatch_next ?s0 _ _ _] =>
    destruct (dispatch_next_exec s0 core core time)
      as (r & s' & -> & Hdisp) end.
  { cbn. intros p' [Hp'|Hp']%elem_of_app.
    - rewrite <-Hlen3. auto.
    - apply list_elem_of_singleton in Hp' as ->. by eapply lookup_lt_Some. }
  { cbn. rewrite length_app. simpl. lia. }
  { cbn. rewrite length_insert. lia. }
  exists r, s'. split; [done|].
  destruct Hdisp as [Hall|k' p' j' Hk' Hj' Hcj' Hact].
  { exfalso. cbn in Hall. eapply (Hall p); [|exact Hp3|done].
    apply elem_of_app. right. by left. }
  cbn in Hk', Hj', Hact. unfold_state.
  rewrite list_insert_insert_eq, (list_insert_id (core_arr s)) by done.
  eapply (qe_intro s core time k p j m3 k' p' j'); try done.
  - apply Forall2_same_length_lookup_2.
    { rewrite <-Hlen3. unfold m1. by rewrite !length_alter. }
    intros i x y Hx Hy.
    destruct (Forall2_lookup_r _ _ _ _ _ Hrel Hy) as (x' & Hx' & Hxy).
    unfold m1 in Hx'. rewrite list_lookup_alter in Hx', Hx.
    case_decide; [|congruence]. subst i.
    rewrite Hj in Hx, Hx'. cbn in Hx, Hx'.
    injection Hx as <-. injection Hx' as <-. by rewrite Hxy.
  - apply (turns_wf_snoc _ (turn <$> m3)); [|done|].
    + intros i p'' Hi. apply Hge; [done|lia].
    + by rewrite list_lookup_fmap, Hp3.
Qed.

Lemma suspend_core_id time j : core_id (suspend time j) = -1.
Proof. done. Qed.

Lemma quantum_expired_wf s core time r s' :
  wf s → quantum_outcome s core time r s' → wf s'.
Proof.
  intros Hwf [k p j m3 k' p' j' Hk Hj Hcid Hcore Hrel Hturn Hk' Hj' Hcj' Hact].
  pose proof (wf_cores s Hwf) as Hcw.
  destruct (cw_assign _ _ _ _ Hcw p core) as (_ & Hc0 & Hc1);
    [rewrite <-Hcid; by apply field_lookup|done|].
  assert (wf (requeued_state s k p (<[Z.to_nat core:=0]> (core_arr s)) m3))
    as Hmid.
  { split.
    - unfold field. cbn.
      rewrite (turn_rel_field next _ _ (λ _ _, eq_refl) Hrel).
      rewrite (turn_rel_field id _ _ (λ _ _, eq_refl) Hrel).
      rewrite !fmap_alter_same by solve_field. apply (wf_list s Hwf).
    - unfold field. cbn.
      rewrite (turn_rel_field core_id _ _ (λ _ _, eq_refl) Hrel).
      rewrite (fmap_alter_set core_id _ (-1)) by apply suspend_core_id.
      eapply cw_perm.
      + apply cw_release; [done| |done]. rewrite <-Hcid. by apply field_lookup.
      + rewrite (delete_perm _ _ _ Hk) at 1. by rewrite Permutation_app_comm.
    - cbn. apply (wf_cmp4 s Hwf).
    - done. }
  eapply (dispatch_wf _ core time (id j')); [exact Hmid|done|..].
  - cbn. apply list_lookup_insert_eq. by eapply lookup_lt_Some.
  - replace (core_arr s)
      with (<[Z.to_nat core:=1]> (<[Z.to_nat core:=0]> (core_arr s))) at 2
      by (rewrite list_insert_insert_eq; by apply list_insert_id).
    exact (dn_some (requeued_state s k p (<[Z.to_nat core:=0]> (core_arr s)) m3)
             core core time k' p' j' Hk' Hj' Hcj' Hact).
Qed.

(** ** Every reachable state is well formed, and no handler faults *)

Lemma handle_wf now s e r s' :
  wf s → valid_event now s e → handle s e = Some (r, s') → wf s'.
Proof.
  intros Hwf Hev He. destruct e as [n t d pr|c n t|c t]; cbn in Hev, He.
  - destruct Hev as (_ & Hok & _).
    destruct (new_job_exec s n t d pr Hwf Hok) as (r' & s'' & Hex & Hout).
    rewrite Hex in He. injection He as <- <-. by eapply new_job_wf.
  - destruct Hev as (_ & Hon).
    destruct (job_finished_exec s c n t Hwf Hon) as (r' & s'' & Hex & Hout).
    rewrite Hex in He. injection He as <- <-. by eapply job_finished_wf.
  - destruct Hev as (_ & Hrr & Huse).
    destruct (quantum_expired_exec s c t Hwf Hrr Huse)
      as (r' & s'' & Hex & Hout).
    rewrite Hex in He. injection He as <- <-. by eapply quantum_expired_wf.
Qed.

Lemma reachable_wf cores scheme now s : reachable cores scheme now s → wf s.
Proof.
  induction 1 as [Hc|now s e r s' _ IH Hev He].
  - by apply start_up_wf.
  - by eapply handle_wf.
Qed.

Lemma handle_total now s e :
  wf s → valid_event now s e → ∃ r s', handle s e = Some (r, s').
Proof.
  intros Hwf Hev. destruct e as [n t d pr|c n t|c t]; cbn in Hev; cbn.
  - destruct Hev as (_ & Hok & _).
    destruct (new_job_exec s n t d pr Hwf Hok) as (r' & s'' & Hex & _). eauto.
  - destruct Hev as (_ & Hon).
    destruct (job_finished_exec s c n t Hwf Hon) as (r' & s'' & Hex & _). eauto.
  - destruct Hev as (_ & Hrr & Huse).
    destruct (quantum_expired_exec s c t Hwf Hrr Huse)
      as (r' & s'' & Hex & _). eauto.
Qed.

(** * Times *)

(** What the time fields of a job look like at simulation time [now]: a job
    on a core has no open wait; a job off the cores is either untouched
    (all three fields at the sentinel), or has run and then waits since
    [start_wait], or has no open wait (a finished job). *)
Definition timing (now : Z) (j : job_t) : Prop :=
  0 ≤ arr_time j ≤ now ∧
  if decide (core_id j ≠ -1) then
    start_wait j = -1 ∧ 0 ≤ wait_time j ≤ now - arr_time j ∧
    0 ≤ response_time j
  else
    (response_time j = -1 ∧ wait_time j = -1 ∧ start_wait j = -1) ∨
    (0 ≤ response_time j ∧ 0 ≤ wait_time j ∧
     ((start_wait j = -1 ∧ wait_time j ≤ now - arr_time j) ∨
      (0 ≤ start_wait j ≤ now ∧ wait_time j ≤ start_wait j - arr_time j))).

Definition tinv (now : Z) (s : sched) : Prop :=
  0 ≤ now ≤ INT_MAX ∧ Forall (timing now) (mem s).

(** The fields [timing] reads. *)
Definition time_view (j : job_t) : Z * Z * Z * Z * Z :=
  (core_id j, arr_time j, wait_time j, start_wait j, response_time j).

Lemma timing_view now j j' : time_view j' = time_view j → timing now j → timing now j'.
Proof.
  unfold time_view, timing. intros Hv. injection Hv as H1 H2 H3 H4 H5.
  by rewrite H1, H2, H3, H4, H5.
Qed.

Lemma timing_view_all now (m m' : list job_t) :
  time_view <$> m' = time_view <$> m →
  Forall (timing now) m → Forall (timing now) m'.
Proof.
  intros Hv Hm. apply Forall_lookup. intros p j' Hj'.
  assert ((time_view <$> m) !! p = Some (time_view j')) as Hp
    by (by rewrite <-Hv, list_lookup_fmap, Hj').
  rewrite list_lookup_fmap in Hp. destruct (m !! p) as [j|] eqn:Hj; [|done].
  apply (inj Some) in Hp. eapply timing_view; [symmetry; exact Hp|].
  by eapply (Forall_lookup_1 _ _ _ _ Hm).
Qed.

Lemma timing_mono now now' j : now ≤ now' → timing now j → timing now' j.
Proof.
  unfold timing. intros Hle [Harr Hj]. split; [lia|].
  case_decide; [lia|]. destruct Hj as [?|(? & ? & [?|?])]; [by left|right..];
    (split_and!; [lia..|]); [left|right]; lia.
Qed.

Lemma resume_first time j :
  response_time j = -1 → start_wait j = -1 →
  resume time j
  = set_wait_time (sub32 time (arr_time j))
      (set_response_time (sub32 time (arr_time j)) j).
Proof.
  intros Hr Hs. unfold resume.
  destruct (decide (response_time j = -1)); [cbn|done].
  by destruct (decide (start_wait j ≠ -1)).
Qed.

Lemma resume_same time j :
  response_time j ≠ -1 → start_wait j = -1 → resume time j = j.
Proof.
  intros Hr Hs. unfold resume.
  destruct (decide (response_time j = -1)); [done|].
  by destruct (decide (start_wait j ≠ -1)).
Qed.

Lemma resume_wait time j :
  response_time j ≠ -1 → start_wait j ≠ -1 →
  resume time j
  = set_start_wait (-1)
      (set_wait_time (add32 (wait_time j) (sub32 time (start_wait j))) j).
Proof.
  intros Hr Hs. unfold resume.
  destruct (decide (response_time j = -1)); [done|].
  by destruct (decide (start_wait j ≠ -1)).
Qed.

Section timing_steps.
Context (time : Z) (Htime : 0 ≤ time ≤ INT_MAX).

Lemma timing_fresh job_number running_time priority :
  timing time (fresh_job job_number time running_time priority).
Proof.
  unfold timing. cbn. split; [lia|]. rewrite decide_False by lia. by left.
Qed.

Lemma timing_run_on c job_number running_time priority :
  c ≠ -1 →
  timing time (run_on c (fresh_job job_number time running_time priority)).
Proof. intros Hc. unfold timing. cbn. rewrite decide_True by done. lia. Qed.

Lemma timing_evict j :
  timing time j → core_id j ≠ -1 → timing time (evict time j).
Proof.
  unfold timing, evict. intros [Harr Hj] Hc. rewrite decide_True in Hj by done.
  cbn. case_decide; cbn; (split; [lia|]); rewrite decide_False by lia.
  - by left.
  - right. split_and!; [lia..|]. right. lia.
Qed.

Lemma timing_suspend j :
  timing time j → core_id j ≠ -1 → timing time (suspend time j).
Proof.
  unfold timing, suspend. intros [Harr Hj] Hc.
  rewrite decide_True in Hj by done.
  cbn. split; [lia|]. rewrite decide_False by lia.
  right. split_and!; [lia..|]. right. lia.
Qed.

Lemma timing_retire rr j :
  timing time j → core_id j ≠ -1 → timing time (retire rr time j).
Proof.
  unfold timing. intros [Harr Hj] Hc. rewrite decide_True in Hj by done.
  destruct rr; cbn; (split; [lia|]); rewrite decide_False by lia;
    right; (split_and!; [lia..|]); left; lia.
Qed.

Lemma timing_resume c j :
  timing time j → core_id j = -1 → c ≠ -1 →
  timing time (set_core_id c (resume time j)).
Proof.
  unfold timing. intros [Harr Hj] Hc Hc'.
  rewrite decide_False in Hj by lia.
  assert (sub32 time (arr_time j) = time - arr_time j) as Hsub
    by (apply sub32_small; unfold int_range, INT_MIN, INT_MAX in *; lia).
  destruct Hj as [(Hr & Hw & Hs)|(Hr & Hw & [[Hs Hle]|[Hs Hle]])].
  - rewrite resume_first by done. cbn.
    rewrite decide_True by done. rewrite Hsub. lia.
  - rewrite resume_same by (done || lia). cbn.
    rewrite decide_True by done. lia.
  - rewrite resume_wait by lia. cbn.
    rewrite decide_True by done.
    rewrite (sub32_small time)
      by (unfold int_range, INT_MIN, INT_MAX in *; lia).
    rewrite add32_small by (unfold int_range, INT_MIN, INT_MAX in *; lia).
    lia.
Qed.
End timing_steps.

Lemma timing_stamp s time j : timing time j → timing time (stamp s j).
Proof. apply timing_view. solve_field. Qed.

Lemma new_job_tinv now s job_number time running_time priority r s' :
  wf s → tinv now s → now ≤ time ≤ INT_MAX →
  new_job_outcome s job_number time running_time priority r s' →
  tinv time s'.
Proof.
  intros Hwf [Hnow Htim] Htime Hout.
  assert (0 ≤ time ≤ INT_MAX) as Ht by lia. split; [done|].
  assert (∀ m2, arrived s job_number time running_time priority m2 →
            Forall (timing time) m2) as Harrived.
  { intros m2 Hm2.
    apply (timing_view_all _
             (mem s ++ [fresh_job job_number time running_time priority])).
    - rewrite fmap_app. by apply (arrived_field _ _ _ _ _ _ Hm2 time_view).
    - apply Forall_app. split.
      + eapply Forall_impl; [done|]. intros j. apply timing_mono. lia.
      + apply Forall_singleton. by apply timing_fresh. }
  destruct Hout as [i k m2 Hm2 Hrank Hi Hlow
                   |k v jv m2 Hm2 Hrank Hbusy Hpre Hlt Hv Hjv Hcv
                   |k m2 Hm2 Hrank Hbusy Hge]; cbn.
  - apply Forall_alter; [by apply Harrived|]. intros j Hj _.
    rewrite (arrived_fresh _ _ _ _ _ _ Hm2) in Hj. injection Hj as <-.
    apply timing_stamp, timing_run_on; [done|lia].
  - apply Forall_alter.
    + apply Forall_alter; [by apply Harrived|]. intros j Hj Htj.
      assert (j = jv) as -> by congruence. by apply timing_evict.
    + intros j Hj _. rewrite list_lookup_alter_ne in Hj; cycle 1.
      { intros ->. by apply (nj_not_queued s Hwf). }
      rewrite (arrived_fresh _ _ _ _ _ _ Hm2) in Hj. injection Hj as <-.
      by apply timing_run_on.
  - apply Forall_alter; [by apply Harrived|]. intros j Hj Htj.
    by apply timing_stamp.
Qed.

Lemma dispatch_tinv s core time r s' :
  tinv time s → core ≠ -1 → dispatch_outcome s core core time r s' →
  tinv time s'.
Proof.
  intros [Ht Htim] Hcore [Hall|k p j Hk Hj Hcj Hact]; [done|].
  split; [done|]. cbn. apply Forall_alter; [done|]. intros j' Hj' Htj'.
  assert (j' = j) as -> by congruence. by apply timing_resume.
Qed.

Lemma job_finished_tinv now s core job_number time r s' :
  tinv now s → now ≤ time ≤ INT_MAX →
  finish_outcome s core job_number time r s' → tinv time s'.
Proof.
  intros [Hnow Htim] Htime
    [k p j m3 r' s'' Hk Hj Hid Hcid Hcore Hrel Hnrr Hturn Hout].
  assert (0 ≤ time ≤ INT_MAX) as Ht by lia.
  eapply dispatch_tinv; [|done..]. split; [done|]. cbn.
  eapply timing_view_all;
    [by apply (turn_rel_field time_view _ _ (λ _ _, eq_refl) Hrel)|].
  apply Forall_alter.
  - eapply Forall_impl; [done|]. intros j0. apply timing_mono. lia.
  - intros j0 Hj0 Htj0. assert (j0 = j) as -> by congruence.
    apply timing_retire; [done..|congruence].
Qed.

Lemma quantum_expired_tinv now s core time r s' :
  tinv now s → now ≤ time ≤ INT_MAX →
  quantum_outcome s core time r s' → tinv time s'.
Proof.
  intros [Hnow Htim] Htime
    [k p j m3 k' p' j' Hk Hj Hcid Hcore Hrel Hturn Hk' Hj' Hcj' Hact].
  assert (0 ≤ time ≤ INT_MAX) as Ht by lia. split; [done|]. cbn.
  apply Forall_alter.
  - eapply timing_view_all;
      [by apply (turn_rel_field time_view _ _ (λ _ _, eq_refl) Hrel)|].
    apply Forall_alter.
    + eapply Forall_impl; [done|]. intros j0. apply timing_mono. lia.
    + intros j0 Hj0 Htj0. assert (j0 = j) as -> by congruence.
      apply timing_suspend; [done..|congruence].
  - intros j0 Hj0 Htj0. assert (j0 = j') as -> by congruence.
    by apply timing_resume.
Qed.

Lemma handle_tinv now s e r s' :
  wf s → tinv now s → valid_event now s e → handle s e = Some (r, s') →
  tinv (event_time e) s'.
Proof.
  intros Hwf Htinv Hev He. destruct e as [n t d pr|c n t|c t]; cbn in Hev, He.
  - destruct Hev as (Ht & Hok & _).
    destruct (new_job_exec s n t d pr Hwf Hok) as (r' & s'' & Hex & Hout).
    rewrite Hex in He. injection He as <- <-. by eapply new_job_tinv.
  - destruct Hev as (Ht & Hon).
    destruct (job_finished_exec s c n t Hwf Hon) as (r' & s'' & Hex & Hout).
    rewrite Hex in He. injection He as <- <-. by eapply job_finished_tinv.
  - destruct Hev as (Ht & Hrr & Huse).
    destruct (quantum_expired_exec s c t Hwf Hrr Huse)
      as (r' & s'' & Hex & Hout).
    rewrite Hex in He. injection He as <- <-. by eapply quantum_expired_tinv.
Qed.

Lemma reachable_tinv cores scheme now s :
  reachable cores scheme now s → tinv now s.
Proof.
  induction 1 as [Hc|now s e r s' Hreach IH Hev He].
  - split; [unfold INT_MAX; lia|]. cbn. constructor.
  - eapply handle_tinv; [|done..]. by eapply reachable_wf.
Qed.

(** * Checked runs

    [check_event] decides the preconditions of an event, so that concrete
    runs can be replayed by computation. *)

Definition check_event (now : Z) (s : sched) (e : event) : bool :=
  match e with
  | NewJob job_number time running_time priority =>
      bool_decide (now ≤ time ≤ INT_MAX) &&
      bool_decide (0 ≤ job_number < INT_MAX) &&
      bool_decide (length (mem s) = 0%nat → job_number = 0) &&
      bool_decide (Forall (λ a, a < job_number) (field id s)) &&
      bool_decide (Forall (λ a, a < time) (field arr_time s)) &&
      bool_decide (int_range running_time) &&
      bool_decide (int_range priority)
  | JobFinished core job_number time =>
      bool_decide (now ≤ time ≤ INT_MAX) &&
      bool_decide (Exists (λ p, field id s !! p = Some job_number ∧
                                field core_id s !! p = Some core ∧ core ≠ -1)
                     (elems (head s)))
  | QuantumExpired core time =>
      bool_decide (now ≤ time ≤ INT_MAX) &&
      bool_decide (sch s = RR) &&
      bool_decide (Exists (λ p, field core_id s !! p = Some core ∧ core ≠ -1)
                     (elems (head s)))
  end.

Lemma check_event_sound now s e : check_event now s e = true → valid_event now s e.
Proof.
  destruct e as [n t d pr|c n t|c t]; cbn;
    rewrite !andb_true_iff, !bool_decide_eq_true.
  - intros ((((((Ht & Hn) & Hnil) & Hid) & Harr) & Hd) & Hpr).
    split; [done|]. split; [|split; [by apply Forall_forall|done]].
    split; [done|]. split; [|by apply Forall_forall].
    intros Hm. apply Hnil. by rewrite Hm.
  - intros [Ht (p & Hp & ?)%Exists_exists]. split; [done|]. by exists p.
  - intros [[Ht Hrr] (p & Hp & ?)%Exists_exists].
    split; [done|]. split; [done|]. by exists p.
Qed.

(** Runs the events from time [now] on, as long as their preconditions
    hold; returns the time of the last event and the final state. *)
Fixpoint run_checked (now : Z) (s : sched) (es : list event)
  : option (Z * sched) :=
  match es with
  | [] => Some (now, s)
  | e :: es' =>
      if check_event now s e then
        '(_, s') ← handle s e; run_checked (event_time e) s' es'
      else None
  end.

Lemma run_checked_reachable cores scheme now s es now' s' :
  reachable cores scheme now s →
  run_checked now s es = Some (now', s') →
  reachable cores scheme now' s'.
Proof.
  revert now s. induction es as [|e es IH]; intros now s Hreach; cbn.
  - by intros [= <- <-].
  - destruct (check_event now s e) eqn:Hchk; [|done].
    destruct (handle s e) as [[r s1]|] eqn:He; [cbn|done].
    apply IH. eapply reach_step; [done| |done]. by apply check_event_sound.
Qed.

(** The state after a checked run from [scheduler_start_up]. *)
Definition after (cores : Z) (scheme : scheme_t) (es : list event)
  : option (Z * sched) :=
  if decide (0 < cores)
  then run_checked 0 (scheduler_start_up cores scheme) es else None.

Lemma after_reachable cores scheme es now s :
  after cores scheme es = Some (now, s) → reachable cores scheme now s.
Proof.
  unfold after. case_decide; [|done].
  apply run_checked_reachable. by apply reach_start.
Qed.

(** A checked run from the start state, split into what a statement about
    its outcome needs: whether every event was valid and handled, the time
    of the last event, and the final state. *)
Definition run_ok (cores : Z) (scheme : scheme_t) (es : list event) : bool :=
  match after cores scheme es with Some _ => true | None => false end.

Definition run_time (cores : Z) (scheme : scheme_t) (es : list event) : Z :=
  match after cores scheme es with Some (now, _) => now | None => 0 end.

Definition run_state (cores : Z) (scheme : scheme_t) (es : list event)
  : sched :=
  match after cores scheme es with
  | Some (_, s) => s
  | None => scheduler_start_up cores scheme
  end.

Lemma run_reachable cores scheme es :
  run_ok cores scheme es = true →
  reachable cores scheme (run_time cores scheme es) (run_state cores scheme es).
Proof.
  unfold run_ok, run_time, run_state.
  destruct (after cores scheme es) as [[now s]|] eqn:Hrun; [|done].
  intros _. by apply (after_reachable _ _ es).
Qed.

(** * The statistics without any job *)

(** The three averages are guarded against an empty job list when each of
    them returns a quotient whose divisor is not zero. *)
Definition averages_guarded (s : sched) : Prop :=
  ∀ avg, avg ∈ [scheduler_average_waiting_time;
                scheduler_average_turnaround_time;
                scheduler_average_response_time] →
    ∃ r, avg s = Some r ∧ divisor r ≠ 0.

(** Right after [scheduler_start_up], the waiting-time average divides by
    [totalJobs = 0]: the averages are not guarded. *)
Lemma averages_not_guarded : ¬ averages_guarded (scheduler_start_up 1 FCFS).
Proof.
  intros Hg. destruct (Hg scheduler_average_waiting_time) as (r & Hr & Hd).
  - by left.
  - cbv in Hr. injection Hr as <-. by apply Hd.
Qed.

(** C1 (amended). As long as no job was submitted ([totalJobs] is 0), each of
    [scheduler_average_waiting_time], [scheduler_average_turnaround_time]
    and [scheduler_average_response_time] adds up nothing and returns the
    quotient of the floats 0 and 0: no guard precedes the division, and the
    three functions agree on that one result. *)
Theorem averages_without_jobs (s : sched) :
  totalJobs s = 0 →
  scheduler_average_waiting_time s = Some (FloatDiv 0 0) ∧
  scheduler_average_turnaround_time s = Some (FloatDiv 0 0) ∧
  scheduler_average_response_time s = Some (FloatDiv 0 0).
Proof.
  intros Htot.
  unfold scheduler_average_waiting_time, scheduler_average_turnaround_time,
    scheduler_average_response_time.
  by rewrite Htot.
Qed.

Lemma averages_without_jobs_witness :
  totalJobs (scheduler_start_up 4 RR) = 0 ∧
  scheduler_average_waiting_time (scheduler_start_up 4 RR)
  = Some (FloatDiv 0 0) ∧
  scheduler_average_turnaround_time (scheduler_start_up 4 RR)
  = Some (FloatDiv 0 0) ∧
  scheduler_average_response_time (scheduler_start_up 4 RR)
  = Some (FloatDiv 0 0).
Proof.
  split; [reflexivity|].
  apply (averages_without_jobs (scheduler_start_up 4 RR)). reflexivity.
Defined.

(** * The comparer of SJF *)

(** A comparer orders by duration, then by id. *)
Definition orders_by_duration (cmp : job_t → job_t → Z) : Prop :=
  ∀ a b, cmp a b < 0 ↔
    duration a < duration b ∨ (duration a = duration b ∧ id a < id b).

(** Job 0 (duration 5) has run four time units when job 1 (duration 3)
    arrives: the comparer installed for SJF puts job 0 first. *)
Lemma sjf_comparer_not_by_duration :
  ¬ orders_by_duration (comparer (head (scheduler_start_up 1 SJF))).
Proof.
  intros Hord.
  pose (a := Job 0 0 5 0 1 0 (-1) 0 (-1) (-1) 0 None).
  pose (b := Job 1 4 3 0 3 (-1) (-1) (-1) (-1) (-1) (-1) None).
  assert (comparer (head (scheduler_start_up 1 SJF)) a b < 0) as Hab
    by (by vm_compute).
  apply Hord in Hab. cbn in Hab. lia.
Qed.

Lemma sub32_neg a b :
  0 ≤ a ≤ INT_MAX → 0 ≤ b ≤ INT_MAX → sub32 a b < 0 ↔ a < b.
Proof.
  intros Ha Hb.
  rewrite sub32_small by (unfold int_range, INT_MIN, INT_MAX in *; lia). lia.
Qed.

(** C3 (amended). With policy SJF, [scheduler_start_up] installs [compare2],
    which orders jobs by remaining time ascending with id ascending as the
    tie-break (ids being job numbers, between 0 and [INT_MAX]); for two jobs
    that have not run, whose remaining time is still their duration, this is
    the order by duration, then id. *)
Theorem sjf_comparer (cores : Z) (a b : job_t) :
  0 ≤ id a ≤ INT_MAX → 0 ≤ id b ≤ INT_MAX →
  comparer (head (scheduler_start_up cores SJF)) = compare2 ∧
  (compare2 a b < 0 ↔
     remaining_time a < remaining_time b ∨
     (remaining_time a = remaining_time b ∧ id a < id b)) ∧
  (remaining_time a = duration a → remaining_time b = duration b →
   (compare2 a b < 0 ↔
      duration a < duration b ∨ (duration a = duration b ∧ id a < id b))).
Proof.
  intros Ha Hb. split; [done|].
  assert (compare2 a b < 0 ↔
          remaining_time a < remaining_time b ∨
          (remaining_time a = remaining_time b ∧ id a < id b)) as Hcmp.
  { unfold compare2. repeat case_decide; rewrite ?sub32_neg by done; lia. }
  split; [done|]. intros <- <-. done.
Qed.

Lemma sjf_comparer_witness :
  let a := fresh_job 3 10 7 0 in
  let b := fresh_job 5 12 7 0 in
  (0 ≤ id a ≤ INT_MAX) ∧ (0 ≤ id b ≤ INT_MAX) ∧
  comparer (head (scheduler_start_up 2 SJF)) = compare2 ∧
  (compare2 a b < 0 ↔
     remaining_time a < remaining_time b ∨
     (remaining_time a = remaining_time b ∧ id a < id b)) ∧
  (remaining_time a = duration a → remaining_time b = duration b →
   (compare2 a b < 0 ↔
      duration a < duration b ∨ (duration a = duration b ∧ id a < id b))).
Proof.
  intros a b.
  assert (0 ≤ id a ≤ INT_MAX) as Ha by (by vm_compute).
  assert (0 ≤ id b ≤ INT_MAX) as Hb by (by vm_compute).
  split; [exact Ha|]. split; [exact Hb|].
  exact (sjf_comparer 2 a b Ha Hb).
Defined.

(** * Busy cores and assigned jobs *)

Lemma filter_ext_in {A} (P1 P2 : A → Prop)
    `{!∀ x, Decision (P1 x), !∀ x, Decision (P2 x)} (l : list A) :
  (∀ x, x ∈ l → P1 x ↔ P2 x) → filter P1 l = filter P2 l.
Proof.
  induction l as [|a l IH]; intros Hiff; [done|].
  assert (filter P1 l = filter P2 l) as Hl.
  { apply IH. intros x Hx. apply Hiff. by right. }
  destruct (decide (P1 a)) as [Ha|Ha].
  - rewrite !filter_cons_True; [by rewrite Hl|by apply Hiff; [left|]|done].
  - rewrite !filter_cons_False; [done| |done].
    intros Ha'. apply Ha, Hiff; [by left|done].
Qed.

(** The jobs that hold a core, counted over the memory or over the queue. *)
Lemma active_count (q : list ptr) (cids : list Z) :
  NoDup q → (∀ p, p ∈ q → (p < length cids)%nat) →
  (∀ p c, cids !! p = Some c → c ≠ -1 → p ∈ q) →
  length (filter (λ c, c ≠ -1) cids)
  = length (filter (λ p, cids !! p ≠ Some (-1)) q).
Proof.
  revert cids. induction q as [|p q IH]; intros cids Hnd Hv Hact.
  - destruct (filter (λ c, c ≠ -1) cids) as [|c l] eqn:Hf; [done|].
    assert (c ∈ filter (λ c, c ≠ -1) cids) as Hc by (rewrite Hf; by left).
    apply list_elem_of_filter in Hc as [Hc (i & Hi)%list_elem_of_lookup].
    by apply Hact, elem_of_nil in Hi.
  - apply NoDup_cons in Hnd as [Hpq Hnd].
    destruct (lookup_lt_is_Some_2 cids p) as [c0 Hc0]; [apply Hv; by left|].
    specialize (IH (<[p:=-1]> cids) Hnd).
    rewrite (filter_ext_in _ (λ p', cids !! p' ≠ Some (-1)) q) in IH; cycle 1.
    { intros p' Hp'. rewrite list_lookup_insert_ne; [done|]. by intros ->. }
    pose proof (filter_insert_length (λ c, c ≠ -1) cids p c0 (-1) Hc0) as Hins.
    rewrite IH in Hins; cycle 1.
    { intros p' Hp'. rewrite length_insert. apply Hv. by right. }
    { intros p' c Hp' Hc. destruct (decide (p = p')) as [<-|Hne].
      - rewrite list_lookup_insert_eq in Hp' by (by eapply lookup_lt_Some).
        congruence.
      - rewrite list_lookup_insert_ne in Hp' by done.
        pose proof (Hact p' c Hp' Hc) as Hin.
        apply elem_of_cons in Hin as [?|?]; [congruence|done]. }
    destruct (decide (c0 ≠ -1)) as [Hc|Hc];
      rewrite decide_False in Hins by lia.
    + rewrite filter_cons_True by congruence. simpl. lia.
    + rewrite filter_cons_False; [lia|]. intros Hne. apply Hne.
      rewrite Hc0. f_equal. destruct (decide (c0 = -1)); [done|]. by destruct Hc.
Qed.

Lemma queue_jobs_count (m : list job_t) (q : list ptr) :
  (∀ p, p ∈ q → (p < length m)%nat) →
  length (filter (λ j, core_id j ≠ -1) (omap (λ p, m !! p) q))
  = length (filter (λ p, (core_id <$> m) !! p ≠ Some (-1)) q).
Proof.
  induction q as [|p q IH]; intros Hv; [done|].
  destruct (lookup_lt_is_Some_2 m p) as [j Hj]; [apply Hv; by left|].
  cbn. rewrite Hj. cbn.
  assert ((core_id <$> m) !! p = Some (core_id j)) as Hc
    by (by rewrite list_lookup_fmap, Hj).
  specialize (IH (λ p' Hp', Hv p' (list_elem_of_further _ _ _ Hp'))).
  destruct (decide (core_id j = -1)) as [Heq|Hne].
  - rewrite decide_False by (intros H; by apply H).
    rewrite decide_False; [done|]. rewrite Hc, Heq. intros H; by apply H.
  - rewrite decide_True by done.
    rewrite decide_True by (rewrite Hc; congruence).
    rewrite !length_cons. by f_equal.
Qed.

Lemma wf_counts s : wf s → busy_cores s = assigned_jobs s.
Proof.
  intros Hwf. pose proof (wf_cores s Hwf) as Hcw.
  unfold busy_cores, assigned_jobs, queue_jobs.
  rewrite (cw_count _ _ _ _ Hcw).
  rewrite queue_jobs_count by apply (wf_queue_valid s Hwf).
  apply active_count; [apply Hcw..|].
  intros p c Hp Hc. by destruct (cw_assign _ _ _ _ Hcw p c Hp Hc).
Qed.

(** The handlers change neither the number of cores nor the policy. *)
Lemma handle_config now s e r s' :
  wf s → valid_event now s e → handle s e = Some (r, s') →
  numOfCores s' = numOfCores s ∧ sch s' = sch s.
Proof.
  intros Hwf Hev He. destruct e as [n t d pr|c n t|c t]; cbn in Hev, He.
  - destruct Hev as (_ & Hok & _).
    destruct (new_job_exec s n t d pr Hwf Hok) as (r' & s'' & Hex & Hout).
    rewrite Hex in He. injection He as <- <-. by destruct Hout.
  - destruct Hev as (_ & Hon).
    destruct (job_finished_exec s c n t Hwf Hon) as (r' & s'' & Hex & Hout).
    rewrite Hex in He. injection He as <- <-.
    destruct Hout as [k p j m3 r0 s0 _ _ _ _ _ _ _ _ Hd]. by destruct Hd.
  - destruct Hev as (_ & Hrr & Huse).
    destruct (quantum_expired_exec s c t Hwf Hrr Huse)
      as (r' & s'' & Hex & Hout).
    rewrite Hex in He. injection He as <- <-. by destruct Hout.
Qed.

Lemma reachable_config cores scheme now s :
  reachable cores scheme now s → numOfCores s = cores ∧ sch s = scheme.
Proof.
  induction 1 as [Hc|now s e r s' Hreach [IH1 IH2] Hev He]; [done|].
  destruct (handle_config now s e r s') as [-> ->]; [|done..].
  by eapply reachable_wf.
Qed.

(** C4. In every state reached from [scheduler_start_up cores scheme]
    through calls of [scheduler_new_job], [scheduler_job_finished] and
    [scheduler_quantum_expired] that meet their preconditions (so after the
    initialisation and after every return of a handler), the cores marked
    busy in [core_arr] are as many as the jobs of the queue (the registered,
    uncompleted jobs) whose [core_id] is not -1, and they are at most
    [cores]; a mark is 0 or 1, and a registered job outside the queue has
    [core_id] -1. *)
Theorem busy_cores_are_assigned_jobs cores scheme now (s : sched) :
  reachable cores scheme now s →
  busy_cores s = assigned_jobs s ∧
  Z.of_nat (busy_cores s) ≤ cores ∧
  Forall (λ c, c = 0 ∨ c = 1) (core_arr s) ∧
  (∀ p j, mem s !! p = Some j → core_id j ≠ -1 → p ∈ elems (head s)).
Proof.
  intros Hreach. pose proof (reachable_wf _ _ _ _ Hreach) as Hwf.
  pose proof (wf_cores s Hwf) as Hcw.
  destruct (reachable_config _ _ _ _ Hreach) as [Hnc _].
  split_and!.
  - by apply wf_counts.
  - rewrite <-Hnc, (cw_len _ _ _ _ Hcw). unfold busy_cores.
    pose proof (length_filter (λ c, c ≠ 0) (core_arr s)). lia.
  - apply Hcw.
  - intros p j Hj Hc.
    by destruct (cw_assign _ _ _ _ Hcw p _ (field_lookup core_id s p j Hj) Hc).
Qed.

(** Two cores under PSJF: three arrivals, the third one preempts. *)
Definition psjf_three_arrivals : list event :=
  [NewJob 0 0 9 0; NewJob 1 1 8 0; NewJob 2 3 2 0].

Lemma busy_cores_are_assigned_jobs_witness :
  let now := run_time 2 PSJF psjf_three_arrivals in
  let s := run_state 2 PSJF psjf_three_arrivals in
  reachable 2 PSJF now s ∧
  busy_cores s = 2%nat ∧
  busy_cores s = assigned_jobs s ∧
  Z.of_nat (busy_cores s) ≤ 2 ∧
  Forall (λ c, c = 0 ∨ c = 1) (core_arr s) ∧
  (∀ p j, mem s !! p = Some j → core_id j ≠ -1 → p ∈ elems (head s)).
Proof.
  intros now s.
  assert (run_ok 2 PSJF psjf_three_arrivals = true) as Hok
    by (vm_compute; reflexivity).
  pose proof (run_reachable 2 PSJF psjf_three_arrivals Hok) as Hreach.
  split; [exact Hreach|]. split; [vm_compute; reflexivity|].
  exact (busy_cores_are_assigned_jobs 2 PSJF now s Hreach).
Defined.

(** * Round robin: the turns of the queued jobs *)

Lemma queue_jobs_lookup s i a :
  wf s → queue_jobs s !! i = Some a →
  ∃ p, elems (head s) !! i = Some p ∧ mem s !! p = Some a.
Proof.
  intros Hwf. unfold queue_jobs.
  pose proof (wf_queue_valid s Hwf) as Hv. revert i Hv.
  induction (elems (head s)) as [|p q IH]; intros i Hv Hi; [done|].
  destruct (lookup_lt_is_Some_2 (mem s) p) as [j Hj]; [apply Hv; by left|].
  cbn in Hi. rewrite Hj in Hi. cbn in Hi. destruct i as [|i].
  - cbn in Hi. injection Hi as <-. by exists p.
  - cbn in Hi. apply IH in Hi; [done|]. intros p' Hp'. apply Hv. by right.
Qed.

(** C10. Under RR, in every state reached through handler calls that meet
    their preconditions, the [turn] of a job of the queue is its rank: the
    turns of the queued jobs are pairwise distinct, and [compare4], the
    comparer of the queue, puts a queued job before another exactly when its
    rank is smaller, and ties two queued jobs only when they are the same
    entry: a strict total order on the members of the queue. *)
Theorem rr_turns_distinct cores now (s : sched) :
  reachable cores RR now s →
  comparer (head s) = compare4 ∧
  ∀ i i' a b,
    queue_jobs s !! i = Some a → queue_jobs s !! i' = Some b →
    (i ≠ i' → turn a ≠ turn b) ∧
    (compare4 a b < 0 ↔ (i < i')%nat) ∧
    (compare4 a b = 0 ↔ i = i').
Proof.
  intros Hreach. pose proof (reachable_wf _ _ _ _ Hreach) as Hwf.
  destruct (reachable_config _ _ _ _ Hreach) as [_ Hsch].
  split; [by apply (wf_cmp4 s Hwf)|].
  intros i i' a b (p & Hp & Ha)%queue_jobs_lookup (p' & Hp' & Hb)%queue_jobs_lookup;
    [|done..].
  pose proof (wf_turn s Hwf Hsch i p Hp) as Hta.
  pose proof (wf_turn s Hwf Hsch i' p' Hp') as Htb.
  rewrite (field_lookup turn s p a Ha) in Hta.
  rewrite (field_lookup turn s p' b Hb) in Htb.
  injection Hta as Hta. injection Htb as Htb.
  pose proof (lookup_lt_Some _ _ _ Hp). pose proof (lookup_lt_Some _ _ _ Hp').
  pose proof (wf_queue_length s Hwf). pose proof (wf_mem_bound s Hwf).
  unfold compare4. rewrite Hta, Htb.
  rewrite sub32_small by (unfold int_range, INT_MIN, INT_MAX in *; lia). lia.
Qed.

(** Two cores under RR: three arrivals, two expiries and a completion. *)
Definition rr_three_jobs : list event :=
  [NewJob 0 0 5 0; NewJob 1 1 3 0; NewJob 2 2 3 0;
   QuantumExpired 0 3; QuantumExpired 1 4; JobFinished 0 2 6].

Lemma rr_turns_distinct_witness :
  let now := run_time 2 RR rr_three_jobs in
  let s := run_state 2 RR rr_three_jobs in
  reachable 2 RR now s ∧
  length (queue_jobs s) = 2%nat ∧
  comparer (head s) = compare4 ∧
  ∀ i i' a b,
    queue_jobs s !! i = Some a → queue_jobs s !! i' = Some b →
    (i ≠ i' → turn a ≠ turn b) ∧
    (compare4 a b < 0 ↔ (i < i')%nat) ∧
    (compare4 a b = 0 ↔ i = i').
Proof.
  intros now s.
  assert (run_ok 2 RR rr_three_jobs = true) as Hok by (vm_compute; reflexivity).
  pose proof (run_reachable 2 RR rr_three_jobs Hok) as Hreach.
  split; [exact Hreach|]. split; [vm_compute; reflexivity|].
  exact (rr_turns_distinct 2 now s Hreach).
Defined.

(** * scheduler_new_job: the idle core and the preemption *)

(** A job that was there before the arrival is changed at most in its
    remaining time and its [next] link by the first part of the call. *)
Lemma arrived_old_eq s job_number time running_time priority m2 p j :
  arrived s job_number time running_time priority m2 →
  mem s !! p = Some j →
  ∃ j', m2 !! p = Some j' ∧
        j' = set_remaining_time (remaining_time j') (set_next (next j') j).
Proof.
  intros Hm2 Hp. pose proof (lookup_lt_Some _ _ _ Hp) as Hlt.
  assert (∃ j1, (linked (mem s)
                 ++ [fresh_job job_number time running_time priority]) !! p
                = Some j1 ∧ j1 = set_next (next j1) j) as (j1 & Hj1 & Heq1).
  { rewrite lookup_app_l by (by rewrite linked_length).
    unfold linked. rewrite list_lookup_alter. case_decide.
    - subst p. rewrite Hp. cbn. eauto.
    - exists j. split; [done|]. by destruct j. }
  destruct (Forall2_lookup_l _ _ _ _ _ Hm2 Hj1) as (j' & Hj' & [->|[_ ->]]).
  - exists j1. split; [done|]. rewrite Heq1. by destruct j.
  - eexists. split; [done|]. rewrite Heq1. by destruct j.
Qed.

(** C8. When [scheduler_new_job] is called, under its preconditions, in a
    reachable state where some core is idle, the call returns the index [i]
    of the lowest-indexed idle core; the new job (at the next free address)
    has waiting time 0, response time 0 and [core_id] [i], and under RR its
    turn is the queue size before the call; the job is in the queue, which
    has grown by one, and core [i] is marked busy. *)
Theorem new_job_takes_lowest_idle_core cores scheme now (s : sched)
    (job_number time running_time priority : Z) :
  reachable cores scheme now s →
  valid_event now s (NewJob job_number time running_time priority) →
  (∃ c : nat, core_arr s !! c = Some 0) →
  ∃ (i : nat) s' j,
    core_arr s !! i = Some 0 ∧
    (∀ i', (i' < i)%nat → core_arr s !! i' ≠ Some 0) ∧
    scheduler_new_job s job_number time running_time priority
    = Some (Z.of_nat i, s') ∧
    mem s' !! length (mem s) = Some j ∧
    id j = job_number ∧ arr_time j = time ∧ duration j = running_time ∧
    wait_time j = 0 ∧ response_time j = 0 ∧ core_id j = Z.of_nat i ∧
    (sch s = RR → turn j = Z.of_nat (length (elems (head s)))) ∧
    length (mem s) ∈ elems (head s') ∧
    length (elems (head s')) = S (length (elems (head s))) ∧
    core_arr s' !! i = Some 1.
Proof.
  intros Hreach (_ & Hok & _) (c & Hc).
  pose proof (reachable_wf _ _ _ _ Hreach) as Hwf.
  destruct (new_job_exec s job_number time running_time priority Hwf Hok)
    as (r & s' & Hex & Hout).
  destruct Hout as [i k m2 Hm2 Hrank Hi Hlow
                   |k v jv m2 Hm2 Hrank Hbusy Hpre Hlt Hv Hjv Hcv
                   |k m2 Hm2 Hrank Hbusy Hge];
    [|by destruct (Hbusy c)..].
  exists i. eexists _, _. split_and!; [done|done|exact Hex| |..]; cbn.
  - rewrite list_lookup_alter_eq, (arrived_fresh _ _ _ _ _ _ Hm2). done.
  - solve_field.
  - solve_field.
  - solve_field.
  - solve_field.
  - solve_field.
  - solve_field.
  - intros Hrr. unfold stamp. by rewrite decide_True.
  - rewrite insert_at_perm. by left.
  - by rewrite insert_at_perm.
  - apply list_lookup_insert_eq. by eapply lookup_lt_Some.
Qed.

(** Two cores under FCFS, one of them taken: the arrival gets core 1. *)
Lemma new_job_takes_lowest_idle_core_witness :
  let now := run_time 2 FCFS [NewJob 0 0 9 0] in
  let s := run_state 2 FCFS [NewJob 0 0 9 0] in
  reachable 2 FCFS now s ∧
  valid_event now s (NewJob 1 2 4 0) ∧
  core_arr s !! 1%nat = Some 0 ∧
  ∃ (i : nat) s' j,
    core_arr s !! i = Some 0 ∧
    (∀ i', (i' < i)%nat → core_arr s !! i' ≠ Some 0) ∧
    scheduler_new_job s 1 2 4 0 = Some (Z.of_nat i, s') ∧
    mem s' !! length (mem s) = Some j ∧
    id j = 1 ∧ arr_time j = 2 ∧ duration j = 4 ∧
    wait_time j = 0 ∧ response_time j = 0 ∧ core_id j = Z.of_nat i ∧
    (sch s = RR → turn j = Z.of_nat (length (elems (head s)))) ∧
    length (mem s) ∈ elems (head s') ∧
    length (elems (head s')) = S (length (elems (head s))) ∧
    core_arr s' !! i = Some 1.
Proof.
  intros now s.
  assert (run_ok 2 FCFS [NewJob 0 0 9 0] = true) as Hok
    by (vm_compute; reflexivity).
  pose proof (run_reachable 2 FCFS [NewJob 0 0 9 0] Hok) as Hreach.
  assert (valid_event now s (NewJob 1 2 4 0)) as Hev
    by (apply check_event_sound; vm_compute; reflexivity).
  assert (core_arr s !! 1%nat = Some 0) as Hidle by (vm_compute; reflexivity).
  split; [exact Hreach|]. split; [exact Hev|]. split; [exact Hidle|].
  exact (new_job_takes_lowest_idle_core 2 FCFS now s 1 2 4 0 Hreach Hev
           (ex_intro _ 1%nat Hidle)).
Defined.

Lemma evict_old_fields time j j' :
  j' = set_remaining_time (remaining_time j') (set_next (next j') j) →
  remaining_time (evict time j') = remaining_at time j ∧
  duration (evict time j') = duration j ∧
  (remaining_at time j = duration j →
   response_time (evict time j') = -1 ∧ wait_time (evict time j') = -1 ∧
   start_wait (evict time j') = -1) ∧
  (remaining_at time j ≠ duration j →
   response_time (evict time j') = response_time j ∧
   wait_time (evict time j') = wait_time j ∧
   start_wait (evict time j') = time).
Proof.
  intros ->. unfold evict. cbn.
  change (remaining_at time _) with (remaining_at time j).
  case_decide; cbn; split_and!; try done; intros; congruence.
Qed.

(** C7. Take a call of [scheduler_new_job], under its preconditions, in a
    reachable state, and a job that holds a core before the call and none
    after it: the victim of a preemption. Then the policy is PSJF or PPRI,
    the call returns the core of the victim, and the remaining time of the
    victim is recomputed for the time of the call. When this remaining time
    equals its duration, its [response_time], [wait_time] and [start_wait]
    are all -1 after the call; otherwise [response_time] and [wait_time]
    are as before the call and [start_wait] is the time of the call. *)
Theorem preempted_victim_fields cores scheme now (s s' : sched)
    (job_number time running_time priority r : Z) (v : ptr) (jv jv' : job_t) :
  reachable cores scheme now s →
  valid_event now s (NewJob job_number time running_time priority) →
  scheduler_new_job s job_number time running_time priority = Some (r, s') →
  mem s !! v = Some jv → core_id jv ≠ -1 →
  mem s' !! v = Some jv' → core_id jv' = -1 →
  (sch s = PSJF ∨ sch s = PPRI) ∧
  r = core_id jv ∧
  remaining_time jv' = remaining_at time jv ∧
  duration jv' = duration jv ∧
  (remaining_at time jv = duration jv →
   response_time jv' = -1 ∧ wait_time jv' = -1 ∧ start_wait jv' = -1) ∧
  (remaining_at time jv ≠ duration jv →
   response_time jv' = response_time jv ∧ wait_time jv' = wait_time jv ∧
   start_wait jv' = time).
Proof.
  intros Hreach (_ & Hok & _) Hcall Hv Hc Hv' Hc'.
  pose proof (reachable_wf _ _ _ _ Hreach) as Hwf.
  destruct (new_job_exec s job_number time running_time priority Hwf Hok)
    as (r0 & s0 & Hex & Hout).
  rewrite Hex in Hcall. injection Hcall as -> ->.
  pose proof (lookup_lt_Some _ _ _ Hv) as Hvn.
  destruct Hout as [i k m2 Hm2 Hrank Hi Hlow
                   |k v0 jv0 m2 Hm2 Hrank Hbusy Hpre Hlt Hv0 Hjv0 Hcv0
                   |k m2 Hm2 Hrank Hbusy Hge]; cbn in Hv';
    destruct (arrived_old_eq _ _ _ _ _ _ _ _ Hm2 Hv) as (j2 & Hj2 & Heq).
  - exfalso. rewrite list_lookup_alter_ne, Hj2 in Hv' by lia.
    injection Hv' as <-. rewrite Heq in Hc'. by apply Hc.
  - rewrite list_lookup_alter_ne in Hv' by lia.
    destruct (decide (v0 = v)) as [->|Hne].
    + rewrite list_lookup_alter_eq, Hj2 in Hv'. injection Hv' as <-.
      assert (jv0 = j2) as -> by congruence.
      split; [done|]. split; [by rewrite Heq|].
      by apply evict_old_fields.
    + exfalso. rewrite list_lookup_alter_ne, Hj2 in Hv' by done.
      injection Hv' as <-. rewrite Heq in Hc'. by apply Hc.
  - exfalso. rewrite list_lookup_alter_ne, Hj2 in Hv' by lia.
    injection Hv' as <-. rewrite Heq in Hc'. by apply Hc.
Qed.

(** One core under PSJF. Job 0 (duration 10) runs from time 0 on.
    At time 2 job 1 (duration 2) preempts it: job 0 has run, its statistics
    stay. *)
Lemma preempted_victim_fields_witness :
  let now := run_time 1 PSJF [NewJob 0 0 10 0] in
  let s := run_state 1 PSJF [NewJob 0 0 10 0] in
  let jv := Job 0 0 10 0 10 0 (-1) 0 (-1) (-1) 0 None in
  let jv' := Job 0 0 10 0 8 0 2 0 (-1) (-1) (-1) (Some 1%nat) in
  ∃ s',
    reachable 1 PSJF now s ∧
    valid_event now s (NewJob 1 2 2 0) ∧
    scheduler_new_job s 1 2 2 0 = Some (0, s') ∧
    mem s !! 0%nat = Some jv ∧ core_id jv ≠ -1 ∧
    mem s' !! 0%nat = Some jv' ∧ core_id jv' = -1 ∧
    (sch s = PSJF ∨ sch s = PPRI) ∧
    0 = core_id jv ∧
    remaining_time jv' = remaining_at 2 jv ∧
    duration jv' = duration jv ∧
    (remaining_at 2 jv = duration jv →
     response_time jv' = -1 ∧ wait_time jv' = -1 ∧ start_wait jv' = -1) ∧
    (remaining_at 2 jv ≠ duration jv →
     response_time jv' = response_time jv ∧ wait_time jv' = wait_time jv ∧
     start_wait jv' = 2).
Proof.
  intros now s jv jv'.
  assert (run_ok 1 PSJF [NewJob 0 0 10 0] = true) as Hok
    by (vm_compute; reflexivity).
  pose proof (run_reachable 1 PSJF [NewJob 0 0 10 0] Hok) as Hreach.
  assert (valid_event now s (NewJob 1 2 2 0)) as Hev
    by (apply check_event_sound; vm_compute; reflexivity).
  destruct (handle_total now s (NewJob 1 2 2 0)
              (reachable_wf _ _ _ _ Hreach) Hev) as (r & s' & Hcall).
  rewrite handle_new_job in Hcall.
  assert (r = 0) as ->.
  { assert (fst <$> scheduler_new_job s 1 2 2 0 = Some 0) as Hr
      by (vm_compute; reflexivity).
    rewrite Hcall in Hr. by injection Hr. }
  assert (mem s !! 0%nat = Some jv) as Hv by (vm_compute; reflexivity).
  assert (mem s' !! 0%nat = Some jv') as Hv'.
  { assert ((λ x, mem x.2 !! 0%nat) <$> scheduler_new_job s 1 2 2 0
            = Some (Some jv')) as Hm by (vm_compute; reflexivity).
    rewrite Hcall in Hm. by injection Hm. }
  assert (core_id jv ≠ -1) as Hc by (by vm_compute).
  assert (core_id jv' = -1) as Hc' by reflexivity.
  exists s'. do 7 (split; [assumption|]).
  exact (preempted_victim_fields 1 PSJF now s s' 1 2 2 0 0 0%nat jv jv'
           Hreach Hev Hcall Hv Hc Hv' Hc').
Defined.

(** * No preemption under FCFS, SJF and PRI *)

(** C6. Under FCFS, SJF or PRI, take a reachable state, a job that holds a
    core in it, and any handler call that meets its preconditions, other
    than the [scheduler_job_finished] call for that very job: after the
    call the job still has the same [core_id], and its core is still marked
    busy. This covers [scheduler_new_job]: it neither changes the
    [core_id] of a running job nor frees its core. *)
Theorem no_preemption_without_preemptive_policy cores scheme now
    (s s' : sched) (e : event) (r : Z) (p : ptr) (j : job_t) :
  scheme = FCFS ∨ scheme = SJF ∨ scheme = PRI →
  reachable cores scheme now s →
  valid_event now s e → handle s e = Some (r, s') →
  mem s !! p = Some j → core_id j ≠ -1 →
  (∀ c t, e ≠ JobFinished c (id j) t) →
  ∃ j', mem s' !! p = Some j' ∧ core_id j' = core_id j ∧
        core_arr s' !! Z.to_nat (core_id j) = Some 1.
Proof.
  intros Hscheme Hreach Hev He Hp Hc Hother.
  pose proof (reachable_wf _ _ _ _ Hreach) as Hwf.
  destruct (reachable_config _ _ _ _ Hreach) as [_ Hsch].
  pose proof (wf_cores s Hwf) as Hcw.
  pose proof (field_lookup core_id s p j Hp) as Hcid.
  destruct (cw_assign _ _ _ _ Hcw p _ Hcid Hc) as (_ & Hc0 & Hc1).
  pose proof (lookup_lt_Some _ _ _ Hp) as Hpn.
  destruct e as [n t d pr|c n t|c t]; cbn in Hev, He.
  - destruct Hev as (_ & Hok & _).
    destruct (new_job_exec s n t d pr Hwf Hok) as (r' & s'' & Hex & Hout).
    rewrite Hex in He. injection He as <- <-.
    destruct Hout as [i k m2 Hm2 Hrank Hi Hlow
                     |k v0 jv0 m2 Hm2 Hrank Hbusy Hpre Hlt Hv0 Hjv0 Hcv0
                     |k m2 Hm2 Hrank Hbusy Hge];
      destruct (arrived_old_eq _ _ _ _ _ _ _ _ Hm2 Hp) as (j2 & Hj2 & Heq).
    + exists j2. cbn. rewrite list_lookup_alter_ne by lia.
      split_and!; [done|by rewrite Heq|].
      destruct (decide (i = Z.to_nat (core_id j))) as [->|Hne].
      * apply list_lookup_insert_eq. by eapply lookup_lt_Some.
      * by rewrite list_lookup_insert_ne.
    + exfalso. rewrite Hsch in Hpre.
      destruct Hscheme as [-> | [-> | ->]]; by destruct Hpre.
    + exists j2. cbn. rewrite list_lookup_alter_ne by lia.
      split_and!; [done|by rewrite Heq|done].
  - destruct Hev as (_ & Hon).
    destruct (job_finished_exec s c n t Hwf Hon) as (r' & s'' & Hex & Hout).
    rewrite Hex in He. injection He as <- <-.
    destruct Hout as [k p0 j0 m3 r0 s0 Hk Hj0 Hid0 Hcid0 Hcore _ Hm3 _ Hd].
    assert (sch s ≠ RR) as Hnrr.
    { rewrite Hsch. destruct Hscheme as [-> | [-> | ->]]; done. }
    specialize (Hm3 Hnrr). subst m3.
    assert (p0 ≠ p) as Hpp0.
    { intros ->. assert (j0 = j) as -> by congruence.
      apply (Hother c t). by rewrite Hid0. }
    assert (Z.to_nat c ≠ Z.to_nat (core_id j)) as Hcc.
    { intros Heq. apply Hpp0.
      pose proof (field_lookup core_id s p0 j0 Hj0) as Hcid0'.
      eapply (cw_inj _ _ _ _ Hcw p0 p (core_id j)); [|done..].
      rewrite Hcid0'. f_equal.
      destruct (cw_assign _ _ _ _ Hcw p0 _ Hcid0') as (_ & ? & _); lia. }
    destruct Hd as [Hall|k' p' j' Hk' Hj' Hcj' Hact]; cbn in *.
    + exists j. rewrite list_lookup_alter_ne by done.
      by rewrite list_lookup_insert_ne.
    + assert (p' ≠ p) as Hpp'.
      { intros ->. rewrite list_lookup_alter_ne in Hj' by done. congruence. }
      exists j. rewrite !list_lookup_alter_ne by done.
      by rewrite !list_lookup_insert_ne.
  - exfalso. destruct Hev as (_ & Hrr & _). rewrite Hsch in Hrr.
    destruct Hscheme as [-> | [-> | ->]]; done.
Qed.

(** One core under FCFS: job 0 runs, job 1 arrives and waits. *)
Lemma no_preemption_without_preemptive_policy_witness :
  let now := run_time 1 FCFS [NewJob 0 0 5 0] in
  let s := run_state 1 FCFS [NewJob 0 0 5 0] in
  let j := Job 0 0 5 0 5 0 (-1) 0 (-1) (-1) 0 None in
  let e := NewJob 1 1 3 0 in
  ∃ r s',
    (FCFS = FCFS ∨ FCFS = SJF ∨ FCFS = PRI) ∧
    reachable 1 FCFS now s ∧
    valid_event now s e ∧ handle s e = Some (r, s') ∧
    mem s !! 0%nat = Some j ∧ core_id j ≠ -1 ∧
    (∀ c t, e ≠ JobFinished c (id j) t) ∧
    ∃ j', mem s' !! 0%nat = Some j' ∧ core_id j' = core_id j ∧
          core_arr s' !! Z.to_nat (core_id j) = Some 1.
Proof.
  intros now s j e.
  assert (run_ok 1 FCFS [NewJob 0 0 5 0] = true) as Hok
    by (vm_compute; reflexivity).
  pose proof (run_reachable 1 FCFS [NewJob 0 0 5 0] Hok) as Hreach.
  assert (valid_event now s e) as Hev
    by (apply check_event_sound; vm_compute; reflexivity).
  destruct (handle_total now s e (reachable_wf _ _ _ _ Hreach) Hev)
    as (r & s' & Hcall).
  assert (mem s !! 0%nat = Some j) as Hp by (vm_compute; reflexivity).
  assert (core_id j ≠ -1) as Hc by (by vm_compute).
  assert (∀ c t, e ≠ JobFinished c (id j) t) as Hother by (by intros c t).
  assert (FCFS = FCFS ∨ FCFS = SJF ∨ FCFS = PRI) as Hscheme by (by left).
  exists r, s'. do 7 (split; [assumption|]).
  exact (no_preemption_without_preemptive_policy 1 FCFS now s s' e r 0%nat j
           Hscheme Hreach Hev Hcall Hp Hc Hother).
Defined.

(** * Round robin: the quantum expires while another job is ready *)

(** C9. Under RR (with one core, or more), in a reachable state whose queue
    holds exactly two jobs, one that runs on core [core] and one that is
    ready ([core_id] -1), [scheduler_quantum_expired] on that core, called
    at a time not before the last event, returns the id of the ready job,
    which is not -1. *)
Theorem quantum_expired_dispatches_ready_job cores now (s : sched)
    (core time : Z) (pr pw : ptr) (jr jw : job_t) :
  reachable cores RR now s →
  now ≤ time ≤ INT_MAX →
  elems (head s) ≡ₚ [pr; pw] →
  mem s !! pr = Some jr → mem s !! pw = Some jw →
  core_id jr = core → core ≠ -1 → core_id jw = -1 →
  ∃ s', scheduler_quantum_expired s core time = Some (id jw, s') ∧
        id jw ≠ -1.
Proof.
  intros Hreach Htime Hperm Hr Hw Hcr Hcore Hcw.
  pose proof (reachable_wf _ _ _ _ Hreach) as Hwf.
  destruct (reachable_config _ _ _ _ Hreach) as [_ Hsch].
  pose proof (wf_cores s Hwf) as Hcores.
  assert (field core_id s !! pr = Some core) as Hfr
    by (rewrite <-Hcr; by apply field_lookup).
  assert (core_in_use s core) as Huse.
  { exists pr. split_and!; [|done..]. rewrite Hperm. by left. }
  destruct (quantum_expired_exec s core time Hwf Hsch Huse)
    as (r & s' & Hex & Hout).
  destruct Hout as [k p j m3 k' p' j' Hk Hj Hcid _ Hrel Hturn Hk' Hj' Hcj' Hact].
  assert (p = pr) as ->.
  { eapply (cw_inj _ _ _ _ Hcores p pr core); [|done..].
    rewrite <-Hcid. by apply field_lookup. }
  assert (delete k (elems (head s)) = [pw]) as Hdel.
  { apply Permutation_singleton_r. apply (inj (cons pr)).
    by rewrite <-(delete_perm _ _ _ Hk). }
  rewrite Hdel in Hk', Hact. cbn in Hk', Hact.
  assert (pw ≠ pr) as Hne by (intros ->; congruence).
  assert (∃ j3, m3 !! pw = Some j3 ∧ j3 = set_turn (turn j3) jw)
    as (j3 & Hj3 & Heq3).
  { assert (alter (suspend time) pr (mem s) !! pw = Some jw) as Hw'
      by (by rewrite list_lookup_alter_ne).
    destruct (Forall2_lookup_l _ _ _ _ _ Hrel Hw') as (j3 & Hj3 & Hrel3).
    by exists j3. }
  assert (core_id j3 = -1) as Hc3 by (by rewrite Heq3).
  destruct k' as [|k'].
  - injection Hk' as <-. assert (j' = j3) as -> by congruence.
    eexists. replace (id jw) with (id j3) by (by rewrite Heq3).
    split; [exact Hex|]. rewrite Heq3. cbn.
    pose proof (wf_id_lookup s Hwf pw jw Hw). lia.
  - exfalso. apply (Hact 0%nat pw j3); [lia|done..].
Qed.

(** One core under RR: job 0 runs, job 1 is ready; the quantum expires. *)
Lemma quantum_expired_dispatches_ready_job_witness :
  let now := run_time 1 RR [NewJob 0 0 5 0; NewJob 1 1 3 0] in
  let s := run_state 1 RR [NewJob 0 0 5 0; NewJob 1 1 3 0] in
  let jr := Job 0 0 5 0 4 0 (-1) 0 (-1) 0 0 (Some 1%nat) in
  let jw := Job 1 1 3 0 3 (-1) (-1) (-1) (-1) 1 (-1) None in
  reachable 1 RR now s ∧
  now ≤ 2 ≤ INT_MAX ∧
  elems (head s) ≡ₚ [0%nat; 1%nat] ∧
  mem s !! 0%nat = Some jr ∧ mem s !! 1%nat = Some jw ∧
  core_id jr = 0 ∧ 0 ≠ -1 ∧ core_id jw = -1 ∧
  ∃ s', scheduler_quantum_expired s 0 2 = Some (id jw, s') ∧ id jw ≠ -1.
Proof.
  intros now s jr jw.
  assert (run_ok 1 RR [NewJob 0 0 5 0; NewJob 1 1 3 0] = true) as Hok
    by (vm_compute; reflexivity).
  pose proof (run_reachable 1 RR [NewJob 0 0 5 0; NewJob 1 1 3 0] Hok)
    as Hreach.
  assert (now ≤ 2 ≤ INT_MAX) as Htime by (by vm_compute).
  assert (elems (head s) = [0%nat; 1%nat]) as Hel by (vm_compute; reflexivity).
  assert (elems (head s) ≡ₚ [0%nat; 1%nat]) as Hperm
    by (exact (eq_ind_r (λ l, l ≡ₚ [0%nat; 1%nat]) (Permutation_refl _) Hel)).
  assert (mem s !! 0%nat = Some jr) as Hr by (vm_compute; reflexivity).
  assert (mem s !! 1%nat = Some jw) as Hw by (vm_compute; reflexivity).
  assert (core_id jr = 0) as Hcr by reflexivity.
  assert (0 ≠ -1) as Hcore by done.
  assert (core_id jw = -1) as Hcw by reflexivity.
  do 8 (split; [assumption|]).
  exact (quantum_expired_dispatches_ready_job 1 now s 0 2 0%nat 1%nat jr jw
           Hreach Htime Hperm Hr Hw Hcr Hcore Hcw).
Defined.

(** * The turnaround time *)



(** * The response time *)

(** The [response_time] of the job at address [p]; it counts as unset as
    long as the job is not allocated. *)
Definition response_of (p : ptr) (s : sched) : Z :=
  default (-1) (field response_time s !! p).

(** The job at address [p] is on a core. *)
Definition running (p : ptr) (s : sched) : bool :=
  bool_decide (default (-1) (field core_id s !! p) ≠ -1).

(** The call that took [s] to [s'] has stored a value other than -1 into the
    [response_time] of the job at [p]. The handlers store such a value only
    where the field holds -1 (into the job just allocated, and behind the
    test [response_time == -1]), so that every such store shows as a
    change. *)
Definition response_set (p : ptr) (s s' : sched) : bool :=
  bool_decide (response_of p s' ≠ -1 ∧ response_of p s' ≠ response_of p s).

(** How often the run of [es] from [s] sets the [response_time] of the job
    at [p]. *)
Fixpoint response_sets (p : ptr) (s : sched) (es : list event) : nat :=
  match es with
  | [] => 0
  | e :: es' =>
      match handle s e with
      | Some (_, s') =>
          ((if response_set p s s' then 1 else 0) + response_sets p s' es')%nat
      | None => 0
      end
  end.

(** The time of the first event of the run that leaves the job at [p] on a
    core. *)
Fixpoint first_dispatch (p : ptr) (s : sched) (es : list event) : option Z :=
  match es with
  | [] => None
  | e :: es' =>
      match handle s e with
      | Some (_, s') =>
          if running p s' then Some (event_time e) else first_dispatch p s' es'
      | None => None
      end
  end.

(** [response_time] is set exactly once: over the run of [es] from the
    start, every job that was dispatched had its [response_time] set once,
    and holds the time of its first dispatch minus its arrival time. *)
Definition response_set_once (cores : Z) (scheme : scheme_t)
    (es : list event) : Prop :=
  ∀ p j t,
    mem (run_state cores scheme es) !! p = Some j →
    first_dispatch p (scheduler_start_up cores scheme) es = Some t →
    response_sets p (scheduler_start_up cores scheme) es = 1%nat ∧
    response_time j = t - arr_time j ∧ 0 ≤ response_time j.

(** One core under PPRI. Job 0 runs from 0 to 5; job 1 arrives at time 1
    and gets the core at time 5; job 2, more urgent, arrives at time 5 too
    and preempts job 1, which has not run any cycle; job 2 finishes at
    time 6, job 1 runs from 6 to 11. *)
Definition ppri_restart : list event :=
  [NewJob 0 0 5 1; NewJob 1 1 5 2; JobFinished 0 0 5; NewJob 2 5 1 0;
   JobFinished 0 2 6; JobFinished 0 1 11].

(** In this run, every call of which meets its preconditions, the
    [response_time] of job 1 is set twice: to 4 at its first dispatch, at
    time 5, and, after the preemption has reset it, to 5 at time 6. *)
Lemma response_time_set_twice :
  run_ok 1 PPRI ppri_restart = true ∧
  first_dispatch 1 (scheduler_start_up 1 PPRI) ppri_restart = Some 5 ∧
  field arr_time (run_state 1 PPRI ppri_restart) !! 1%nat = Some 1 ∧
  response_sets 1 (scheduler_start_up 1 PPRI) ppri_restart = 2%nat ∧
  response_of 1 (run_state 1 PPRI ppri_restart) = 5 ∧
  ¬ response_set_once 1 PPRI ppri_restart.
Proof.
  assert (response_sets 1 (scheduler_start_up 1 PPRI) ppri_restart = 2%nat)
    as Hsets by (vm_compute; reflexivity).
  split_and!; try (vm_compute; reflexivity).
  intros Honce.
  assert (is_Some (mem (run_state 1 PPRI ppri_restart) !! 1%nat)) as [j Hj]
    by (vm_compute; eauto).
  destruct (Honce 1%nat j 5 Hj) as [Hone _]; [vm_compute; reflexivity|].
  rewrite Hsets in Hone. discriminate.
Qed.

Lemma response_of_lookup p s j :
  mem s !! p = Some j → response_of p s = response_time j.
Proof. intros Hp. unfold response_of. by rewrite (field_lookup _ _ _ _ Hp). Qed.

Lemma response_of_absent p s :
  (length (mem s) ≤ p)%nat → response_of p s = -1.
Proof.
  intros Hp. unfold response_of.
  rewrite lookup_ge_None_2; [done|]. by rewrite field_length.
Qed.

Lemma response_of_field p s s' :
  field response_time s' = field response_time s →
  response_of p s' = response_of p s.
Proof. unfold response_of. by intros ->. Qed.

Lemma resume_response time j :
  response_time (resume time j)
  = if decide (response_time j = -1) then sub32 time (arr_time j)
    else response_time j.
Proof. unfold resume. repeat case_decide; done. Qed.

(** What one call may do to the [response_time] of a job, [old] before the
    call: leave it, or set it, where it was unset, for a job that the call
    puts on a core. *)
Definition response_step (old time : Z) (j' : job_t) : Prop :=
  response_time j' = old ∨
  (old = -1 ∧ core_id j' ≠ -1 ∧
   response_time j' = time - arr_time j' ∧ 0 ≤ response_time j').

(** The other thing a call may do: the reset of a preemption. *)
Definition response_reset (s : sched) (time : Z) (p : ptr) (j' : job_t)
  : Prop :=
  (sch s = PSJF ∨ sch s = PPRI) ∧
  ∃ j, mem s !! p = Some j ∧ core_id j ≠ -1 ∧ core_id j' = -1 ∧
       remaining_at time j = duration j ∧ response_time j' = -1.

Lemma tinv_arrivals now s time :
  tinv now s → now ≤ time → Forall (λ a, 0 ≤ a ≤ time) (field arr_time s).
Proof.
  intros [_ Htim] Hle. unfold field. apply Forall_fmap.
  eapply Forall_impl; [done|]. intros j [Harr _]. cbn. lia.
Qed.

Lemma new_job_response s n time d pr r s' p j' :
  wf s → 0 ≤ time ≤ INT_MAX →
  new_job_outcome s n time d pr r s' → mem s' !! p = Some j' →
  response_step (response_of p s) time j' ∨ response_reset s time p j'.
Proof.
  intros Hwf Htime Hout Hp'.
  assert (∀ m2 j2, arrived s n time d pr m2 → m2 !! p = Some j2 →
            p ≠ length (mem s) →
            ∃ j, mem s !! p = Some j ∧
                 j2 = set_remaining_time (remaining_time j2)
                        (set_next (next j2) j)) as Hold.
  { intros m2 j2 Hm2 Hj2 Hne. pose proof (lookup_lt_Some _ _ _ Hj2) as Hlt.
    rewrite (arrived_length _ _ _ _ _ _ Hm2) in Hlt.
    destruct (lookup_lt_is_Some_2 (mem s) p) as [j Hj]; [lia|].
    destruct (arrived_old_eq _ _ _ _ _ _ _ _ Hm2 Hj) as (j2' & Hj2' & Heq).
    exists j. split; [done|]. congruence. }
  assert (∀ m2 j2, arrived s n time d pr m2 → m2 !! p = Some j2 →
            p ≠ length (mem s) → response_time j2 = response_of p s) as Hsame.
  { intros m2 j2 Hm2 Hj2 Hne.
    destruct (Hold m2 j2 Hm2 Hj2 Hne) as (j & Hj & ->).
    by rewrite (response_of_lookup _ _ _ Hj). }
  assert (∀ c, c ≠ -1 →
            response_step (response_of (length (mem s)) s) time
              (run_on c (fresh_job n time d pr))) as Hnew.
  { intros c Hc. right. rewrite response_of_absent by done. cbn.
    split_and!; [done..|lia|done]. }
  assert (∀ old j, response_step old time j →
                   response_step old time (stamp s j)) as Hstamp.
  { intros old j. unfold response_step, stamp. by case_decide. }
  destruct Hout as [i k m2 Hm2 Hrank Hi Hlow
                   |k v jv m2 Hm2 Hrank Hbusy Hpre Hlt Hv Hjv Hcv
                   |k m2 Hm2 Hrank Hbusy Hge]; cbn in Hp'.
  - left. destruct (decide (p = length (mem s))) as [->|Hne].
    + rewrite list_lookup_alter_eq, (arrived_fresh _ _ _ _ _ _ Hm2) in Hp'.
      injection Hp' as <-.
      apply Hstamp, Hnew. lia.
    + rewrite list_lookup_alter_ne in Hp' by done. left. by eapply Hsame.
  - destruct (decide (p = length (mem s))) as [->|Hne].
    + rewrite list_lookup_alter_eq in Hp'.
      rewrite list_lookup_alter_ne in Hp'
        by (intros ->; by apply (nj_not_queued s Hwf)).
      rewrite (arrived_fresh _ _ _ _ _ _ Hm2) in Hp'. injection Hp' as <-.
      left. by apply Hnew.
    + rewrite list_lookup_alter_ne in Hp' by done.
      destruct (decide (p = v)) as [->|Hnv].
      * rewrite list_lookup_alter_eq, Hjv in Hp'. injection Hp' as <-.
        destruct (Hold m2 jv Hm2 Hjv Hne) as (j & Hj & Heq).
        destruct (evict_old_fields time j jv Heq) as (_ & _ & Hreset & Hkeep).
        destruct (decide (remaining_at time j = duration j)) as [Hrem|Hrem].
        -- right. split; [done|]. exists j. split_and!; [done| | |done|].
           ++ rewrite Heq in Hcv. exact Hcv.
           ++ apply evict_core_id.
           ++ by apply Hreset.
        -- left. left. rewrite (response_of_lookup _ _ _ Hj). by apply Hkeep.
      * rewrite list_lookup_alter_ne in Hp' by done. left. left.
        by eapply Hsame.
  - left. left. destruct (decide (p = length (mem s))) as [->|Hne].
    + rewrite list_lookup_alter_eq, (arrived_fresh _ _ _ _ _ _ Hm2) in Hp'.
      injection Hp' as <-. rewrite response_of_absent by done. solve_field.
    + rewrite list_lookup_alter_ne in Hp' by done. by eapply Hsame.
Qed.

Lemma resume_step c time j :
  0 ≤ arr_time j ≤ time → time ≤ INT_MAX → c ≠ -1 →
  response_step (response_time j) time (set_core_id c (resume time j)).
Proof.
  intros Harr Htime Hc. unfold response_step.
  change (response_time (set_core_id c (resume time j)))
    with (response_time (resume time j)).
  change (core_id (set_core_id c (resume time j))) with c.
  change (arr_time (set_core_id c (resume time j)))
    with (arr_time (resume time j)).
  replace (arr_time (resume time j)) with (arr_time j) by solve_field.
  rewrite resume_response. case_decide as Hr; [right|by left].
  rewrite sub32_small by (unfold int_range, INT_MIN, INT_MAX in *; lia).
  split_and!; [done..|lia].
Qed.

Lemma dispatch_response s c core time r s' p j' :
  Forall (λ a, 0 ≤ a ≤ time) (field arr_time s) → time ≤ INT_MAX → c ≠ -1 →
  dispatch_outcome s c core time r s' → mem s' !! p = Some j' →
  response_step (response_of p s) time j'.
Proof.
  intros Harr Htime Hc [Hall|k p0 j Hk Hj Hcj Hact] Hp'.
  { left. by rewrite (response_of_lookup _ _ _ Hp'). }
  cbn in Hp'. destruct (decide (p = p0)) as [->|Hne].
  - rewrite list_lookup_alter_eq, Hj in Hp'. injection Hp' as <-.
    rewrite (response_of_lookup _ _ _ Hj). apply resume_step; [|done..].
    apply (Forall_lookup_1 _ _ p0 _ Harr). by apply field_lookup.
  - rewrite list_lookup_alter_ne in Hp' by done.
    left. by rewrite (response_of_lookup _ _ _ Hp').
Qed.

Lemma job_finished_response now s core n time r s' p j' :
  tinv now s → now ≤ time ≤ INT_MAX →
  finish_outcome s core n time r s' → mem s' !! p = Some j' →
  response_step (response_of p s) time j'.
Proof.
  intros Htinv Htime
    [k p0 j m3 r' s'' Hk Hj Hid Hcid Hcore Hrel Hnrr Hturn Hout] Hp'.
  assert (∀ (B : Type) (f : job_t → B),
            (∀ v j, f (set_turn v j) = f j) →
            (∀ j, f (retire (bool_decide (sch s = RR)) time j) = f j) →
            field f (finished_state s core k m3) = field f s) as Hfield.
  { intros B f Hf1 Hf2. unfold field. cbn.
    rewrite (turn_rel_field f _ _ Hf1 Hrel). by apply fmap_alter_same. }
  rewrite <-(response_of_field p s (finished_state s core k m3))
    by (apply Hfield; solve_field).
  eapply dispatch_response; [|lia|exact Hcore|exact Hout|exact Hp'].
  rewrite Hfield by solve_field. apply (tinv_arrivals now); [done|lia].
Qed.

Lemma quantum_expired_response now s core time r s' p j' :
  tinv now s → now ≤ time ≤ INT_MAX →
  quantum_outcome s core time r s' → mem s' !! p = Some j' →
  response_step (response_of p s) time j'.
Proof.
  intros Htinv Htime
    [k p0 j m3 k' p' j3 Hk Hj Hcid Hcore Hrel Hturn Hk' Hj3 Hcj3 Hact] Hp'.
  assert (∀ (B : Type) (f : job_t → B),
            (∀ v j, f (set_turn v j) = f j) →
            (∀ j, f (suspend time j) = f j) →
            f <$> m3 = field f s) as Hfield.
  { intros B f Hf1 Hf2.
    rewrite (turn_rel_field f _ _ Hf1 Hrel). by apply fmap_alter_same. }
  assert (∀ q j3, m3 !! q = Some j3 →
            response_time j3 = response_of q s ∧ 0 ≤ arr_time j3 ≤ time)
    as Hm3.
  { intros q j0 Hq. split.
    - unfold response_of. rewrite <-(Hfield _ response_time) by solve_field.
      by rewrite list_lookup_fmap, Hq.
    - apply (Forall_lookup_1 _ _ q _ (tinv_arrivals now s time Htinv
                                         (proj1 Htime))).
      rewrite <-(Hfield _ arr_time) by solve_field.
      by rewrite list_lookup_fmap, Hq. }
  cbn in Hp'. destruct (decide (p = p')) as [->|Hne].
  - rewrite list_lookup_alter_eq, Hj3 in Hp'. injection Hp' as <-.
    destruct (Hm3 p' j3 Hj3) as [<- Harr]. apply resume_step; [done|lia|done].
  - rewrite list_lookup_alter_ne in Hp' by done.
    left. by apply Hm3.
Qed.

(** C2 (amended). Take a reachable state and any handler call that meets
    its preconditions, at time [event_time e], and a job [j'] of the state
    after the call. Either its [response_time] is what it was before the
    call (-1 for a job that the call has allocated); or it was -1 before
    the call, the call has put the job on a core, and the [response_time]
    is now the time of the call minus the arrival time of the job, which is
    not negative; or the policy is PSJF or PPRI, the call is a
    [scheduler_new_job] that has taken the core from the job while its
    remaining time, recomputed for the time of the call, equals its
    duration, and the [response_time] is back to -1. In any case a job on a
    core has a [response_time] that is not negative. *)
Theorem response_time_changes cores scheme now (s s' : sched) (e : event)
    (r : Z) (p : ptr) (j' : job_t) :
  reachable cores scheme now s → valid_event now s e →
  handle s e = Some (r, s') → mem s' !! p = Some j' →
  (response_time j' = response_of p s ∨
   (response_of p s = -1 ∧ core_id j' ≠ -1 ∧
    response_time j' = event_time e - arr_time j' ∧ 0 ≤ response_time j') ∨
   ((scheme = PSJF ∨ scheme = PPRI) ∧
    (∃ n d pr, e = NewJob n (event_time e) d pr) ∧
    ∃ j, mem s !! p = Some j ∧ core_id j ≠ -1 ∧ core_id j' = -1 ∧
         remaining_at (event_time e) j = duration j ∧
         response_time j' = -1)) ∧
  (core_id j' ≠ -1 → 0 ≤ response_time j').
Proof.
  intros Hreach Hev He Hp'.
  pose proof (reachable_wf _ _ _ _ Hreach) as Hwf.
  pose proof (reachable_tinv _ _ _ _ Hreach) as Htinv.
  destruct (reachable_config _ _ _ _ Hreach) as [_ Hsch].
  split; cycle 1.
  { destruct (handle_tinv now s e r s' Hwf Htinv Hev He) as [_ Htim].
    pose proof (Forall_lookup_1 _ _ _ _ Htim Hp') as [_ Hj'].
    intros Hc. rewrite decide_True in Hj' by done. lia. }
  pose proof (proj1 Htinv) as Hnow.
  destruct e as [n t d pr|c n t|c t]; cbn in Hev, He; cbn [event_time].
  - destruct Hev as (Ht & Hok & _).
    destruct (new_job_exec s n t d pr Hwf Hok) as (r' & s'' & Hex & Hout).
    rewrite Hex in He. injection He as <- <-.
    destruct (new_job_response s n t d pr r' s'' p j' Hwf) as [[?|?]|[? ?]];
      [lia|done|done|by left|by right; left|].
    right; right. rewrite <-Hsch. split; [done|]. split; [|done]. eauto.
  - destruct Hev as (Ht & Hon).
    destruct (job_finished_exec s c n t Hwf Hon) as (r' & s'' & Hex & Hout).
    rewrite Hex in He. injection He as <- <-.
    destruct (job_finished_response now s c n t r' s'' p j')
      as [?|?]; [done..|by left|by right; left].
  - destruct Hev as (Ht & Hrr & Huse).
    destruct (quantum_expired_exec s c t Hwf Hrr Huse)
      as (r' & s'' & Hex & Hout).
    rewrite Hex in He. injection He as <- <-.
    destruct (quantum_expired_response now s c t r' s'' p j')
      as [?|?]; [done..|by left|by right; left].
Qed.

(** One core under PPRI: job 1, on the core since time 5, loses it at time 5
    to job 2, and its [response_time] is reset. *)
Lemma response_time_changes_witness :
  let es := [NewJob 0 0 5 1; NewJob 1 1 5 2; JobFinished 0 0 5] in
  let now := run_time 1 PPRI es in
  let s := run_state 1 PPRI es in
  let e := NewJob 2 5 1 0 in
  let j' := Job 1 1 5 2 5 (-1) (-1) (-1) (-1) (-1) (-1) (Some 2%nat) in
  ∃ r s',
    reachable 1 PPRI now s ∧ valid_event now s e ∧
    handle s e = Some (r, s') ∧ mem s' !! 1%nat = Some j' ∧
    (response_time j' = response_of 1 s ∨
     (response_of 1 s = -1 ∧ core_id j' ≠ -1 ∧
      response_time j' = event_time e - arr_time j' ∧ 0 ≤ response_time j') ∨
     ((PPRI = PSJF ∨ PPRI = PPRI) ∧
      (∃ n d pr, e = NewJob n (event_time e) d pr) ∧
      ∃ j, mem s !! 1%nat = Some j ∧ core_id j ≠ -1 ∧ core_id j' = -1 ∧
           remaining_at (event_time e) j = duration j ∧
           response_time j' = -1)) ∧
    (core_id j' ≠ -1 → 0 ≤ response_time j').
Proof.
  intros es now s e j'.
  assert (run_ok 1 PPRI es = true) as Hok by (vm_compute; reflexivity).
  pose proof (run_reachable 1 PPRI es Hok) as Hreach.
  assert (valid_event now s e) as Hev
    by (apply check_event_sound; vm_compute; reflexivity).
  destruct (handle_total now s e (reachable_wf _ _ _ _ Hreach) Hev)
    as (r & s' & Hcall).
  assert (mem s' !! 1%nat = Some j') as Hp'.
  { assert ((λ x, mem x.2 !! 1%nat) <$> handle s e = Some (Some j')) as Hm
      by (vm_compute; reflexivity).
    rewrite Hcall in Hm. by injection Hm. }
  exists r, s'. do 4 (split; [assumption|]).
  exact (response_time_changes 1 PPRI now s s' e r 1%nat j'
           Hreach Hev Hcall Hp').
Defined.

(** ** Without preemption

    Under the policies that never preempt, [response_time] is indeed set
    once, at the first dispatch. *)

Lemma new_job_arrivals s n time d pr r s' :
  new_job_outcome s n time d pr r s' →
  field arr_time s' = field arr_time s ++ [time].
Proof.
  intros Hout. unfold field at 1.
  destruct Hout as [i k m2 Hm2 Hrank Hi Hlow
                   |k v jv m2 Hm2 Hrank Hbusy Hpre Hlt Hv Hjv Hcv
                   |k m2 Hm2 Hrank Hbusy Hge]; cbn;
    rewrite ?fmap_alter_same by solve_field;
    by rewrite (arrived_field _ _ _ _ _ _ Hm2 arr_time) by solve_field.
Qed.

Lemma dispatch_arrivals s c core time r s' :
  dispatch_outcome s c core time r s' → field arr_time s' = field arr_time s.
Proof.
  intros [Hall|k p j Hk Hj Hcj Hact]; [done|].
  unfold field. cbn. apply fmap_alter_same. solve_field.
Qed.

Lemma handle_arrivals now s e r s' p a :
  wf s → valid_event now s e → handle s e = Some (r, s') →
  field arr_time s !! p = Some a → field arr_time s' !! p = Some a.
Proof.
  intros Hwf Hev He Hp. destruct e as [n t d pr|c n t|c t]; cbn in Hev, He.
  - destruct Hev as (_ & Hok & _).
    destruct (new_job_exec s n t d pr Hwf Hok) as (r' & s'' & Hex & Hout).
    rewrite Hex in He. injection He as <- <-.
    rewrite (new_job_arrivals _ _ _ _ _ _ _ Hout). by apply lookup_app_l_Some.
  - destruct Hev as (_ & Hon).
    destruct (job_finished_exec s c n t Hwf Hon) as (r' & s'' & Hex & Hout).
    rewrite Hex in He. injection He as <- <-.
    destruct Hout as [k p0 j m3 r0 s0 _ _ _ _ _ Hrel _ _ Hd].
    rewrite (dispatch_arrivals _ _ _ _ _ _ Hd). unfold field at 1. cbn.
    rewrite (turn_rel_field arr_time _ _ (λ _ _, eq_refl) Hrel).
    rewrite fmap_alter_same by solve_field. done.
  - destruct Hev as (_ & Hrr & Huse).
    destruct (quantum_expired_exec s c t Hwf Hrr Huse)
      as (r' & s'' & Hex & Hout).
    rewrite Hex in He. injection He as <- <-.
    destruct Hout as [k p0 j m3 k' p' j3 _ _ _ _ Hrel _ _ _ _ _].
    unfold field at 1. cbn. rewrite fmap_alter_same by solve_field.
    rewrite (turn_rel_field arr_time _ _ (λ _ _, eq_refl) Hrel).
    rewrite fmap_alter_same by solve_field. done.
Qed.

Lemma handle_response_kept now s e r s' p j' :
  wf s → tinv now s → valid_event now s e → handle s e = Some (r, s') →
  sch s ≠ PSJF → sch s ≠ PPRI → mem s' !! p = Some j' →
  response_step (response_of p s) (event_time e) j'.
Proof.
  intros Hwf Htinv Hev He Hn1 Hn2 Hp'. pose proof (proj1 Htinv) as Hnow.
  destruct e as [n t d pr|c n t|c t]; cbn in Hev, He; cbn [event_time].
  - destruct Hev as (Ht & Hok & _).
    destruct (new_job_exec s n t d pr Hwf Hok) as (r' & s'' & Hex & Hout).
    rewrite Hex in He. injection He as <- <-.
    destruct (new_job_response s n t d pr r' s'' p j' Hwf)
      as [?|[[?|?] _]]; [lia|done|done|done|done..].
  - destruct Hev as (Ht & Hon).
    destruct (job_finished_exec s c n t Hwf Hon) as (r' & s'' & Hex & Hout).
    rewrite Hex in He. injection He as <- <-.
    by eapply job_finished_response.
  - destruct Hev as (Ht & Hrr & Huse).
    destruct (quantum_expired_exec s c t Hwf Hrr Huse)
      as (r' & s'' & Hex & Hout).
    rewrite Hex in He. injection He as <- <-.
    by eapply quantum_expired_response.
Qed.

Section without_preemption.
Context (cores : Z) (scheme : scheme_t).
Context (Hn1 : scheme ≠ PSJF) (Hn2 : scheme ≠ PPRI).

(** Once set, the [response_time] of a job stays. *)
Lemma response_kept es now s now' s' p j :
  reachable cores scheme now s →
  run_checked now s es = Some (now', s') →
  mem s !! p = Some j → response_time j ≠ -1 →
  response_sets p s es = 0%nat ∧
  ∃ j', mem s' !! p = Some j' ∧ response_time j' = response_time j ∧
        arr_time j' = arr_time j.
Proof.
  revert now s j. induction es as [|e es IH]; intros now s j Hreach; cbn.
  { intros [= <- <-] Hp Hr. eauto. }
  destruct (check_event now s e) eqn:Hchk; [|done].
  apply check_event_sound in Hchk.
  destruct (handle s e) as [[r s1]|] eqn:He; [cbn|done].
  intros Hrun Hp Hr.
  pose proof (reachable_wf _ _ _ _ Hreach) as Hwf.
  pose proof (reachable_tinv _ _ _ _ Hreach) as Htinv.
  destruct (reachable_config _ _ _ _ Hreach) as [_ Hsch].
  assert (field arr_time s1 !! p = Some (arr_time j)) as Harr
    by (eapply handle_arrivals; [done..|by apply field_lookup]).
  apply field_lookup_inv in Harr as (j1 & Hj1 & Harr).
  assert (response_time j1 = response_time j) as Hsame.
  { destruct (handle_response_kept now s e r s1 p j1) as [H|[H _]];
      try done; try congruence;
      rewrite (response_of_lookup _ _ _ Hp) in H; done. }
  destruct (IH (event_time e) s1 j1) as (-> & j' & Hj' & Hr' & Ha');
    [by eapply reach_step|done..|congruence|].
  split.
  - unfold response_set.
    rewrite (response_of_lookup _ _ _ Hp), (response_of_lookup _ _ _ Hj1).
    rewrite bool_decide_eq_false_2; [done|]. intros [_ ?]. congruence.
  - exists j'. split; [done|]. split; congruence.
Qed.

(** Unset, it is set by the first dispatch. *)
Lemma response_set_at_first_dispatch es now s now' s' p t :
  reachable cores scheme now s →
  run_checked now s es = Some (now', s') →
  response_of p s = -1 → first_dispatch p s es = Some t →
  response_sets p s es = 1%nat ∧
  ∃ j', mem s' !! p = Some j' ∧ response_time j' = t - arr_time j' ∧
        0 ≤ response_time j'.
Proof.
  revert now s. induction es as [|e es IH]; intros now s Hreach; cbn; [done|].
  destruct (check_event now s e) eqn:Hchk; [|done].
  apply check_event_sound in Hchk.
  destruct (handle s e) as [[r s1]|] eqn:He; [cbn|done].
  intros Hrun Hunset Hfirst.
  pose proof (reachable_wf _ _ _ _ Hreach) as Hwf.
  pose proof (reachable_tinv _ _ _ _ Hreach) as Htinv.
  destruct (reachable_config _ _ _ _ Hreach) as [_ Hsch].
  assert (reachable cores scheme (event_time e) s1) as Hreach1
    by (by eapply reach_step).
  assert (∀ j1, mem s1 !! p = Some j1 →
            response_step (-1) (event_time e) j1) as Hstep.
  { intros j1 Hj1. rewrite <-Hunset.
    eapply handle_response_kept; try done; congruence. }
  destruct (running p s1) eqn:Hrunning.
  - injection Hfirst as <-. unfold running in Hrunning.
    apply bool_decide_eq_true in Hrunning.
    destruct (field core_id s1 !! p) as [c|] eqn:Hc; [cbn in Hrunning|done].
    apply field_lookup_inv in Hc as (j1 & Hj1 & ->).
    destruct (reachable_tinv _ _ _ _ Hreach1) as [_ Htim1].
    pose proof (Forall_lookup_1 _ _ _ _ Htim1 Hj1) as [_ Hon].
    rewrite decide_True in Hon by done.
    destruct (Hstep j1 Hj1) as [?|(_ & _ & Hval & Hpos)]; [lia|].
    destruct (response_kept es (event_time e) s1 now' s' p j1)
      as (-> & j' & Hj' & Hr' & Ha'); [done..|lia|].
    split.
    + unfold response_set. rewrite Hunset, (response_of_lookup _ _ _ Hj1).
      rewrite bool_decide_eq_true_2; [done|]. lia.
    + exists j'. split; [done|]. rewrite Hr', Ha'. done.
  - assert (response_of p s1 = -1) as Hunset1.
    { destruct (mem s1 !! p) as [j1|] eqn:Hj1.
      - rewrite (response_of_lookup _ _ _ Hj1).
        destruct (Hstep j1 eq_refl) as [?|(_ & Hc & _)]; [done|].
        unfold running in Hrunning. apply bool_decide_eq_false in Hrunning.
        rewrite (field_lookup _ _ _ _ Hj1) in Hrunning. by destruct Hrunning.
      - apply response_of_absent. by apply lookup_ge_None. }
    destruct (IH (event_time e) s1) as [-> Hj']; [done..|].
    split; [|done]. unfold response_set. rewrite Hunset1.
    rewrite bool_decide_eq_false_2; [done|]. by intros [? _].
Qed.

Lemma response_set_once_without_preemption es :
  run_ok cores scheme es = true → response_set_once cores scheme es.
Proof.
  unfold response_set_once, run_ok, run_state, after.
  case_decide as Hc; [|done].
  destruct (run_checked 0 (scheduler_start_up cores scheme) es)
    as [[now s]|] eqn:Hrun; [|done].
  intros _ p j t Hj Hfirst.
  destruct (response_set_at_first_dispatch es 0
              (scheduler_start_up cores scheme) now s p t)
    as (Hone & j' & Hj' & Hval & Hpos); [by apply reach_start|done| |done|].
  { apply response_of_absent. cbn. lia. }
  assert (j' = j) as -> by congruence. done.
Qed.
End without_preemption.

(** * What the handlers return *)

(** ** scheduler_quantum_expired always dispatches *)

(** X1. Under RR, a call of [scheduler_quantum_expired] that meets its
    preconditions never returns -1. The job whose quantum expired goes to
    the tail of the queue; the call returns the id of a queued job, which
    holds [core] after the call, and the core stays marked busy. That job
    was waiting before the call, or is the expired job itself, which
    happens only when no queued job was waiting; in the other case the
    expired job is off the core after the call. *)
Theorem quantum_expired_always_dispatches cores now (s : sched)
    (core time : Z) :
  reachable cores RR now s →
  valid_event now s (QuantumExpired core time) →
  ∃ r s' (k : nat) (p p' : ptr) j',
    scheduler_quantum_expired s core time = Some (r, s') ∧
    elems (head s) !! k = Some p ∧ field core_id s !! p = Some core ∧
    elems (head s') = delete k (elems (head s)) ++ [p] ∧
    r ≠ -1 ∧ p' ∈ elems (head s') ∧ mem s' !! p' = Some j' ∧
    id j' = r ∧ core_id j' = core ∧
    core_arr s' = core_arr s ∧ core_arr s' !! Z.to_nat core = Some 1 ∧
    (p' = p ∨ field core_id s !! p' = Some (-1)) ∧
    (p' = p → ∀ q, q ∈ elems (head s) → field core_id s !! q ≠ Some (-1)) ∧
    (p' ≠ p → field core_id s' !! p = Some (-1)).
Proof.
  intros Hreach (Htime & Hrr & Huse).
  pose proof (reachable_wf _ _ _ _ Hreach) as Hwf.
  pose proof (wf_cores s Hwf) as Hcw.
  destruct (quantum_expired_exec s core time Hwf Hrr Huse)
    as (r & s' & Hex & Hout).
  destruct Hout
    as [k p j m3 k' p' j' Hk Hj Hcid Hcore Hrel Hturn Hk' Hj' Hcj' Hact].
  pose proof (field_lookup core_id s p j Hj) as Hfp. rewrite Hcid in Hfp.
  destruct (cw_assign _ _ _ _ Hcw p core Hfp Hcore) as (_ & Hc0 & Hbusy).
  assert (core_id <$> m3 = <[p:=-1]> (field core_id s)) as Hcids.
  { rewrite (turn_rel_field core_id _ _ (λ _ _, eq_refl) Hrel).
    by apply fmap_alter_set. }
  assert (∀ q, q ≠ p → (core_id <$> m3) !! q = field core_id s !! q) as Hother.
  { intros q Hq. rewrite Hcids. by apply list_lookup_insert_ne. }
  assert (NoDup (delete k (elems (head s)) ++ [p])) as Hnd.
  { pose proof (cw_nodup _ _ _ _ Hcw) as Hnd0.
    rewrite (delete_perm _ _ _ Hk) in Hnd0.
    by rewrite (Permutation_app_comm _ [p]). }
  eexists (id j'), _, k, p, p', (set_core_id core (resume time j')).
  split; [exact Hex|]. cbn. split_and!; try done.
  - pose proof (Forall2_lookup_r _ _ _ _ _ Hrel Hj') as (j0 & Hj0 & _).
    assert (p' < length (mem s))%nat as Hlt.
    { apply lookup_lt_Some in Hj0. by rewrite length_alter in Hj0. }
    destruct (lookup_lt_is_Some_2 (mem s) p' Hlt) as [j1 Hj1].
    assert (id j' = id j1) as ->.
    { pose proof (turn_rel_field id _ _ (λ _ _, eq_refl) Hrel) as Hid.
      rewrite (fmap_alter_same id) in Hid by solve_field.
      apply (f_equal (λ l, l !! p')) in Hid.
      rewrite !list_lookup_fmap, Hj', Hj1 in Hid. by injection Hid. }
    pose proof (wf_id_lookup s Hwf p' j1 Hj1). lia.
  - apply list_elem_of_lookup. eauto.
  - by rewrite list_lookup_alter_eq, Hj'.
  - solve_field.
  - destruct (decide (p' = p)) as [->|Hne]; [by left|right].
    rewrite <-(Hother p' Hne), list_lookup_fmap, Hj'. cbn. by rewrite Hcj'.
  - intros -> q Hq Hwait.
    assert (q ≠ p) as Hqp by (intros ->; congruence).
    assert (q ∈ delete k (elems (head s))) as Hq'.
    { rewrite (delete_perm _ _ _ Hk) in Hq.
      apply elem_of_cons in Hq as [?|?]; done. }
    apply list_elem_of_lookup in Hq' as [i Hi].
    pose proof (lookup_lt_Some _ _ _ Hi) as Hilt.
    assert (k' = length (delete k (elems (head s)))) as ->.
    { eapply NoDup_lookup; [exact Hnd|exact Hk'|].
      by apply list_lookup_middle. }
    rewrite <-(Hother q Hqp), list_lookup_fmap in Hwait.
    destruct (m3 !! q) as [jq|] eqn:Hjq; [|done]. injection Hwait as Hwait.
    apply (Hact i q jq); [done| |done..].
    by rewrite lookup_app_l.
  - intros Hne. unfold field. cbn.
    rewrite list_lookup_fmap, list_lookup_alter_ne by done.
    rewrite <-list_lookup_fmap, Hcids. apply list_lookup_insert_eq.
    rewrite field_length. by eapply lookup_lt_Some.
Qed.

(** One core under RR with a single job: the quantum expires and the job
    gets the core again. *)
Lemma quantum_expired_always_dispatches_witness :
  let now := run_time 1 RR [NewJob 0 0 5 0] in
  let s := run_state 1 RR [NewJob 0 0 5 0] in
  reachable 1 RR now s ∧
  valid_event now s (QuantumExpired 0 2) ∧
  ∃ r s' (k : nat) (p p' : ptr) j',
    scheduler_quantum_expired s 0 2 = Some (r, s') ∧
    elems (head s) !! k = Some p ∧ field core_id s !! p = Some 0 ∧
    elems (head s') = delete k (elems (head s)) ++ [p] ∧
    r ≠ -1 ∧ p' ∈ elems (head s') ∧ mem s' !! p' = Some j' ∧
    id j' = r ∧ core_id j' = 0 ∧
    core_arr s' = core_arr s ∧ core_arr s' !! Z.to_nat 0 = Some 1 ∧
    (p' = p ∨ field core_id s !! p' = Some (-1)) ∧
    (p' = p → ∀ q, q ∈ elems (head s) → field core_id s !! q ≠ Some (-1)) ∧
    (p' ≠ p → field core_id s' !! p = Some (-1)).
Proof.
  intros now s.
  assert (run_ok 1 RR [NewJob 0 0 5 0] = true) as Hok
    by (vm_compute; reflexivity).
  pose proof (run_reachable 1 RR [NewJob 0 0 5 0] Hok) as Hreach.
  assert (valid_event now s (QuantumExpired 0 2)) as Hev
    by (apply check_event_sound; vm_compute; reflexivity).
  split; [exact Hreach|]. split; [exact Hev|].
  exact (quantum_expired_always_dispatches 1 now s 0 2 Hreach Hev).
Defined.

(** ** scheduler_job_finished hands the core to the first waiting job *)

(** X2. A call of [scheduler_job_finished] that meets its preconditions
    takes the finished job out of the queue and off its core, and leaves
    the order of the other queued jobs as it is. It returns -1 exactly when
    no job of the remaining queue is waiting, and the core is then marked
    idle. Otherwise it returns the id of the first waiting job in queue
    order; this job holds [core] after the call, and the core is marked
    busy. *)
Theorem job_finished_dispatches_first_waiting cores scheme now (s : sched)
    (core job_number time : Z) :
  reachable cores scheme now s →
  valid_event now s (JobFinished core job_number time) →
  ∃ r s' (k p : nat),
    scheduler_job_finished s core job_number time = Some (r, s') ∧
    elems (head s) !! k = Some p ∧ field id s !! p = Some job_number ∧
    elems (head s') = delete k (elems (head s)) ∧
    field core_id s' !! p = Some (-1) ∧
    ((r = -1 ∧ core_arr s' !! Z.to_nat core = Some 0 ∧
      ∀ q, q ∈ elems (head s') → field core_id s !! q ≠ Some (-1)) ∨
     (r ≠ -1 ∧ core_arr s' !! Z.to_nat core = Some 1 ∧
      ∃ (k' q : nat) jq,
        elems (head s') !! k' = Some q ∧ mem s' !! q = Some jq ∧
        id jq = r ∧ core_id jq = core ∧
        field core_id s !! q = Some (-1) ∧
        ∀ i q', (i < k')%nat → elems (head s') !! i = Some q' →
                field core_id s !! q' ≠ Some (-1))).
Proof.
  intros Hreach (Htime & Hon).
  pose proof (reachable_wf _ _ _ _ Hreach) as Hwf.
  pose proof (wf_cores s Hwf) as Hcw.
  destruct (job_finished_exec s core job_number time Hwf Hon)
    as (r & s' & Hex & Hout).
  destruct Hout as [k p j m3 r0 s0 Hk Hj Hid Hcid Hcore Hrel _ _ Hd].
  pose proof (field_lookup core_id s p j Hj) as Hfp. rewrite Hcid in Hfp.
  destruct (cw_assign _ _ _ _ Hcw p core Hfp Hcore) as (_ & Hc0 & Hbusy).
  pose proof (lookup_lt_Some _ _ _ Hbusy) as Hclt.
  assert (core_id <$> m3 = <[p:=-1]> (field core_id s)) as Hcids.
  { rewrite (turn_rel_field core_id _ _ (λ _ _, eq_refl) Hrel).
    apply fmap_alter_set. intros j1. by destruct (bool_decide (sch s = RR)). }
  assert (∀ q, q ∈ delete k (elems (head s)) → q ≠ p) as Hnp.
  { intros q Hq Heq. subst q. pose proof (cw_nodup _ _ _ _ Hcw) as Hnd.
    rewrite (delete_perm _ _ _ Hk) in Hnd.
    by apply NoDup_cons in Hnd as [? _]. }
  assert (∀ q jq, q ∈ delete k (elems (head s)) → m3 !! q = Some jq →
            field core_id s !! q = Some (core_id jq)) as Hold.
  { intros q jq Hq Hjq.
    assert ((core_id <$> m3) !! q = Some (core_id jq)) as Hc
      by (by rewrite list_lookup_fmap, Hjq).
    rewrite Hcids, list_lookup_insert_ne in Hc; [done|].
    intros Heq. by apply (Hnp q). }
  assert ((core_id <$> m3) !! p = Some (-1)) as Hpoff.
  { rewrite Hcids. apply list_lookup_insert_eq.
    rewrite field_length. by eapply lookup_lt_Some. }
  assert (∀ q, q ∈ delete k (elems (head s)) → is_Some (m3 !! q)) as Hin.
  { intros q Hq. apply lookup_lt_is_Some.
    rewrite <-(length_fmap core_id), Hcids, length_insert, field_length.
    apply (wf_queue_valid s Hwf). rewrite (delete_perm _ _ _ Hk). by right. }
  exists r0, s0, k, p. split; [exact Hex|].
  split; [exact Hk|]. split; [rewrite <-Hid; by apply field_lookup|].
  destruct Hd as [Hall|k' q jq Hk' Hjq Hcjq Hact]; cbn in *.
  - split; [done|]. split; [done|]. left. split; [done|].
    split; [by apply list_lookup_insert_eq|].
    intros q Hq Hwait. destruct (Hin q Hq) as [jq Hjq].
    rewrite (Hold q jq Hq Hjq) in Hwait. injection Hwait as Hwait.
    by apply (Hall q jq).
  - assert (q ∈ delete k (elems (head s))) as Hq
      by (apply list_elem_of_lookup; eauto).
    split; [done|]. split.
    { unfold field. cbn. rewrite list_lookup_fmap.
      rewrite list_lookup_alter_ne by (intros Heq; by apply (Hnp q)).
      by rewrite <-list_lookup_fmap. }
    right. split.
    { pose proof (turn_rel_field id _ _ (λ _ _, eq_refl) Hrel) as Hids.
      rewrite fmap_alter_same in Hids
        by (intros j1; by destruct (bool_decide (sch s = RR))).
      apply (f_equal (λ l, l !! q)) in Hids.
      rewrite list_lookup_fmap, Hjq in Hids. symmetry in Hids.
      apply (field_lookup_inv id) in Hids as (j1 & Hj1 & ->).
      pose proof (wf_id_lookup s Hwf q j1 Hj1). lia. }
    split.
    { rewrite list_insert_insert_eq. by apply list_lookup_insert_eq. }
    exists k', q, (set_core_id core (resume time jq)).
    split_and!; [done|by rewrite list_lookup_alter_eq, Hjq|solve_field|done| |].
    + rewrite (Hold q jq Hq Hjq). by rewrite Hcjq.
    + intros i q' Hi Hq' Hwait.
      assert (q' ∈ delete k (elems (head s))) as Hq'in
        by (apply list_elem_of_lookup; eauto).
      destruct (Hin q' Hq'in) as [jq' Hjq'].
      rewrite (Hold q' jq' Hq'in Hjq') in Hwait. injection Hwait as Hwait.
      by apply (Hact i q' jq').
Qed.

(** One core under FCFS: job 0 finishes at time 5 while job 1 waits. *)
Lemma job_finished_dispatches_first_waiting_witness :
  let es := [NewJob 0 0 5 0; NewJob 1 1 3 0] in
  let now := run_time 1 FCFS es in
  let s := run_state 1 FCFS es in
  reachable 1 FCFS now s ∧
  valid_event now s (JobFinished 0 0 5) ∧
  ∃ r s' (k p : nat),
    scheduler_job_finished s 0 0 5 = Some (r, s') ∧
    elems (head s) !! k = Some p ∧ field id s !! p = Some 0 ∧
    elems (head s') = delete k (elems (head s)) ∧
    field core_id s' !! p = Some (-1) ∧
    ((r = -1 ∧ core_arr s' !! Z.to_nat 0 = Some 0 ∧
      ∀ q, q ∈ elems (head s') → field core_id s !! q ≠ Some (-1)) ∨
     (r ≠ -1 ∧ core_arr s' !! Z.to_nat 0 = Some 1 ∧
      ∃ (k' q : nat) jq,
        elems (head s') !! k' = Some q ∧ mem s' !! q = Some jq ∧
        id jq = r ∧ core_id jq = 0 ∧
        field core_id s !! q = Some (-1) ∧
        ∀ i q', (i < k')%nat → elems (head s') !! i = Some q' →
                field core_id s !! q' ≠ Some (-1))).
Proof.
  intros es now s.
  assert (run_ok 1 FCFS es = true) as Hok by (vm_compute; reflexivity).
  pose proof (run_reachable 1 FCFS es Hok) as Hreach.
  assert (valid_event now s (JobFinished 0 0 5)) as Hev
    by (apply check_event_sound; vm_compute; reflexivity).
  split; [exact Hreach|]. split; [exact Hev|].
  exact (job_finished_dispatches_first_waiting 1 FCFS now s 0 0 5 Hreach Hev).
Defined.

(** ** scheduler_new_job returns the core of the new job *)

(** X3. A call of [scheduler_new_job] that meets its preconditions allocates
    one job with the given parameters and puts it into the queue, without
    changing the order of the jobs already there. It returns the [core_id]
    of the new job: either the index of a core, below the number of cores,
    that is marked busy after the call, and the job has waiting and
    response time 0; or -1, and the three time fields of the job are unset.
    It returns -1 only when no core is idle, and then leaves the core array
    as it is. *)
Theorem new_job_returns_core_of_job cores scheme now (s : sched)
    (job_number time running_time prio : Z) :
  reachable cores scheme now s →
  valid_event now s (NewJob job_number time running_time prio) →
  ∃ r s' j (k : nat),
    scheduler_new_job s job_number time running_time prio
    = Some (r, s') ∧
    length (mem s') = S (length (mem s)) ∧
    mem s' !! length (mem s) = Some j ∧
    id j = job_number ∧ arr_time j = time ∧ duration j = running_time ∧
    priority j = prio ∧ remaining_time j = running_time ∧
    core_id j = r ∧
    (k ≤ length (elems (head s)))%nat ∧
    elems (head s')
    = take k (elems (head s)) ++ length (mem s) :: drop k (elems (head s)) ∧
    ((r = -1 ∧ wait_time j = -1 ∧ response_time j = -1 ∧
      start_wait j = -1 ∧ core_arr s' = core_arr s ∧
      ∀ i, core_arr s !! i ≠ Some 0) ∨
     (0 ≤ r < cores ∧ core_arr s' !! Z.to_nat r = Some 1 ∧
      wait_time j = 0 ∧ response_time j = 0)).
Proof.
  intros Hreach (_ & Hok & _).
  pose proof (reachable_wf _ _ _ _ Hreach) as Hwf.
  pose proof (wf_cores s Hwf) as Hcw.
  destruct (reachable_config _ _ _ _ Hreach) as [Hnc _].
  pose proof (cw_len _ _ _ _ Hcw) as Hlen. rewrite Hnc in Hlen.
  destruct (new_job_exec s job_number time running_time prio Hwf Hok)
    as (r & s' & Hex & Hout).
  destruct Hout as [i k m2 Hm2 Hrank Hi Hlow
                   |k v jv m2 Hm2 Hrank Hbusy Hpre Hlt Hv Hjv Hcv
                   |k m2 Hm2 Hrank Hbusy Hge].
  - pose proof (lookup_lt_Some _ _ _ Hi) as Hilt.
    eexists _, _, _, k. split; [exact Hex|]. cbn.
    rewrite length_alter, (arrived_length _ _ _ _ _ _ Hm2).
    rewrite list_lookup_alter_eq, (arrived_fresh _ _ _ _ _ _ Hm2). cbn.
    split_and!; [done|done|solve_field..|apply Hrank|done|].
    right. rewrite Nat2Z.id.
    split_and!; [lia|lia|by apply list_lookup_insert_eq|solve_field..].
  - assert (v < length (mem s))%nat as Hvlt by (by apply (wf_queue_valid s Hwf)).
    destruct (lookup_lt_is_Some_2 (mem s) v Hvlt) as [j0 Hj0].
    destruct (arrived_old_eq _ _ _ _ _ _ _ _ Hm2 Hj0) as (j2 & Hj2 & Heq).
    assert (jv = j2) as -> by congruence.
    assert (core_id j2 = core_id j0) as Hc by (by rewrite Heq).
    pose proof (field_lookup core_id s v j0 Hj0) as Hfv.
    rewrite Hc in Hcv, Hex.
    destruct (cw_assign _ _ _ _ Hcw v _ Hfv Hcv) as (_ & Hc0 & Hc1).
    pose proof (lookup_lt_Some _ _ _ Hc1) as Hclt.
    eexists _, _, _, k. split; [exact Hex|]. cbn.
    rewrite !length_alter, (arrived_length _ _ _ _ _ _ Hm2).
    rewrite list_lookup_alter_eq, list_lookup_alter_ne by lia.
    rewrite (arrived_fresh _ _ _ _ _ _ Hm2). cbn.
    split_and!; [done..|apply Hrank|done|].
    right. split_and!; [lia|lia|done..].
  - eexists _, _, _, k. split; [exact Hex|]. cbn.
    rewrite length_alter, (arrived_length _ _ _ _ _ _ Hm2).
    rewrite list_lookup_alter_eq, (arrived_fresh _ _ _ _ _ _ Hm2). cbn.
    split_and!; [done|done|solve_field..|apply Hrank|done|].
    left. split_and!; [done|solve_field..|done|done].
Qed.

(** One core under PRI, taken by job 0: job 1 arrives and waits. *)
Lemma new_job_returns_core_of_job_witness :
  let now := run_time 1 PRI [NewJob 0 0 5 3] in
  let s := run_state 1 PRI [NewJob 0 0 5 3] in
  reachable 1 PRI now s ∧
  valid_event now s (NewJob 1 2 4 1) ∧
  ∃ r s' j (k : nat),
    scheduler_new_job s 1 2 4 1 = Some (r, s') ∧
    length (mem s') = S (length (mem s)) ∧
    mem s' !! length (mem s) = Some j ∧
    id j = 1 ∧ arr_time j = 2 ∧ duration j = 4 ∧
    priority j = 1 ∧ remaining_time j = 4 ∧
    core_id j = r ∧
    (k ≤ length (elems (head s)))%nat ∧
    elems (head s')
    = take k (elems (head s)) ++ length (mem s) :: drop k (elems (head s)) ∧
    ((r = -1 ∧ wait_time j = -1 ∧ response_time j = -1 ∧
      start_wait j = -1 ∧ core_arr s' = core_arr s ∧
      ∀ i, core_arr s !! i ≠ Some 0) ∨
     (0 ≤ r < 1 ∧ core_arr s' !! Z.to_nat r = Some 1 ∧
      wait_time j = 0 ∧ response_time j = 0)).
Proof.
  intros now s.
  assert (run_ok 1 PRI [NewJob 0 0 5 3] = true) as Hok
    by (vm_compute; reflexivity).
  pose proof (run_reachable 1 PRI [NewJob 0 0 5 3] Hok) as Hreach.
  assert (valid_event now s (NewJob 1 2 4 1)) as Hev
    by (apply check_event_sound; vm_compute; reflexivity).
  split; [exact Hreach|]. split; [exact Hev|].
  exact (new_job_returns_core_of_job 1 PRI now s 1 2 4 1 Hreach Hev).
Defined.

(** * What the handlers leave alone *)

(** The parameters a job arrives with. *)
Definition job_params (j : job_t) : Z * Z * Z * Z :=
  (id j, arr_time j, duration j, priority j).

(** The fields the handlers maintain, but for the links [next] and [turn]. *)
Definition job_stats (j : job_t) : Z * Z * Z * Z * Z * Z :=
  (remaining_time j, wait_time j, start_wait j, response_time j,
   turnover_time j, core_id j).

Ltac solve_params := intros; unfold job_params, job_stats; solve_field.

Lemma new_job_params s n time d pr r s' :
  new_job_outcome s n time d pr r s' →
  field job_params s' = field job_params s ++ [(n, time, d, pr)].
Proof.
  intros Hout. unfold field at 1.
  destruct Hout as [i k m2 Hm2 Hrank Hi Hlow
                   |k v jv m2 Hm2 Hrank Hbusy Hpre Hlt Hv Hjv Hcv
                   |k m2 Hm2 Hrank Hbusy Hge]; cbn;
    rewrite ?fmap_alter_same by solve_params;
    by rewrite (arrived_field _ _ _ _ _ _ Hm2 job_params) by solve_params.
Qed.

Lemma job_finished_params s core n time r s' :
  finish_outcome s core n time r s' →
  field job_params s' = field job_params s.
Proof.
  intros [k p0 j m3 r0 s0 _ _ _ _ _ Hrel _ _ Hd].
  assert (field job_params (finished_state s core k m3) = field job_params s)
    as <-.
  { unfold field. cbn.
    rewrite (turn_rel_field job_params _ _ (λ _ _, eq_refl) Hrel).
    apply fmap_alter_same. intros j1. by destruct (bool_decide (sch s = RR)). }
  destruct Hd as [Hall|k' q jq Hk' Hjq Hcjq Hact]; [done|].
  unfold field. cbn. apply fmap_alter_same. solve_params.
Qed.

Lemma quantum_expired_params s core time r s' :
  quantum_outcome s core time r s' →
  field job_params s' = field job_params s.
Proof.
  intros [k p0 j m3 k' p' j3 _ _ _ _ Hrel _ _ _ _ _].
  unfold field at 1. cbn. rewrite fmap_alter_same by solve_params.
  rewrite (turn_rel_field job_params _ _ (λ _ _, eq_refl) Hrel).
  by rewrite fmap_alter_same by solve_params.
Qed.

(** A job outside the queue holds no core. *)
Lemma wf_off_queue s p j :
  wf s → mem s !! p = Some j → p ∉ elems (head s) → core_id j = -1.
Proof.
  intros Hwf Hj Hp. destruct (decide (core_id j = -1)) as [|Hc]; [done|].
  destruct (cw_assign _ _ _ _ (wf_cores s Hwf) p (core_id j)) as [Hin _];
    [by apply field_lookup|done|done].
Qed.

Lemma new_job_frame s n time d pr r s' p j :
  wf s → new_job_outcome s n time d pr r s' →
  mem s !! p = Some j → p ∉ elems (head s) →
  ∃ j', mem s' !! p = Some j' ∧ job_stats j' = job_stats j ∧
        p ∉ elems (head s').
Proof.
  intros Hwf Hout Hj Hp.
  pose proof (lookup_lt_Some _ _ _ Hj) as Hlt.
  pose proof (wf_off_queue s p j Hwf Hj Hp) as Hc.
  assert (∀ m2, arrived s n time d pr m2 →
            ∃ j2, m2 !! p = Some j2 ∧ job_stats j2 = job_stats j) as Hm.
  { intros m2 Hm2.
    assert (∃ j1, (linked (mem s) ++ [fresh_job n time d pr]) !! p = Some j1 ∧
                  j1 = set_next (next j1) j) as (j1 & Hj1 & Heq1).
    { rewrite lookup_app_l by (by rewrite linked_length).
      unfold linked. rewrite list_lookup_alter. case_decide.
      - subst p. rewrite Hj. cbn. eauto.
      - exists j. split; [done|]. by destruct j. }
    exists j1. split; [|by rewrite Heq1].
    eapply refresh_inactive; [exact Hm2|exact Hj1|]. by rewrite Heq1. }
  assert (∀ k, p ∉ take k (elems (head s))
                   ++ length (mem s) :: drop k (elems (head s))) as Hq.
  { intros k Hin. apply Hp. rewrite <-(take_drop k (elems (head s))).
    apply elem_of_app in Hin as [?|Hin]; apply elem_of_app; [by left|right].
    apply elem_of_cons in Hin as [?|?]; [lia|done]. }
  destruct Hout as [i k m2 Hm2 Hrank Hi Hlow
                   |k v jv m2 Hm2 Hrank Hbusy Hpre Hlt' Hv Hjv Hcv
                   |k m2 Hm2 Hrank Hbusy Hge]; cbn;
    destruct (Hm m2 Hm2) as (j2 & Hj2 & Hs2); exists j2;
    (split; [|split; [done|apply Hq]]).
  - by rewrite list_lookup_alter_ne by lia.
  - rewrite list_lookup_alter_ne by lia.
    rewrite list_lookup_alter_ne; [done|]. by intros ->.
  - by rewrite list_lookup_alter_ne by lia.
Qed.

Lemma turn_rel_stats m m3 p j :
  Forall2 turn_rel m m3 → m !! p = Some j →
  ∃ j3, m3 !! p = Some j3 ∧ job_stats j3 = job_stats j.
Proof.
  intros Hrel Hj.
  destruct (Forall2_lookup_l _ _ _ _ _ Hrel Hj) as (j3 & Hj3 & Heq).
  exists j3. split; [done|]. by rewrite Heq.
Qed.

Lemma job_finished_frame s core n time r s' p j :
  finish_outcome s core n time r s' →
  mem s !! p = Some j → p ∉ elems (head s) →
  ∃ j', mem s' !! p = Some j' ∧ job_stats j' = job_stats j ∧
        p ∉ elems (head s').
Proof.
  intros [k p0 j0 m3 r0 s0 Hk _ _ _ _ Hrel _ _ Hd] Hj Hp.
  assert (p ≠ p0) as Hne by (intros ->; apply Hp, list_elem_of_lookup; eauto).
  assert (p ∉ delete k (elems (head s))) as Hq.
  { intros Hin. apply Hp. by eapply list_elem_of_delete_inv. }
  destruct (turn_rel_stats _ m3 p j Hrel) as (j3 & Hj3 & Hs3);
    [by rewrite list_lookup_alter_ne|].
  exists j3. destruct Hd as [Hall|k' q jq Hk' Hjq Hcjq Hact]; cbn; [done|].
  split; [|done]. rewrite list_lookup_alter_ne; [done|].
  intros ->. apply Hq, list_elem_of_lookup. eauto.
Qed.

Lemma quantum_expired_frame s core time r s' p j :
  quantum_outcome s core time r s' →
  mem s !! p = Some j → p ∉ elems (head s) →
  ∃ j', mem s' !! p = Some j' ∧ job_stats j' = job_stats j ∧
        p ∉ elems (head s').
Proof.
  intros [k p0 j0 m3 k' p' j3' Hk _ _ _ Hrel _ Hk' _ _ _] Hj Hp.
  assert (p ≠ p0) as Hne by (intros ->; apply Hp, list_elem_of_lookup; eauto).
  assert (p ∉ delete k (elems (head s)) ++ [p0]) as Hq.
  { intros [Hin|Hin%list_elem_of_singleton]%elem_of_app; [|done].
    apply Hp. by eapply list_elem_of_delete_inv. }
  destruct (turn_rel_stats _ m3 p j Hrel) as (j3 & Hj3 & Hs3);
    [by rewrite list_lookup_alter_ne|].
  exists j3. cbn. split; [|done]. rewrite list_lookup_alter_ne; [done|].
  intros ->. apply Hq, list_elem_of_lookup. eauto.
Qed.

(** The three handlers, through their outcomes. *)
Inductive handled (s : sched) : event → Z → sched → Prop :=
  | handled_new n t d pr r s' :
      new_job_outcome s n t d pr r s' → handled s (NewJob n t d pr) r s'
  | handled_finished c n t r s' :
      finish_outcome s c n t r s' → handled s (JobFinished c n t) r s'
  | handled_quantum c t r s' :
      quantum_outcome s c t r s' → handled s (QuantumExpired c t) r s'.

Lemma handle_handled now s e r s' :
  wf s → valid_event now s e → handle s e = Some (r, s') → handled s e r s'.
Proof.
  intros Hwf Hev He. destruct e as [n t d pr|c n t|c t]; cbn in Hev, He.
  - destruct Hev as (_ & Hok & _).
    destruct (new_job_exec s n t d pr Hwf Hok) as (r' & s'' & Hex & Hout).
    rewrite Hex in He. injection He as <- <-. by constructor.
  - destruct Hev as (_ & Hon).
    destruct (job_finished_exec s c n t Hwf Hon) as (r' & s'' & Hex & Hout).
    rewrite Hex in He. injection He as <- <-. by constructor.
  - destruct Hev as (_ & Hrr & Huse).
    destruct (quantum_expired_exec s c t Hwf Hrr Huse)
      as (r' & s'' & Hex & Hout).
    rewrite Hex in He. injection He as <- <-. by constructor.
Qed.

Lemma handled_params s e r s' p a :
  handled s e r s' →
  field job_params s !! p = Some a → field job_params s' !! p = Some a.
Proof.
  intros [n t d pr r0 s0 Hout|c n t r0 s0 Hout|c t r0 s0 Hout] Hp.
  - rewrite (new_job_params _ _ _ _ _ _ _ Hout). by apply lookup_app_l_Some.
  - by rewrite (job_finished_params _ _ _ _ _ _ Hout).
  - by rewrite (quantum_expired_params _ _ _ _ _ Hout).
Qed.

Lemma handled_frame s e r s' p j :
  wf s → handled s e r s' → mem s !! p = Some j → p ∉ elems (head s) →
  ∃ j', mem s' !! p = Some j' ∧ job_stats j' = job_stats j ∧
        p ∉ elems (head s').
Proof.
  intros Hwf [n t d pr r0 s0 Hout|c n t r0 s0 Hout|c t r0 s0 Hout].
  - by eapply new_job_frame.
  - by eapply job_finished_frame.
  - by eapply quantum_expired_frame.
Qed.

(** X4. No handler call that meets its preconditions changes the id, the
    arrival time, the duration or the priority of a job. A job that is not
    in the queue (a finished job) stays out of it, off the cores, and keeps
    its remaining, waiting, response and turnaround times and its
    [start_wait]. *)
Theorem handlers_keep_finished_jobs cores scheme now (s s' : sched)
    (e : event) (r : Z) (p : ptr) (j : job_t) :
  reachable cores scheme now s → valid_event now s e →
  handle s e = Some (r, s') → mem s !! p = Some j →
  ∃ j', mem s' !! p = Some j' ∧
    id j' = id j ∧ arr_time j' = arr_time j ∧ duration j' = duration j ∧
    priority j' = priority j ∧
    (p ∉ elems (head s) →
     (p ∉ elems (head s')) ∧ core_id j = -1 ∧ core_id j' = -1 ∧
     remaining_time j' = remaining_time j ∧ wait_time j' = wait_time j ∧
     start_wait j' = start_wait j ∧ response_time j' = response_time j ∧
     turnover_time j' = turnover_time j).
Proof.
  intros Hreach Hev He Hj.
  pose proof (reachable_wf _ _ _ _ Hreach) as Hwf.
  pose proof (handle_handled now s e r s' Hwf Hev He) as Hh.
  pose proof (handled_params s e r s' p _ Hh (field_lookup job_params s p j Hj))
    as Hpar.
  apply field_lookup_inv in Hpar as (j' & Hj' & Hpar).
  exists j'. split; [done|]. unfold job_params in Hpar.
  injection Hpar as Hid Harr Hdur Hpri. split_and!; [done..|].
  intros Hp. pose proof (wf_off_queue s p j Hwf Hj Hp) as Hc.
  destruct (handled_frame s e r s' p j Hwf Hh Hj Hp) as (j'' & Hj'' & Hst & Hq).
  assert (j'' = j') as -> by congruence. unfold job_stats in Hst.
  injection Hst as Hrem Hwait Hsw Hresp Hturn Hcid.
  split_and!; [done|done|congruence|done..].
Qed.

(** One core under FCFS: job 0 has finished at time 5; job 1 arrives at
    time 7. *)
Lemma handlers_keep_finished_jobs_witness :
  let es := [NewJob 0 0 5 0; JobFinished 0 0 5] in
  let now := run_time 1 FCFS es in
  let s := run_state 1 FCFS es in
  let e := NewJob 1 7 2 0 in
  let j := Job 0 0 5 0 0 0 (-1) 0 5 (-1) (-1) None in
  ∃ r s',
    reachable 1 FCFS now s ∧ valid_event now s e ∧
    handle s e = Some (r, s') ∧ mem s !! 0%nat = Some j ∧
    (0%nat ∉ elems (head s)) ∧
    ∃ j', mem s' !! 0%nat = Some j' ∧
      id j' = id j ∧ arr_time j' = arr_time j ∧ duration j' = duration j ∧
      priority j' = priority j ∧
      (0%nat ∉ elems (head s) →
       (0%nat ∉ elems (head s')) ∧ core_id j = -1 ∧ core_id j' = -1 ∧
       remaining_time j' = remaining_time j ∧ wait_time j' = wait_time j ∧
       start_wait j' = start_wait j ∧ response_time j' = response_time j ∧
       turnover_time j' = turnover_time j).
Proof.
  intros es now s e j.
  assert (run_ok 1 FCFS es = true) as Hok by (vm_compute; reflexivity).
  pose proof (run_reachable 1 FCFS es Hok) as Hreach.
  assert (valid_event now s e) as Hev
    by (apply check_event_sound; vm_compute; reflexivity).
  destruct (handle_total now s e (reachable_wf _ _ _ _ Hreach) Hev)
    as (r & s' & Hcall).
  assert (mem s !! 0%nat = Some j) as Hj by (vm_compute; reflexivity).
  assert (elems (head s) = []) as Hel by (vm_compute; reflexivity).
  assert (0%nat ∉ elems (head s)) as Hout
    by (exact (eq_ind_r (λ l, 0%nat ∉ l) (not_elem_of_nil 0%nat) Hel)).
  exists r, s'. do 5 (split; [assumption|]).
  exact (handlers_keep_finished_jobs 1 FCFS now s s' e r 0%nat j
           Hreach Hev Hcall Hj).
Defined.

(** * The order of the statistics *)

(** The response time of a job is at most its waiting time; a queued job
    has no turnaround time yet; a job outside the queue has been
    dispatched, and its waiting time is at most its turnaround time, which
    is at most the time since its arrival. *)
Definition stats_ok (now : Z) (s : sched) (p : ptr) (j : job_t) : Prop :=
  response_time j ≤ wait_time j ∧
  (p ∈ elems (head s) → turnover_time j = -1) ∧
  (p ∉ elems (head s) →
   0 ≤ response_time j ∧ wait_time j ≤ turnover_time j ∧
   turnover_time j ≤ now - arr_time j).

Definition stats_inv (now : Z) (s : sched) : Prop :=
  ∀ p j, mem s !! p = Some j → stats_ok now s p j.

Lemma resume_le time c j :
  0 ≤ time ≤ INT_MAX → timing time j → core_id j = -1 →
  response_time j ≤ wait_time j →
  response_time (set_core_id c (resume time j))
  ≤ wait_time (set_core_id c (resume time j)).
Proof.
  unfold timing. intros Ht [Harr Hj] Hc Hle.
  rewrite decide_False in Hj by lia.
  destruct Hj as [(Hr & Hw & Hs)|(Hr & Hw & [[Hs Hl]|[Hs Hl]])].
  - rewrite resume_first by done. cbn. lia.
  - rewrite resume_same by (done || lia). cbn. lia.
  - rewrite resume_wait by lia. cbn.
    rewrite (sub32_small time)
      by (unfold int_range, INT_MIN, INT_MAX in *; lia).
    rewrite add32_small by (unfold int_range, INT_MIN, INT_MAX in *; lia).
    lia.
Qed.

Lemma resume_turnover time c j :
  turnover_time (set_core_id c (resume time j)) = turnover_time j.
Proof. solve_field. Qed.

Lemma evict_le time j :
  response_time j ≤ wait_time j →
  response_time (evict time j) ≤ wait_time (evict time j).
Proof. unfold evict. cbn. case_decide; cbn; lia. Qed.

Lemma new_job_stats now s n time d pr r s' :
  wf s → stats_inv now s → now ≤ time →
  new_job_outcome s n time d pr r s' → stats_inv time s'.
Proof.
  intros Hwf Hinv Htime Hout p j' Hj'.
  assert (∀ k, length (mem s)
               ∈ take k (elems (head s))
                 ++ length (mem s) :: drop k (elems (head s))) as Hnew.
  { intros k. apply elem_of_app. right. by left. }
  assert (∀ k, p ≠ length (mem s) →
            p ∈ take k (elems (head s))
                ++ length (mem s) :: drop k (elems (head s)) ↔
            p ∈ elems (head s)) as Hq.
  { intros k Hne. rewrite <-(take_drop k (elems (head s))) at 3.
    rewrite !elem_of_app, elem_of_cons.
    split; [intros [?|[?|?]]|intros [?|?]]; auto; done. }
  assert (∀ m2 j2 g, arrived s n time d pr m2 → m2 !! p = Some j2 →
            p ≠ length (mem s) →
            (response_time (g j2) ≤ wait_time (g j2) ∨
             (response_time j2 ≤ wait_time j2 →
              response_time (g j2) ≤ wait_time (g j2))) →
            turnover_time (g j2) = turnover_time j2 →
            (p ∉ elems (head s) → g j2 = j2) →
            ∀ k, stats_ok time
                   (new_job_state s (core_arr s) k m2) p (g j2)) as Hold.
  { intros m2 j2 g Hm2 Hj2 Hne Hle Hturn Hframe k.
    pose proof (lookup_lt_Some _ _ _ Hj2) as Hlt.
    rewrite (arrived_length _ _ _ _ _ _ Hm2) in Hlt.
    destruct (lookup_lt_is_Some_2 (mem s) p) as [j Hj]; [lia|].
    destruct (arrived_old_eq _ _ _ _ _ _ _ _ Hm2 Hj) as (j2' & Hj2' & Heq).
    assert (j2' = j2) as -> by congruence.
    destruct (Hinv p j Hj) as (Hrw & Hin & Hout').
    assert (response_time j2 = response_time j) as Hr2 by (by rewrite Heq).
    assert (wait_time j2 = wait_time j) as Hw2 by (by rewrite Heq).
    assert (turnover_time j2 = turnover_time j) as Ht2 by (by rewrite Heq).
    assert (arr_time j2 = arr_time j) as Ha2 by (by rewrite Heq).
    unfold stats_ok. cbn. rewrite Hq by done. split_and!.
    - destruct Hle as [?|Hle]; [done|]. apply Hle. lia.
    - intros Hp. rewrite Hturn, Ht2. by apply Hin.
    - intros Hp. rewrite (Hframe Hp). specialize (Hout' Hp). lia. }
  destruct Hout as [i k m2 Hm2 Hrank Hi Hlow
                   |k v jv m2 Hm2 Hrank Hbusy Hpre Hlt Hv Hjv Hcv
                   |k m2 Hm2 Hrank Hbusy Hge]; cbn in Hj'.
  - destruct (decide (p = length (mem s))) as [->|Hne].
    + rewrite list_lookup_alter_eq, (arrived_fresh _ _ _ _ _ _ Hm2) in Hj'.
      injection Hj' as <-. unfold stats_ok. cbn.
      split_and!; [solve_field|solve_field|]. intros Hn. by destruct Hn.
    + rewrite list_lookup_alter_ne in Hj' by done.
      apply (Hold m2 j' (λ j, j) Hm2 Hj' Hne); auto.
  - destruct (decide (p = length (mem s))) as [->|Hne].
    + rewrite list_lookup_alter_eq in Hj'.
      rewrite list_lookup_alter_ne in Hj'
        by (intros ->; by apply (nj_not_queued s Hwf)).
      rewrite (arrived_fresh _ _ _ _ _ _ Hm2) in Hj'.
      injection Hj' as <-. unfold stats_ok. cbn.
      split_and!; [solve_field|solve_field|]. intros Hn. by destruct Hn.
    + rewrite list_lookup_alter_ne in Hj' by done.
      destruct (decide (p = v)) as [->|Hnv].
      * rewrite list_lookup_alter_eq, Hjv in Hj'. injection Hj' as <-.
        apply (Hold m2 jv (evict time) Hm2 Hjv Hne).
        -- right. apply evict_le.
        -- solve_field.
        -- intros Hn. by destruct Hn.
      * rewrite list_lookup_alter_ne in Hj' by done.
        apply (Hold m2 j' (λ j, j) Hm2 Hj' Hne); auto.
  - destruct (decide (p = length (mem s))) as [->|Hne].
    + rewrite list_lookup_alter_eq, (arrived_fresh _ _ _ _ _ _ Hm2) in Hj'.
      injection Hj' as <-. unfold stats_ok. cbn.
      split_and!; [solve_field|solve_field|]. intros Hn. by destruct Hn.
    + rewrite list_lookup_alter_ne in Hj' by done.
      apply (Hold m2 j' (λ j, j) Hm2 Hj' Hne); auto.
Qed.

Lemma dispatch_stats s c core time r s' :
  tinv time s → stats_inv time s →
  dispatch_outcome s c core time r s' → stats_inv time s'.
Proof.
  intros [Ht Htim] Hinv [Hall|k q jq Hk Hjq Hcjq Hact]; [done|].
  intros p j' Hj'. cbn in Hj'. unfold stats_ok. cbn.
  destruct (decide (p = q)) as [->|Hne].
  - rewrite list_lookup_alter_eq, Hjq in Hj'. injection Hj' as <-.
    destruct (Hinv q jq Hjq) as (Hle & Hin & Hout).
    rewrite resume_turnover. split_and!; [|done|].
    + apply resume_le; [done| |done..].
      by apply (Forall_lookup_1 _ _ _ _ Htim Hjq).
    + intros Hn. destruct Hn. apply list_elem_of_lookup. eauto.
  - rewrite list_lookup_alter_ne in Hj' by done. by apply Hinv.
Qed.

Lemma job_finished_stats now s core n time r s' :
  wf s → tinv now s → stats_inv now s → now ≤ time ≤ INT_MAX →
  finish_outcome s core n time r s' → stats_inv time s'.
Proof.
  intros Hwf Htinv Hinv Htime Hout.
  pose proof (job_finished_tinv now s core n time r s' Htinv Htime Hout)
    as Htinv'.
  destruct Hout as [k p0 j0 m3 r0 s0 Hk Hj0 Hid Hcid Hcore Hrel Hnrr Hturn Hd].
  destruct Htinv as [Hnow Htim]. assert (0 ≤ time ≤ INT_MAX) as Ht by lia.
  pose proof (cw_nodup _ _ _ _ (wf_cores s Hwf)) as Hnd.
  rewrite (delete_perm _ _ _ Hk) in Hnd. apply NoDup_cons in Hnd as [Hp0 _].
  eapply dispatch_stats; [| |exact Hd].
  { split; [lia|]. cbn.
    eapply timing_view_all;
      [by apply (turn_rel_field time_view _ _ (λ _ _, eq_refl) Hrel)|].
    apply Forall_alter.
    - eapply Forall_impl; [done|]. intros j1. apply timing_mono. lia.
    - intros j1 Hj1 Htj1. assert (j1 = j0) as -> by congruence.
      apply timing_retire; [done..|congruence]. }
  intros p j3 Hj3. cbn in Hj3. unfold stats_ok. cbn.
  destruct (Forall2_lookup_r _ _ _ _ _ Hrel Hj3) as (j1 & Hj1 & Heq).
  assert (response_time j3 = response_time j1 ∧ wait_time j3 = wait_time j1 ∧
          turnover_time j3 = turnover_time j1 ∧ arr_time j3 = arr_time j1)
    as (-> & -> & -> & ->) by (by rewrite Heq).
  destruct (decide (p = p0)) as [->|Hne].
  - rewrite list_lookup_alter_eq, Hj0 in Hj1. injection Hj1 as <-.
    destruct (Hinv p0 j0 Hj0) as (Hle & _ & _).
    pose proof (Forall_lookup_1 _ _ _ _ Htim Hj0) as [Harr Hrun].
    rewrite decide_True in Hrun by congruence.
    assert (sub32 time (arr_time j0) = time - arr_time j0) as Hsub
      by (apply sub32_small; unfold int_range, INT_MIN, INT_MAX in *; lia).
    destruct (bool_decide (sch s = RR)); cbn; rewrite Hsub;
      (split_and!; [done|done|lia]).
  - rewrite list_lookup_alter_ne in Hj1 by done.
    destruct (Hinv p j1 Hj1) as (Hle & Hin & Hout).
    split_and!; [done| |].
    + intros Hp. by apply Hin, (list_elem_of_delete_inv _ k).
    + intros Hp. destruct Hout as (? & ? & ?); [|lia].
      intros Hq. apply Hp. rewrite (delete_perm _ _ _ Hk) in Hq.
      apply elem_of_cons in Hq as [?|?]; done.
Qed.

Lemma quantum_expired_stats now s core time r s' :
  wf s → tinv now s → stats_inv now s → now ≤ time ≤ INT_MAX →
  quantum_outcome s core time r s' → stats_inv time s'.
Proof.
  intros Hwf [Hnow Htim] Hinv Htime
    [k p0 j0 m3 k' p' j3' Hk Hj0 Hcid Hcore Hrel Hturn Hk' Hj3' Hcj3' Hact].
  assert (0 ≤ time ≤ INT_MAX) as Ht by lia.
  assert (Forall (timing time) m3) as Htim3.
  { eapply timing_view_all;
      [by apply (turn_rel_field time_view _ _ (λ _ _, eq_refl) Hrel)|].
    apply Forall_alter.
    - eapply Forall_impl; [done|]. intros j1. apply timing_mono. lia.
    - intros j1 Hj1 Htj1. assert (j1 = j0) as -> by congruence.
      apply timing_suspend; [done..|congruence]. }
  assert (∀ p, p ∈ delete k (elems (head s)) ++ [p0] ↔ p ∈ elems (head s))
    as Hq.
  { intros p. rewrite (delete_perm _ _ _ Hk) at 2.
    rewrite elem_of_app, !elem_of_cons, elem_of_nil. tauto. }
  assert (∀ p j3, m3 !! p = Some j3 →
            stats_ok time (requeued_state s k p0 (core_arr s) m3) p j3)
    as Hinv3.
  { intros p j3 Hj3. unfold stats_ok. cbn. rewrite Hq.
    destruct (Forall2_lookup_r _ _ _ _ _ Hrel Hj3) as (j1 & Hj1 & Heq).
    assert (∃ j, mem s !! p = Some j ∧
              response_time j3 = response_time j ∧
              wait_time j3 = wait_time j ∧
              turnover_time j3 = turnover_time j ∧
              arr_time j3 = arr_time j) as (j & Hj & -> & -> & -> & ->).
    { destruct (decide (p = p0)) as [->|Hne].
      - rewrite list_lookup_alter_eq, Hj0 in Hj1. injection Hj1 as <-.
        exists j0. split; [done|]. by rewrite Heq.
      - rewrite list_lookup_alter_ne in Hj1 by done.
        exists j1. split; [done|]. by rewrite Heq. }
    destruct (Hinv p j Hj) as (Hle & Hin & Hout).
    split_and!; [done|done|]. intros Hp. specialize (Hout Hp). lia. }
  intros p j' Hj'. cbn in Hj'. unfold stats_ok. cbn.
  destruct (decide (p = p')) as [->|Hne].
  - rewrite list_lookup_alter_eq, Hj3' in Hj'. injection Hj' as <-.
    destruct (Hinv3 p' j3' Hj3') as (Hle & Hin & Hout). cbn in Hin, Hout.
    rewrite resume_turnover. split_and!; [|done|].
    + apply resume_le; [done| |done..].
      by apply (Forall_lookup_1 _ _ _ _ Htim3 Hj3').
    + intros Hn. destruct Hn. apply list_elem_of_lookup. eauto.
  - rewrite list_lookup_alter_ne in Hj' by done. by apply Hinv3.
Qed.

Lemma handled_stats now s e r s' :
  wf s → tinv now s → stats_inv now s → now ≤ event_time e ≤ INT_MAX →
  handled s e r s' → stats_inv (event_time e) s'.
Proof.
  intros Hwf Htinv Hinv Htime Hh. revert Htime.
  destruct Hh as [n t d pr r0 s0 Hout|c n t r0 s0 Hout|c t r0 s0 Hout];
    cbn; intros Htime.
  - eapply new_job_stats; [done..|lia|done].
  - by eapply job_finished_stats.
  - by eapply quantum_expired_stats.
Qed.

Lemma valid_event_time now s e : valid_event now s e → now ≤ event_time e ≤ INT_MAX.
Proof. destruct e; cbn; tauto. Qed.

Lemma reachable_stats cores scheme now s :
  reachable cores scheme now s → stats_inv now s.
Proof.
  induction 1 as [Hc|now s e r s' Hreach IH Hev He].
  - intros p j Hj. done.
  - pose proof (reachable_wf _ _ _ _ Hreach) as Hwf.
    eapply handled_stats; [done|by eapply reachable_tinv|done| |].
    + by eapply valid_event_time.
    + by eapply handle_handled.
Qed.

(** X5. In every reachable state the response time of a job is at most its
    waiting time. As long as a job is in the queue its turnaround time is
    unset; once it has left the queue, its response time is not negative,
    its waiting time is at most its turnaround time, and its turnaround
    time is at most the time that has passed since its arrival. *)
Theorem statistics_are_ordered cores scheme now (s : sched) (p : ptr)
    (j : job_t) :
  reachable cores scheme now s → mem s !! p = Some j →
  response_time j ≤ wait_time j ∧
  (p ∈ elems (head s) → turnover_time j = -1) ∧
  (p ∉ elems (head s) →
   0 ≤ response_time j ∧ wait_time j ≤ turnover_time j ∧
   turnover_time j ≤ now - arr_time j).
Proof. intros Hreach Hj. by apply (reachable_stats cores scheme now s). Qed.

(** One core under FCFS: job 0 runs from 0 to 5, job 1 (arrived at time 1)
    from 5 to 8. *)
Lemma statistics_are_ordered_witness :
  let es := [NewJob 0 0 5 0; NewJob 1 1 3 0; JobFinished 0 0 5;
             JobFinished 0 1 8] in
  let now := run_time 1 FCFS es in
  let s := run_state 1 FCFS es in
  let j := Job 1 1 3 0 0 4 (-1) 4 7 (-1) (-1) None in
  reachable 1 FCFS now s ∧ mem s !! 1%nat = Some j ∧
  (1%nat ∉ elems (head s)) ∧
  response_time j ≤ wait_time j ∧
  (1%nat ∈ elems (head s) → turnover_time j = -1) ∧
  (1%nat ∉ elems (head s) →
   0 ≤ response_time j ∧ wait_time j ≤ turnover_time j ∧
   turnover_time j ≤ now - arr_time j).
Proof.
  intros es now s j.
  assert (run_ok 1 FCFS es = true) as Hok by (vm_compute; reflexivity).
  pose proof (run_reachable 1 FCFS es Hok) as Hreach.
  assert (mem s !! 1%nat = Some j) as Hj by (vm_compute; reflexivity).
  assert (elems (head s) = []) as Hel by (vm_compute; reflexivity).
  assert (1%nat ∉ elems (head s)) as Hout
    by (exact (eq_ind_r (λ l, 1%nat ∉ l) (not_elem_of_nil 1%nat) Hel)).
  do 3 (split; [assumption|]).
  exact (statistics_are_ordered 1 FCFS now s 1%nat j Hreach Hj).
Defined.

(** * The counters *)

Lemma handled_numOfJobs s e r s' :
  wf s → wf s' → numOfJobs s = Z.of_nat (length (elems (head s))) →
  handled s e r s' →
  numOfJobs s' = Z.of_nat (length (elems (head s'))).
Proof.
  intros Hwf Hwf' Hnum Hh.
  pose proof (wf_queue_length s' Hwf') as Hlen'.
  pose proof (wf_mem_bound s' Hwf') as Hmax'.
  destruct Hh as [n t d pr r0 s0 Hout|c n t r0 s0 Hout|c t r0 s0 Hout].
  - destruct Hout as [i k m2 Hm2 Hrank Hi Hlow
                     |k v jv m2 Hm2 Hrank Hbusy Hpre Hlt Hv Hjv Hcv
                     |k m2 Hm2 Hrank Hbusy Hge]; cbn in *;
      rewrite insert_at_perm in Hlen' |- *; cbn in *;
      rewrite Hnum, add32_small
        by (unfold int_range, INT_MIN, INT_MAX in *; lia); lia.
  - destruct Hout as [k p0 j0 m3 r0' s0' Hk _ _ _ _ _ _ _ Hd].
    pose proof (lookup_lt_Some _ _ _ Hk) as Hklt.
    pose proof (wf_queue_length s Hwf) as Hlen.
    pose proof (wf_mem_bound s Hwf) as Hmax.
    assert (sub32 (numOfJobs s) 1
            = Z.of_nat (length (delete k (elems (head s))))) as Hsub.
    { rewrite length_delete by eauto. rewrite Hnum, sub32_small
        by (unfold int_range, INT_MIN, INT_MAX in *; lia). lia. }
    by destruct Hd.
  - destruct Hout as [k p0 j0 m3 k' p' j3 Hk _ _ _ _ _ _ _ _ _]. cbn.
    pose proof (lookup_lt_Some _ _ _ Hk) as Hklt.
    rewrite Hnum, length_app, length_delete by eauto. cbn. lia.
Qed.

Lemma reachable_numOfJobs cores scheme now s :
  reachable cores scheme now s →
  numOfJobs s = Z.of_nat (length (elems (head s))).
Proof.
  induction 1 as [Hc|now s e r s' Hreach IH Hev He];
    [by destruct scheme|].
  pose proof (reachable_wf _ _ _ _ Hreach) as Hwf.
  eapply handled_numOfJobs; [done| |done|].
  - by eapply handle_wf.
  - by eapply handle_handled.
Qed.

(** X6. In every reachable state [numOfJobs] is the number of jobs in the
    queue, that is of the jobs that have arrived and not finished, and
    [totalJobs] is the number of jobs that have arrived; both fit an [int].
    The job list is empty ([job_ptr] is [NULL]) exactly when no job has
    arrived. The number of cores and the policy are those of
    [scheduler_start_up], and the core array has one entry per core. *)
Theorem counters_count_jobs cores scheme now (s : sched) :
  reachable cores scheme now s →
  numOfJobs s = Z.of_nat (length (elems (head s))) ∧
  totalJobs s = Z.of_nat (length (mem s)) ∧
  0 ≤ numOfJobs s ≤ totalJobs s ∧ totalJobs s ≤ INT_MAX ∧
  (job_ptr s = None ↔ totalJobs s = 0) ∧
  numOfCores s = cores ∧ sch s = scheme ∧
  Z.of_nat (length (core_arr s)) = cores.
Proof.
  intros Hreach.
  pose proof (reachable_wf _ _ _ _ Hreach) as Hwf.
  pose proof (reachable_numOfJobs _ _ _ _ Hreach) as Hnum.
  destruct (reachable_config _ _ _ _ Hreach) as [Hnc Hsch].
  pose proof (lw_total _ _ _ _ (wf_list s Hwf)) as Htot.
  pose proof (lw_ptr _ _ _ _ (wf_list s Hwf)) as Hptr.
  rewrite field_length in Htot.
  pose proof (wf_queue_length s Hwf). pose proof (wf_mem_bound s Hwf).
  split_and!; [done|done|lia|lia|lia| |done|done|].
  - rewrite Hptr, Htot. unfold field.
    destruct (mem s); cbn; [done|]. split; [done|lia].
  - by rewrite <-(cw_len _ _ _ _ (wf_cores s Hwf)).
Qed.

(** Two cores under SJF after two arrivals and one completion. *)
Lemma counters_count_jobs_witness :
  let es := [NewJob 0 0 5 0; NewJob 1 1 3 0; JobFinished 1 1 4] in
  let now := run_time 2 SJF es in
  let s := run_state 2 SJF es in
  reachable 2 SJF now s ∧
  numOfJobs s = Z.of_nat (length (elems (head s))) ∧
  totalJobs s = Z.of_nat (length (mem s)) ∧
  0 ≤ numOfJobs s ≤ totalJobs s ∧ totalJobs s ≤ INT_MAX ∧
  (job_ptr s = None ↔ totalJobs s = 0) ∧
  numOfCores s = 2 ∧ sch s = SJF ∧
  Z.of_nat (length (core_arr s)) = 2.
Proof.
  intros es now s.
  assert (run_ok 2 SJF es = true) as Hok by (vm_compute; reflexivity).
  pose proof (run_reachable 2 SJF es Hok) as Hreach.
  split; [exact Hreach|].
  exact (counters_count_jobs 2 SJF now s Hreach).
Defined.

(** * The averages in a reachable state *)

(** The plain sum of a list of integers. *)
Definition total (l : list Z) : Z := foldr Z.add 0 l.

Lemma sum_jobs_walk (f : job_t → Z) s n k acc :
  (∀ k v, field next s !! k = Some v →
     v = if decide (S k < length (mem s))%nat then Some (S k) else None) →
  (k + n ≤ length (mem s))%nat →
  sum_jobs f n s (if decide (k < length (mem s))%nat then Some k else None)
    acc
  = Some (foldl add32 acc (f <$> take n (drop k (mem s)))).
Proof.
  intros Hnext. revert k acc. induction n as [|n IH]; intros k acc Hk; [done|].
  cbn [sum_jobs]. rewrite decide_True by lia. cbn.
  destruct (lookup_lt_is_Some_2 (mem s) k) as [j Hj]; [lia|].
  rewrite Hj. cbn.
  rewrite (Hnext k (next j)) by (by apply field_lookup).
  rewrite IH by lia. by rewrite (drop_S _ _ _ Hj).
Qed.

Lemma sum_jobs_all (f : job_t → Z) s :
  wf s →
  sum_jobs f (Z.to_nat (totalJobs s)) s (job_ptr s) 0
  = Some (foldl add32 0 (field f s)).
Proof.
  intros Hwf. pose proof (wf_list s Hwf) as Hl.
  rewrite (lw_total _ _ _ _ Hl), (lw_ptr _ _ _ _ Hl), Nat2Z.id, field_length.
  assert ((if decide (field id s = []) then None else Some 0%nat)
          = if decide (0 < length (mem s))%nat then Some 0%nat else None)
    as ->.
  { unfold field. destruct (mem s); cbn; [done|].
    rewrite decide_False by done. by rewrite decide_True by lia. }
  rewrite sum_jobs_walk; [by rewrite drop_0, firstn_all| |lia].
  intros k v. rewrite <-(field_length id s). apply (lw_next _ _ _ _ Hl).
Qed.

(** X7. In every reachable state the three averages walk the job list
    without running off its end. Each returns the quotient of the sum of
    its field over all the jobs that have arrived, taken in the order of
    their arrival and added as [int]s, by the number of these jobs. *)
Theorem averages_sum_all_jobs cores scheme now (s : sched) :
  reachable cores scheme now s →
  scheduler_average_waiting_time s
  = Some (FloatDiv (foldl add32 0 (field wait_time s))
            (Z.of_nat (length (mem s)))) ∧
  scheduler_average_turnaround_time s
  = Some (FloatDiv (foldl add32 0 (field turnover_time s))
            (Z.of_nat (length (mem s)))) ∧
  scheduler_average_response_time s
  = Some (FloatDiv (foldl add32 0 (field response_time s))
            (Z.of_nat (length (mem s)))).
Proof.
  intros Hreach. pose proof (reachable_wf _ _ _ _ Hreach) as Hwf.
  pose proof (lw_total _ _ _ _ (wf_list s Hwf)) as Htot.
  rewrite field_length in Htot.
  unfold scheduler_average_waiting_time, scheduler_average_turnaround_time,
    scheduler_average_response_time.
  rewrite !sum_jobs_all by done. cbn. by rewrite Htot.
Qed.

(** One core under FCFS, while job 1 still waits for job 0. *)
Lemma averages_sum_all_jobs_witness :
  let es := [NewJob 0 0 5 0; NewJob 1 1 3 0] in
  let now := run_time 1 FCFS es in
  let s := run_state 1 FCFS es in
  reachable 1 FCFS now s ∧
  scheduler_average_waiting_time s
  = Some (FloatDiv (foldl add32 0 (field wait_time s))
            (Z.of_nat (length (mem s)))) ∧
  scheduler_average_turnaround_time s
  = Some (FloatDiv (foldl add32 0 (field turnover_time s))
            (Z.of_nat (length (mem s)))) ∧
  scheduler_average_response_time s
  = Some (FloatDiv (foldl add32 0 (field response_time s))
            (Z.of_nat (length (mem s)))).
Proof.
  intros es now s.
  assert (run_ok 1 FCFS es = true) as Hok by (vm_compute; reflexivity).
  pose proof (run_reachable 1 FCFS es Hok) as Hreach.
  split; [exact Hreach|].
  exact (averages_sum_all_jobs 1 FCFS now s Hreach).
Defined.

Lemma total_cons x l : total (x :: l) = x + total l.
Proof. reflexivity. Qed.

Lemma total_nonneg (l : list Z) : Forall (λ x, 0 ≤ x) l → 0 ≤ total l.
Proof. induction 1; [done|]. rewrite total_cons. lia. Qed.

Lemma foldl_add32_exact (l : list Z) acc :
  Forall (λ x, 0 ≤ x) l → 0 ≤ acc → acc + total l ≤ INT_MAX →
  foldl add32 acc l = acc + total l.
Proof.
  revert acc. induction l as [|x l IH]; intros acc Hl Hacc Hmax.
  { unfold total. cbn. lia. }
  apply Forall_cons in Hl as [Hx Hl]. rewrite total_cons in Hmax |- *.
  pose proof (total_nonneg l Hl) as Hpos. cbn [foldl].
  rewrite add32_small by (unfold int_range, INT_MIN, INT_MAX in *; lia).
  rewrite IH by (done || lia). lia.
Qed.

Lemma total_le (l1 l2 : list Z) :
  Forall2 Z.le l1 l2 → total l1 ≤ total l2.
Proof. induction 1; [done|]. rewrite !total_cons. lia. Qed.

(** X8. Once every job that has arrived has finished (the queue is empty),
    and when the turnaround times add up to at most [INT_MAX], the three
    averages are the quotients of the plain sums of the waiting, turnaround
    and response times by the number of jobs, and these sums are ordered:
    0 ≤ total response time ≤ total waiting time ≤ total turnaround
    time. *)
Theorem averages_after_completion cores scheme now (s : sched) :
  reachable cores scheme now s →
  elems (head s) = [] →
  total (field turnover_time s) ≤ INT_MAX →
  scheduler_average_waiting_time s
  = Some (FloatDiv (total (field wait_time s)) (totalJobs s)) ∧
  scheduler_average_turnaround_time s
  = Some (FloatDiv (total (field turnover_time s)) (totalJobs s)) ∧
  scheduler_average_response_time s
  = Some (FloatDiv (total (field response_time s)) (totalJobs s)) ∧
  0 ≤ total (field response_time s) ∧
  total (field response_time s) ≤ total (field wait_time s) ∧
  total (field wait_time s) ≤ total (field turnover_time s).
Proof.
  intros Hreach Hempty Hmax.
  pose proof (reachable_wf _ _ _ _ Hreach) as Hwf.
  pose proof (reachable_stats _ _ _ _ Hreach) as Hstats.
  assert (∀ p j, mem s !! p = Some j →
            0 ≤ response_time j ∧ response_time j ≤ wait_time j ∧
            wait_time j ≤ turnover_time j) as Hj.
  { intros p j Hp. destruct (Hstats p j Hp) as (Hle & _ & Hout).
    destruct Hout as (? & ? & _); [|done].
    rewrite Hempty. apply not_elem_of_nil. }
  assert (Forall (λ x, 0 ≤ x) (field response_time s)) as Hr0.
  { apply Forall_fmap, Forall_lookup. intros p j Hp. cbn.
    by destruct (Hj p j Hp). }
  assert (Forall2 Z.le (field response_time s) (field wait_time s)) as Hrw.
  { apply Forall2_fmap, Forall2_same_length_lookup_2; [done|].
    intros p j j0 Hp Hp0. assert (j0 = j) as -> by congruence.
    by destruct (Hj p j Hp) as (_ & ? & _). }
  assert (Forall2 Z.le (field wait_time s) (field turnover_time s)) as Hwt.
  { apply Forall2_fmap, Forall2_same_length_lookup_2; [done|].
    intros p j j0 Hp Hp0. assert (j0 = j) as -> by congruence.
    by destruct (Hj p j Hp) as (_ & _ & ?). }
  assert (Forall (λ x, 0 ≤ x) (field wait_time s)) as Hw0.
  { apply Forall_fmap, Forall_lookup. intros p j Hp. cbn.
    destruct (Hj p j Hp) as (? & ? & _). lia. }
  assert (Forall (λ x, 0 ≤ x) (field turnover_time s)) as Ht0.
  { apply Forall_fmap, Forall_lookup. intros p j Hp. cbn.
    destruct (Hj p j Hp) as (? & ? & ?). lia. }
  pose proof (total_le _ _ Hrw) as Hle1.
  pose proof (total_le _ _ Hwt) as Hle2.
  pose proof (total_nonneg _ Hr0) as Hpos.
  unfold scheduler_average_waiting_time, scheduler_average_turnaround_time,
    scheduler_average_response_time.
  rewrite !sum_jobs_all by done. cbn.
  rewrite !foldl_add32_exact by (done || lia).
  by rewrite !Z.add_0_l.
Qed.

(** One core under FCFS: job 0 runs from 0 to 5, job 1 from 5 to 8. *)
Lemma averages_after_completion_witness :
  let es := [NewJob 0 0 5 0; NewJob 1 1 3 0; JobFinished 0 0 5;
             JobFinished 0 1 8] in
  let now := run_time 1 FCFS es in
  let s := run_state 1 FCFS es in
  reachable 1 FCFS now s ∧
  elems (head s) = [] ∧
  total (field turnover_time s) ≤ INT_MAX ∧
  scheduler_average_waiting_time s
  = Some (FloatDiv (total (field wait_time s)) (totalJobs s)) ∧
  scheduler_average_turnaround_time s
  = Some (FloatDiv (total (field turnover_time s)) (totalJobs s)) ∧
  scheduler_average_response_time s
  = Some (FloatDiv (total (field response_time s)) (totalJobs s)) ∧
  0 ≤ total (field response_time s) ∧
  total (field response_time s) ≤ total (field wait_time s) ∧
  total (field wait_time s) ≤ total (field turnover_time s).
Proof.
  intros es now s.
  assert (run_ok 1 FCFS es = true) as Hok by (vm_compute; reflexivity).
  pose proof (run_reachable 1 FCFS es Hok) as Hreach.
  assert (elems (head s) = []) as Hel by (vm_compute; reflexivity).
  assert (total (field turnover_time s) ≤ INT_MAX) as Hmax
    by (by vm_compute).
  do 3 (split; [assumption|]).
  exact (averages_after_completion 1 FCFS now s Hreach Hel Hmax).
Defined.

(** * The comparers as orders *)

(** The field a policy breaks ties with lies between 0 and [INT_MAX], so
    that the difference the comparer returns does not overflow. *)
Definition tie_break (scheme : scheme_t) (j : job_t) : Z :=
  if decide (scheme = RR) then turn j else id j.

(** The key a policy compares first; none under FCFS and RR. *)
Definition first_key (scheme : scheme_t) (j : job_t) : Z :=
  match scheme with
  | SJF | PSJF => remaining_time j
  | PRI | PPRI => priority j
  | _ => 0
  end.

(** X9. For every policy, the comparer that [scheduler_start_up] installs
    is a strict total order on the jobs whose tie-breaking field (the turn
    under RR, the id otherwise) lies between 0 and [INT_MAX]: it is
    negative exactly when the first key of [a] (the remaining time under
    SJF and PSJF, the priority under PRI and PPRI, none under FCFS and RR)
    is smaller, or the first keys are equal and the tie-breaking field of
    [a] is smaller; it is negative one way exactly when it is positive the
    other way; it is zero only for equal keys; and it is transitive. *)
Theorem comparer_is_strict_total_order (cores : Z) (scheme : scheme_t)
    (a b c : job_t) :
  0 ≤ tie_break scheme a ≤ INT_MAX →
  0 ≤ tie_break scheme b ≤ INT_MAX →
  0 ≤ tie_break scheme c ≤ INT_MAX →
  let cmp := comparer (head (scheduler_start_up cores scheme)) in
  (cmp a b < 0 ↔
   first_key scheme a < first_key scheme b ∨
   (first_key scheme a = first_key scheme b ∧
    tie_break scheme a < tie_break scheme b)) ∧
  (cmp a b < 0 ↔ 0 < cmp b a) ∧
  (cmp a b = 0 ↔
   first_key scheme a = first_key scheme b ∧
   tie_break scheme a = tie_break scheme b) ∧
  (cmp a b < 0 → cmp b c < 0 → cmp a c < 0).
Proof.
  intros Ha Hb Hc cmp. subst cmp.
  assert (∀ x y, 0 ≤ x ≤ INT_MAX → 0 ≤ y ≤ INT_MAX → sub32 x y = x - y)
    as Hsub.
  { intros x y Hx Hy. apply sub32_small.
    unfold int_range, INT_MIN, INT_MAX in *. lia. }
  destruct scheme; unfold tie_break in *; cbn in *;
    unfold compare1, compare2, compare3, compare4;
    repeat case_decide; try done; rewrite ?Hsub by done; lia.
Qed.

Lemma comparer_is_strict_total_order_witness :
  let a := Job 0 0 9 2 4 0 (-1) 0 (-1) (-1) 0 None in
  let b := Job 1 3 5 1 5 (-1) (-1) (-1) (-1) (-1) (-1) None in
  let c := Job 2 4 7 1 7 (-1) (-1) (-1) (-1) (-1) (-1) None in
  let cmp := comparer (head (scheduler_start_up 1 PPRI)) in
  0 ≤ tie_break PPRI a ≤ INT_MAX ∧
  0 ≤ tie_break PPRI b ≤ INT_MAX ∧
  0 ≤ tie_break PPRI c ≤ INT_MAX ∧
  (cmp a b < 0 ↔
   first_key PPRI a < first_key PPRI b ∨
   (first_key PPRI a = first_key PPRI b ∧
    tie_break PPRI a < tie_break PPRI b)) ∧
  (cmp a b < 0 ↔ 0 < cmp b a) ∧
  (cmp a b = 0 ↔
   first_key PPRI a = first_key PPRI b ∧
   tie_break PPRI a = tie_break PPRI b) ∧
  (cmp a b < 0 → cmp b c < 0 → cmp a c < 0).
Proof.
  intros a b c cmp.
  assert (0 ≤ tie_break PPRI a ≤ INT_MAX) as Ha by (by vm_compute).
  assert (0 ≤ tie_break PPRI b ≤ INT_MAX) as Hb by (by vm_compute).
  assert (0 ≤ tie_break PPRI c ≤ INT_MAX) as Hc by (by vm_compute).
  do 3 (split; [assumption|]).
  exact (comparer_is_strict_total_order 1 PPRI a b c Ha Hb Hc).
Defined.

(** * scheduler_clean_up *)

(** What [scheduler_clean_up] gives back, in the order of the calls:
    [free] of a job, [free(core_arr)], [priqueue_destroy(head)] and
    [free(head)]. *)
Inductive release :=
  | FreeJob (a : ptr)
  | FreeCoreArr
  | DestroyQueue
  | FreeQueue.

(** [p->field] for a job that may have been freed: a fault when [p] is
    [NULL] or was freed. *)
Definition live_load (s : sched) (freed : list ptr) (p : option ptr)
  : option job_t :=
  a ← p; if decide (a ∈ freed) then None else mem s !! a.

(** [free(a)]: a fault when [a] was freed before. *)
Definition free_job (freed : list ptr) (a : ptr) : option (list ptr) :=
  if decide (a ∈ freed) then None else Some (freed ++ [a]).

(** [while((job_ptr != NULL) && (i < (totalJobs - 1)) && (totalJobs > 1))],
    with the jobs freed so far. *)
Fixpoint clean_jobs (fuel : nat) (i : Z) (s : sched) (freed : list ptr)
  : option (Z * sched * list ptr) :=
  if decide (job_ptr s ≠ None ∧ i < sub32 (totalJobs s) 1 ∧ totalJobs s > 1)
  then
    match fuel with
    | O => None
    | S fuel' =>
        tmp ← job_ptr s;
        j ← live_load s freed (Some tmp);
        let s := with_job_ptr (next j) s in
        let s := store s tmp (set_next None j) in
        freed ← free_job freed tmp;
        clean_jobs fuel' (add32 i 1) s freed
    end
  else Some (i, s, freed).

(** The result: the final [job_ptr], the calls that release memory, in
    order, and the job memory (whose freed cells are dead). The pointers
    [core_arr] and [head] are [NULL] at the end in any case. *)
Record released := Released {
  rel_job_ptr : option ptr;
  rel_calls : list release;
  rel_mem : list job_t
}.

Definition scheduler_clean_up (s : sched) : option released :=
  '(i, s, freed) ← clean_jobs (Z.to_nat (totalJobs s)) 0 s [];
  '(s, freed) ←
    (if decide (i = sub32 (totalJobs s) 1 ∨ totalJobs s = 1) then
       a ← job_ptr s;
       j ← live_load s freed (Some a);
       let s := store s a (set_next None j) in
       freed ← free_job freed a;
       Some (with_job_ptr None s, freed)
     else Some (s, freed));
  Some (Released (job_ptr s)
          ((FreeJob <$> freed) ++ [FreeCoreArr; DestroyQueue; FreeQueue])
          (mem s)).

Lemma clean_jobs_spec fuel (i : nat) s freed :
  totalJobs s = Z.of_nat (length (mem s)) →
  Z.of_nat (length (mem s)) ≤ INT_MAX →
  (i < length (mem s))%nat → job_ptr s = Some i →
  (∀ k j, (i ≤ k)%nat → mem s !! k = Some j →
     next j = if decide (S k < length (mem s))%nat then Some (S k) else None) →
  (∀ a, a ∈ freed → (a < i)%nat) →
  (length (mem s) - 1 - i ≤ fuel)%nat →
  ∃ m',
    clean_jobs fuel (Z.of_nat i) s freed
    = Some (Z.of_nat (length (mem s) - 1),
            with_mem m' (with_job_ptr (Some (length (mem s) - 1)%nat) s),
            freed ++ seq i (length (mem s) - 1 - i)) ∧
    length m' = length (mem s) ∧
    (∀ k, (length (mem s) - 1 ≤ k)%nat → m' !! k = mem s !! k).
Proof.
  revert i s freed.
  induction fuel as [|fuel IH]; intros i s freed Htot Hmax Hi Hptr Hnext
    Hfreed Hfuel.
  - assert (i = length (mem s) - 1)%nat as Hlast by lia.
    exists (mem s). cbn. rewrite Htot, Hptr.
    rewrite sub32_small by (unfold int_range, INT_MIN, INT_MAX in *; lia).
    rewrite decide_False by lia.
    replace (length (mem s) - 1 - i)%nat with 0%nat by lia.
    rewrite app_nil_r, <-Hlast. split; [|done].
    do 3 f_equal. destruct s. cbn in *. by subst.
  - cbn [clean_jobs]. rewrite Htot, Hptr.
    rewrite sub32_small by (unfold int_range, INT_MIN, INT_MAX in *; lia).
    destruct (decide (i = length (mem s) - 1)%nat) as [Hlast|Hmore].
    { exists (mem s). rewrite decide_False by lia.
      replace (length (mem s) - 1 - i)%nat with 0%nat by lia.
      rewrite app_nil_r, <-Hlast. split; [|done].
      do 3 f_equal. destruct s. cbn in *. by subst. }
    rewrite decide_True by (split_and!; [done|lia|lia]). cbn.
    rewrite decide_False by (intros Hin; apply Hfreed in Hin; lia).
    destruct (lookup_lt_is_Some_2 (mem s) i Hi) as [j Hj]. rewrite Hj. cbn.
    rewrite (Hnext i j) by done. rewrite decide_True by lia.
    unfold free_job.
    rewrite decide_False by (intros Hin; apply Hfreed in Hin; lia). cbn.
    rewrite add32_small by (unfold int_range, INT_MIN, INT_MAX in *; lia).
    replace (Z.of_nat i + 1) with (Z.of_nat (S i)) by lia.
    set (s1 := store (with_job_ptr (Some (S i)) s) i (set_next None j)).
    assert (length (mem s1) = length (mem s)) as Hlen
      by (unfold s1; cbn; by rewrite length_insert).
    destruct (IH (S i) s1 (freed ++ [i])) as (m' & Hrun & Hlen' & Hkeep).
    + by rewrite Hlen.
    + by rewrite Hlen.
    + rewrite Hlen. lia.
    + done.
    + intros k j1 Hk Hj1. rewrite Hlen. apply (Hnext k); [lia|].
      unfold s1 in Hj1. cbn in Hj1.
      by rewrite list_lookup_insert_ne in Hj1 by lia.
    + intros a [Ha|Ha%list_elem_of_singleton]%elem_of_app;
        [apply Hfreed in Ha|]; lia.
    + rewrite Hlen. lia.
    + exists m'. rewrite Hrun, Hlen. split_and!.
      * replace (length (mem s) - 1 - i)%nat
          with (S (length (mem s) - 1 - S i)) by lia.
        by rewrite <-app_assoc.
      * by rewrite Hlen'.
      * intros k Hk. rewrite Hkeep by lia. unfold s1. cbn.
        by rewrite list_lookup_insert_ne by lia.
Qed.

(** X10. In every reachable state [scheduler_clean_up] frees every job that
    has arrived exactly once, in the order of the job list, then the core
    array, the contents of the queue and the queue itself, and leaves
    [job_ptr] [NULL]. It dereferences no [NULL] pointer and no freed job,
    and frees nothing twice; when no job has arrived it frees no job. *)
Theorem clean_up_frees_every_job_once cores scheme now (s : sched) :
  reachable cores scheme now s →
  ∃ m',
    scheduler_clean_up s
    = Some (Released None
              ((FreeJob <$> seq 0 (length (mem s)))
               ++ [FreeCoreArr; DestroyQueue; FreeQueue])
              m').
Proof.
  intros Hreach. pose proof (reachable_wf _ _ _ _ Hreach) as Hwf.
  pose proof (wf_list s Hwf) as Hl.
  pose proof (lw_total _ _ _ _ Hl) as Htot. rewrite field_length in Htot.
  pose proof (lw_ptr _ _ _ _ Hl) as Hptr.
  pose proof (wf_mem_bound s Hwf) as Hmax.
  unfold scheduler_clean_up.
  destruct (decide (length (mem s) = 0)%nat) as [Hnil|Hpos].
  - assert (job_ptr s = None) as Hnone.
    { rewrite Hptr. unfold field. destruct (mem s); [done|cbn in Hnil; lia]. }
    assert (clean_jobs (Z.to_nat (totalJobs s)) 0 s [] = Some (0, s, []))
      as ->.
    { destruct (Z.to_nat (totalJobs s)); cbn [clean_jobs];
        by rewrite decide_False by (rewrite Hnone; intros [? _]; done). }
    cbn [mbind option_bind]. rewrite Htot, Hnil.
    rewrite decide_False by (by intros [?|?]).
    cbn [mbind option_bind]. rewrite Hnone. cbn. eauto.
  - assert (job_ptr s = Some 0%nat) as Hsome.
    { rewrite Hptr. unfold field. destruct (mem s); [done|].
      by rewrite decide_False. }
    destruct (clean_jobs_spec (Z.to_nat (totalJobs s)) 0 s [])
      as (m' & Hrun & Hlen & Hkeep); [done|done|lia|done| | |lia|].
    { intros k j _ Hj. rewrite <-(field_length id s).
      apply (lw_next _ _ _ _ Hl k). by apply field_lookup. }
    { intros a Ha. by apply elem_of_nil in Ha. }
    change (Z.of_nat 0) with 0 in Hrun. rewrite Hrun. cbn.
    rewrite Htot.
    rewrite sub32_small by (unfold int_range, INT_MIN, INT_MAX in *; lia).
    rewrite decide_True by lia. cbn.
    rewrite decide_False by (rewrite elem_of_seq; lia).
    destruct (lookup_lt_is_Some_2 (mem s) (length (mem s) - 1)) as [j Hj];
      [lia|].
    rewrite Hkeep, Hj by lia. cbn. unfold free_job.
    rewrite decide_False by (rewrite elem_of_seq; lia). cbn.
    eexists. do 2 f_equal. f_equal. f_equal.
    replace (length (mem s)) with (S (length (mem s) - 1)) at 3 by lia.
    rewrite seq_S. f_equal. rewrite Nat.sub_0_r. done.
Qed.

(** One core under FCFS after three arrivals. *)
Lemma clean_up_frees_every_job_once_witness :
  let es := [NewJob 0 0 5 0; NewJob 1 1 3 0; NewJob 2 2 1 0] in
  let now := run_time 1 FCFS es in
  let s := run_state 1 FCFS es in
  reachable 1 FCFS now s ∧
  ∃ m',
    scheduler_clean_up s
    = Some (Released None
              ((FreeJob <$> seq 0 (length (mem s)))
               ++ [FreeCoreArr; DestroyQueue; FreeQueue])
              m').
Proof.
  intros es now s.
  assert (run_ok 1 FCFS es = true) as Hok by (vm_compute; reflexivity).
  pose proof (run_reachable 1 FCFS es Hok) as Hreach.
  split; [exact Hreach|].
  exact (clean_up_frees_every_job_once 1 FCFS now s Hreach).
Defined.

(** * scheduler_show_queue *)

From Stdlib Require String.
From stdpp Require pretty.

Module printf.
Import String.
Local Open Scope string_scope.

(** What [printf("%d(%d) ", x, y)] writes. *)
Definition show_entry (x y : Z) : string :=
  pretty.pretty x ++ "(" ++ pretty.pretty y ++ ") ".
End printf.

(** [for(i = 0; i < priqueue_size(head); i++) printf(...)]: iteration [i],
    with the output of the calls of [printf] so far. Both arguments of
    [printf] read the queue. *)
Fixpoint show_loop (fuel i : nat) (s : sched) (out : list String.string)
  : option (list String.string) :=
  if decide (Z.of_nat i < priqueue_size (head s)) then
    match fuel with
    | O => None
    | S fuel' =>
        a ← priqueue_at (head s) i;
        j ← mem s !! a;
        a' ← priqueue_at (head s) i;
        j' ← mem s !! a';
        show_loop fuel' (S i) s (out ++ [printf.show_entry (id j) (core_id j')])
    end
  else Some out.

Definition scheduler_show_queue (s : sched)
  : option (list String.string) :=
  show_loop (length (elems (head s))) 0 s [].

Lemma show_loop_spec fuel i s out :
  (∀ p, p ∈ elems (head s) → (p < length (mem s))%nat) →
  (length (elems (head s)) ≤ fuel + i)%nat →
  show_loop fuel i s out
  = Some (out ++ ((λ j, printf.show_entry (id j) (core_id j))
                  <$> omap (λ p, mem s !! p) (drop i (elems (head s))))).
Proof.
  intros Hv. revert i out.
  induction fuel as [|fuel IH]; intros i out Hlen; cbn [show_loop];
    unfold priqueue_size, priqueue_at.
  - rewrite decide_False by lia. rewrite drop_ge by lia.
    by rewrite app_nil_r.
  - case_decide as Hi; cycle 1.
    { rewrite drop_ge by lia. by rewrite app_nil_r. }
    destruct (lookup_lt_is_Some_2 (elems (head s)) i) as [a Ha]; [lia|].
    destruct (lookup_lt_is_Some_2 (mem s) a) as [j Hj].
    { apply Hv, list_elem_of_lookup. eauto. }
    rewrite Ha. cbn. rewrite Hj. cbn.
    rewrite IH by lia. rewrite (drop_S _ _ _ Ha). cbn. rewrite Hj. cbn.
    by rewrite <-app_assoc.
Qed.

(** X11. In every reachable state [scheduler_show_queue] reads no job
    outside the queue and no [NULL] pointer; it prints one entry
    ["id(core_id) "] for every queued job, in queue order, and so as
    many entries as [numOfJobs]. *)
Theorem show_queue_prints_the_queue cores scheme now (s : sched) :
  reachable cores scheme now s →
  scheduler_show_queue s
  = Some ((λ j, printf.show_entry (id j) (core_id j)) <$> queue_jobs s) ∧
  Forall2 (λ p j, mem s !! p = Some j) (elems (head s)) (queue_jobs s) ∧
  Z.of_nat (length (queue_jobs s)) = numOfJobs s.
Proof.
  intros Hreach. pose proof (reachable_wf _ _ _ _ Hreach) as Hwf.
  pose proof (wf_queue_valid s Hwf) as Hv.
  assert (Forall2 (λ p j, mem s !! p = Some j) (elems (head s))
            (queue_jobs s)) as Hjobs.
  { unfold queue_jobs. induction (elems (head s)) as [|p q IH]; [done|].
    destruct (lookup_lt_is_Some_2 (mem s) p) as [j Hj];
      [apply Hv; by left|].
    cbn. rewrite Hj. cbn. constructor; [done|].
    apply IH. intros p' Hp'. apply Hv. by right. }
  split_and!; [|done|].
  - unfold scheduler_show_queue. rewrite show_loop_spec by (done || lia).
    by rewrite drop_0.
  - rewrite (reachable_numOfJobs _ _ _ _ Hreach).
    by rewrite (Forall2_length _ _ _ Hjobs).
Qed.

(** One core under PRI: job 0 runs, job 1 and the more urgent job 2 wait. *)
Lemma show_queue_prints_the_queue_witness :
  let es := [NewJob 0 0 5 1; NewJob 1 1 3 2; NewJob 2 2 3 0] in
  let now := run_time 1 PRI es in
  let s := run_state 1 PRI es in
  reachable 1 PRI now s ∧
  scheduler_show_queue s
  = Some ((λ j, printf.show_entry (id j) (core_id j)) <$> queue_jobs s) ∧
  Forall2 (λ p j, mem s !! p = Some j) (elems (head s)) (queue_jobs s) ∧
  Z.of_nat (length (queue_jobs s)) = numOfJobs s.
Proof.
  intros es now s.
  assert (run_ok 1 PRI es = true) as Hok by (vm_compute; reflexivity).
  pose proof (run_reachable 1 PRI es Hok) as Hreach.
  split; [exact Hreach|].
  exact (show_queue_prints_the_queue 1 PRI now s Hreach).
Defined.

(** * scheduler_new_job in detail

    The rank at which the new job enters the queue, the remaining times
    after the call, and the victim of a preemption. *)

(** The loop "Update the remaining time of jobs that are currently active",
    on one job. *)
Definition refresh (time : Z) (j : job_t) : job_t :=
  if decide (core_id j ≠ -1)
  then set_remaining_time (remaining_at time j) j else j.

Lemma refresh_idem time j : refresh time (refresh time j) = refresh time j.
Proof.
  unfold refresh. destruct (decide (core_id j ≠ -1)) as [Hc|Hc]; cbn.
  - by rewrite decide_True.
  - by rewrite decide_False.
Qed.

Lemma refresh_inactive_id time j : core_id j = -1 → refresh time j = j.
Proof. intros Hc. unfold refresh. by rewrite decide_False by lia. Qed.

Lemma update_active_refresh fuel i time s :
  (∀ p, p ∈ elems (head s) → (p < length (mem s))%nat) →
  (length (elems (head s)) ≤ fuel + i)%nat →
  update_active fuel i time s
  = Some (with_mem
            (foldl (λ m p, alter (refresh time) p m) (mem s)
               (drop i (elems (head s)))) s).
Proof.
  revert i s. induction fuel as [|fuel IH]; intros i s Hv Hlen;
    cbn [update_active]; unfold priqueue_size, priqueue_at.
  - rewrite decide_False by lia. rewrite drop_ge by lia. cbn.
    by rewrite with_mem_id.
  - case_decide as Hi; cycle 1.
    { rewrite drop_ge by lia. cbn. by rewrite with_mem_id. }
    destruct (lookup_lt_is_Some_2 (elems (head s)) i) as [a Ha]; [lia|].
    destruct (lookup_lt_is_Some_2 (mem s) a) as [j Hj].
    { apply Hv, list_elem_of_lookup. eauto. }
    rewrite Ha. cbn. rewrite Hj. cbn.
    assert ((if decide (core_id j ≠ -1)
             then store s a (set_remaining_time (remaining_at time j) j)
             else s)
            = with_mem (alter (refresh time) a (mem s)) s) as ->.
    { rewrite <-(store_alter s a j (refresh time) Hj). unfold refresh.
      case_decide; [done|]. unfold store.
      rewrite list_insert_id by done. by rewrite with_mem_id. }
    rewrite IH; cbn; [|intros p Hp; rewrite length_alter; auto|lia].
    by rewrite (drop_S _ _ _ Ha).
Qed.

Lemma refresh_all_lookup time (l : list ptr) (m : list job_t) p :
  foldl (λ m p, alter (refresh time) p m) m l !! p
  = (if decide (p ∈ l) then refresh time else λ j, j) <$> m !! p.
Proof.
  revert m. induction l as [|a l IH]; intros m; cbn [foldl].
  - rewrite decide_False by apply not_elem_of_nil. by destruct (m !! p).
  - rewrite IH. rewrite list_lookup_alter.
    destruct (decide (a = p)) as [->|Hne].
    + rewrite (decide_True (P := p ∈ p :: l)) by (by left).
      destruct (m !! p) as [j|]; [cbn|by case_decide].
      case_decide; [by rewrite refresh_idem|done].
    + destruct (decide (p ∈ l)) as [Hin|Hnin].
      * by rewrite decide_True by (by right).
      * rewrite decide_False; [done|].
        intros [?|?]%elem_of_cons; [by subst|done].
Qed.

Section new_job_detail.
Context (s : sched) (job_number time running_time priority : Z).

(** The memory once the job is registered and the remaining times of the
    running jobs are refreshed. *)
Definition refreshed : list job_t :=
  refresh time
  <$> (linked (mem s) ++ [fresh_job job_number time running_time priority]).

Inductive new_job_detail : Z → sched → Prop :=
  | njd_idle (i k : nat) :
      core_arr s !! i = Some 0 →
      (∀ i', (i' < i)%nat → core_arr s !! i' ≠ Some 0) →
      offer_rank
        (alter (λ j, stamp s (run_on (Z.of_nat i) j)) (length (mem s))
           refreshed)
        (comparer (head s))
        (stamp s (run_on (Z.of_nat i)
                    (fresh_job job_number time running_time priority)))
        (elems (head s))
      = Some k →
      new_job_detail (Z.of_nat i)
        (new_job_state s (<[i:=1]> (core_arr s)) k
           (alter (λ j, stamp s (run_on (Z.of_nat i) j)) (length (mem s))
              refreshed))
  | njd_preempt (k iv v : nat) jv :
      (∀ i', core_arr s !! i' ≠ Some 0) →
      sch s = PSJF ∨ sch s = PPRI →
      offer_rank refreshed (comparer (head s))
        (fresh_job job_number time running_time priority) (elems (head s))
      = Some k →
      Z.of_nat k < numOfCores s →
      (take k (elems (head s)) ++ length (mem s) :: drop k (elems (head s)))
        !! iv = Some v →
      refreshed !! v = Some jv → core_id jv ≠ -1 →
      (∀ i' a' j', (iv < i')%nat →
         (take k (elems (head s))
          ++ length (mem s) :: drop k (elems (head s))) !! i' = Some a' →
         refreshed !! a' = Some j' → core_id j' = -1) →
      new_job_detail (core_id jv)
        (new_job_state s (core_arr s) k
           (alter (run_on (core_id jv)) (length (mem s))
              (alter (evict time) v refreshed)))
  | njd_wait (k : nat) :
      (∀ i', core_arr s !! i' ≠ Some 0) →
      offer_rank (alter (stamp s) (length (mem s)) refreshed)
        (comparer (head s))
        (stamp s (fresh_job job_number time running_time priority))
        (elems (head s))
      = Some k →
      (sch s = PSJF ∨ sch s = PPRI → numOfCores s ≤ Z.of_nat k) →
      new_job_detail (-1)
        (new_job_state s (core_arr s) k
           (alter (stamp s) (length (mem s)) refreshed)).
End new_job_detail.

Lemma registered_refresh s n time d pr :
  wf s →
  foldl (λ m p, alter (refresh time) p m)
    (linked (mem s) ++ [fresh_job n time d pr]) (elems (head s))
  = refreshed s n time d pr.
Proof.
  intros Hwf. apply list_eq. intros p. unfold refreshed.
  rewrite refresh_all_lookup, list_lookup_fmap.
  case_decide as Hp; [done|].
  destruct ((linked (mem s) ++ [fresh_job n time d pr]) !! p) as [j|] eqn:Hj;
    [cbn|done].
  f_equal. symmetry. apply refresh_inactive_id.
  destruct (decide (p < length (mem s))%nat) as [Hlt|Hge].
  - rewrite lookup_app_l in Hj by (by rewrite linked_length).
    destruct (lookup_lt_is_Some_2 (mem s) p Hlt) as [j0 Hj0].
    assert (core_id j = core_id j0) as ->.
    { unfold linked in Hj. rewrite list_lookup_alter in Hj.
      case_decide as Heq; [rewrite Heq in Hj|]; rewrite Hj0 in Hj;
        cbn in Hj; injection Hj as <-; done. }
    by apply (wf_off_queue s p j0).
  - rewrite lookup_app_r in Hj by (rewrite linked_length; lia).
    rewrite linked_length in Hj.
    destruct (p - length (mem s))%nat; [|done]. by injection Hj as <-.
Qed.

Lemma refreshed_arrived s n time d pr :
  arrived s n time d pr (refreshed s n time d pr).
Proof.
  unfold arrived, refreshed.
  apply Forall2_same_length_lookup_2; [by rewrite length_fmap|].
  intros p j j' Hj Hj'. rewrite list_lookup_fmap, Hj in Hj'.
  injection Hj' as <-. unfold refresh, refresh_rel.
  case_decide; [right|left]; done.
Qed.

Lemma offer_rank_exec s0 a j k :
  mem s0 !! a = Some j →
  offer_rank (mem s0) (comparer (head s0)) j (elems (head s0)) = Some k →
  offer s0 a
  = Some (k, with_head
               (Priqueue (comparer (head s0))
                  (take k (elems (head s0)) ++ a :: drop k (elems (head s0))))
               s0).
Proof. intros Ha Hk. unfold offer, priqueue_offer. by rewrite Ha; cbn; rewrite Hk. Qed.

Lemma last_active_last s n :
  (n ≤ length (elems (head s)))%nat →
  (∀ p, p ∈ elems (head s) → (p < length (mem s))%nat) →
  (∃ i a j, last_active s n = Some (Some a) ∧ (i < n)%nat ∧
       elems (head s) !! i = Some a ∧ mem s !! a = Some j ∧ core_id j ≠ -1 ∧
       ∀ i' a' j', (i < i' < n)%nat → elems (head s) !! i' = Some a' →
                   mem s !! a' = Some j' → core_id j' = -1) ∨
  (last_active s n = Some None ∧
   ∀ i a j, (i < n)%nat → elems (head s) !! i = Some a → mem s !! a = Some j →
      core_id j = -1).
Proof.
  intros Hn Hv. induction n as [|n IH]; simpl.
  - right. split; [done|]. intros i a j Hi. lia.
  - unfold priqueue_at.
    destruct (lookup_lt_is_Some_2 (elems (head s)) n) as [a Ha]; [lia|].
    rewrite Ha. simpl.
    destruct (lookup_lt_is_Some_2 (mem s) a) as [j Hj].
    { apply Hv, list_elem_of_lookup. eauto. }
    rewrite Hj. simpl. case_decide as Hc.
    + left. exists n, a, j. split_and!; [done|lia|done..|]. intros; lia.
    + assert (core_id j = -1) as Hcj.
      { destruct (decide (core_id j = -1)); [done|]. by destruct Hc. }
      destruct IH as [(i & a' & j' & -> & Hi & Ha' & Hj' & Hc' & Hlast)
                     |[-> Hall]]; [lia|..].
      * left. exists i, a', j'. split_and!; [done|lia|done..|].
        intros i' a'' j'' Hi' Ha'' Hj''.
        destruct (decide (i' = n)) as [->|]; [congruence|].
        eapply (Hlast i'); [lia|done..].
      * right. split; [done|]. intros i a' j' Hi Ha' Hj'.
        destruct (decide (i = n)) as [->|]; [congruence|].
        eapply Hall; [|done..]. lia.
Qed.

Lemma new_job_exec_detail s job_number time running_time priority :
  wf s → arrival_ok s job_number →
  ∃ r s',
    scheduler_new_job s job_number time running_time priority = Some (r, s') ∧
    new_job_detail s job_number time running_time priority r s'.
Proof.
  intros Hwf Hok. unfold scheduler_new_job. cbv zeta.
  change (append_job _ job_number)
    with (append_job (with_totalJobs (add32 (totalJobs s) 1)
                        (with_numOfJobs (add32 (numOfJobs s) 1) s))
            job_number).
  rewrite (append_job_spec s job_number Hwf Hok). cbn -[registered].
  rewrite registered_store.
  set (fresh := fresh_job job_number time running_time priority).
  set (n := length (mem s)).
  change (length (elems (head (registered s job_uninit))))
    with (length (elems (head s))).
  rewrite update_active_refresh; cycle 1.
  { simpl. intros p Hp%(wf_queue_valid s Hwf).
    rewrite length_app, linked_length. lia. }
  { simpl. lia. }
  cbn -[registered]. rewrite drop_0.
  change (mem (registered s fresh)) with (linked (mem s) ++ [fresh]).
  change (elems (head (registered s fresh))) with (elems (head s)).
  subst fresh. rewrite registered_refresh by done.
  pose proof (refreshed_arrived s job_number time running_time priority)
    as Hm2.
  remember (refreshed s job_number time running_time priority) as m2
    eqn:Hm2def.
  remember (fresh_job job_number time running_time priority) as fresh
    eqn:Hfreshdef.
  cbn.
  assert (m2 !! n = Some fresh) as Hfresh
    by (rewrite Hfreshdef; by eapply arrived_fresh).
  assert (length m2 = S n) as Hlen2 by by eapply arrived_length.
  pose proof (wf_cores s Hwf) as Hcw.
  pose proof (cw_len _ _ _ _ Hcw) as Hnc.
  assert (∀ p, p ∈ elems (head s) → (p < length m2)%nat) as Hv2.
  { intros p Hp%(wf_queue_valid s Hwf). fold n in Hp. lia. }
  destruct (first_idle_spec (Z.to_nat (numOfCores s)) 0 (core_arr s))
    as [(i & -> & Hr & Hi & Hlow)|[-> Hall]]; [lia|..]; cbn.
  - rewrite Hfresh. cbn.
    rewrite (store_alter _ n fresh (run_on (Z.of_nat i))) by done.
    erewrite (stamp_turn_spec _ s n); [|done|done|]; cycle 1.
    { cbn. by rewrite list_lookup_alter_eq, Hfresh. }
    cbn. rewrite list_alter_alter_eq.
    match goal with |- context [offer ?s0 n] =>
      destruct (offer_rank_total (mem s0) (comparer (head s0))
                  (stamp s (run_on (Z.of_nat i) fresh)) (elems (head s0)))
        as [k Hk];
      [|rewrite (offer_rank_exec s0 n _ k) by
          (done || (cbn; by rewrite list_lookup_alter_eq, Hfresh))] end.
    { cbn. intros p Hp. rewrite length_alter. auto. }
    cbn. rewrite write_core_in by (cbn; lia). cbn.
    eexists _, _. split; [done|]. cbn in Hk. subst m2 fresh.
    apply (njd_idle s job_number time running_time priority i k);
      [done|intros; apply Hlow; lia|done].
  - assert (∀ i', core_arr s !! i' ≠ Some 0) as Hbusy.
    { intros i' Hi'. pose proof (lookup_lt_Some _ _ _ Hi').
      apply (Hall i'); [lia|done]. }
    destruct (decide (sch s = PSJF ∨ sch s = PPRI)) as [Hpre|Hnpre].
    + assert (sch s ≠ RR) as Hnrr
        by (intros Heq; rewrite Heq in Hpre; by destruct Hpre).
      assert (∀ m : list job_t, alter (stamp s) n m = m) as Hstamp.
      { intros m. apply list_alter_id. intros j. unfold stamp.
        by rewrite decide_False. }
      match goal with |- context [offer ?s0 n] =>
        destruct (offer_rank_total (mem s0) (comparer (head s0))
                    fresh (elems (head s0))) as [k Hk];
        [|rewrite (offer_rank_exec s0 n _ k) by done] end.
      { cbn. auto. }
      cbn in Hk. cbn.
      destruct (decide (Z.of_nat k < numOfCores s)) as [Hlt|Hge]; cycle 1.
      { eexists _, _. split; [done|].
        rewrite <-(Hstamp m2). subst m2 fresh.
        apply (njd_wait s job_number time running_time priority k);
          [done| |intros; lia].
        rewrite Hstamp. unfold stamp. by rewrite decide_False. }
      match goal with |- context [last_active ?s0 ?n0] =>
        destruct (last_active_last s0 n0)
          as [(iv & v & jv & -> & _ & Hiv & Hjv & Hcv & Hlast)|[-> Hnone]] end.
      { done. }
      { cbn. intros p Hp. rewrite insert_at_perm in Hp.
        apply elem_of_cons in Hp as [->|Hp]; [lia|auto]. }
      * cbn in Hiv, Hjv, Hlast. cbn.
        assert (v ∈ elems (head s)) as Hvl.
        { apply list_elem_of_lookup_2 in Hiv. rewrite insert_at_perm in Hiv.
          apply elem_of_cons in Hiv as [->|?]; [|done].
          rewrite Hfresh in Hjv. injection Hjv as <-.
          by rewrite Hfreshdef in Hcv. }
        destruct (lookup_lt_is_Some_2 (mem s) v) as [jv0 Hjv0];
          [by apply (wf_queue_valid s Hwf)|].
        destruct (arrived_old _ _ _ _ _ _ Hm2 v jv0 Hjv0)
          as (jv' & Hjv' & Hsame).
        assert (jv' = jv) as -> by congruence.
        pose proof (field_lookup core_id s v jv0 Hjv0) as Hcid.
        rewrite <-(Hsame _ core_id) in Hcid by done.
        destruct (cw_assign _ _ _ _ Hcw v _ Hcid Hcv) as (_ & Hc0 & Hc1).
        assert (v ≠ n) as Hvn.
        { intros ->. rewrite Hfresh in Hjv. injection Hjv as <-.
          by rewrite Hfreshdef in Hcv. }
        unfold preempt. cbn. rewrite Hjv. cbn.
        rewrite write_core_same by done. cbn.
        rewrite list_lookup_insert_ne, Hfresh by done. cbn.
        eexists _, _. split; [done|].
        rewrite (store_alter _ v jv (evict time)) by done.
        rewrite (store_alter _ n fresh (run_on (core_id jv))); cycle 1.
        { cbn. by rewrite list_lookup_alter_ne. }
        subst m2 fresh.
        apply (njd_preempt s job_number time running_time priority k iv v jv);
          try done.
        intros i' a' j' Hi' Ha' Hj'. apply (Hlast i' a' j'); [|done..].
        split; [done|]. by eapply lookup_lt_Some.
      * exfalso.
        destruct (busy_has_active _ _ _ _ Hcw Hbusy) as (p & c & Hp & Hc);
          [lia|].
        destruct (cw_assign _ _ _ _ Hcw p c Hp Hc) as (Hpl & _).
        apply field_lookup_inv in Hp as (j & Hj & ->).
        destruct (arrived_old _ _ _ _ _ _ Hm2 p j Hj) as (j' & Hj' & Hsame).
        assert (p ∈ take k (elems (head s)) ++ n :: drop k (elems (head s)))
          as (ip & Hip)%list_elem_of_lookup.
        { rewrite insert_at_perm. by right. }
        apply Hc. rewrite <-(Hsame _ core_id) by done.
        eapply (Hnone ip p j'); [|done..].
        by eapply lookup_lt_Some.
    + erewrite (stamp_turn_spec _ s n); [|done|done|exact Hfresh]. cbn.
      match goal with |- context [offer ?s0 n] =>
        destruct (offer_rank_total (mem s0) (comparer (head s0))
                    (stamp s fresh) (elems (head s0))) as [k Hk];
        [|rewrite (offer_rank_exec s0 n _ k) by
            (done || (cbn; by rewrite list_lookup_alter_eq, Hfresh))] end.
      { cbn. intros p Hp. rewrite length_alter. auto. }
      cbn in Hk. cbn. eexists _, _. split; [done|]. subst m2 fresh.
      apply (njd_wait s job_number time running_time priority k);
        [done|done|by intros ?].
Qed.

Lemma refreshed_lookup s n time d pr p j2 :
  refreshed s n time d pr !! p = Some j2 →
  (p = length (mem s) ∧ j2 = fresh_job n time d pr) ∨
  (∃ j, mem s !! p = Some j ∧
        j2 = refresh time (set_next (next j2) j)).
Proof.
  unfold refreshed. rewrite list_lookup_fmap. intros Hj2.
  destruct ((linked (mem s) ++ [fresh_job n time d pr]) !! p) as [j1|] eqn:Hj1;
    [|done].
  injection Hj2 as <-.
  destruct (decide (p < length (mem s))%nat) as [Hlt|Hge].
  - right. rewrite lookup_app_l in Hj1 by (by rewrite linked_length).
    destruct (lookup_lt_is_Some_2 (mem s) p Hlt) as [j Hj]. exists j.
    split; [done|].
    assert (j1 = set_next (next j1) j) as Heq.
    { unfold linked in Hj1. rewrite list_lookup_alter in Hj1.
      case_decide as Heq; [rewrite Heq in Hj1|]; rewrite Hj in Hj1;
        cbn in Hj1; injection Hj1 as <-; by destruct j. }
    assert (next (refresh time j1) = next j1) as ->
      by (unfold refresh; by case_decide).
    by rewrite <-Heq.
  - left. rewrite lookup_app_r in Hj1 by (rewrite linked_length; lia).
    rewrite linked_length in Hj1.
    destruct (p - length (mem s))%nat eqn:Hd; [|done].
    injection Hj1 as <-. split; [lia|]. by apply refresh_inactive_id.
Qed.

Lemma refresh_remaining time j :
  core_id j ≠ -1 →
  remaining_time (refresh time j) = remaining_at time (refresh time j).
Proof. intros Hc. unfold refresh. by rewrite decide_True. Qed.

Lemma reachable_durations cores scheme now s :
  reachable cores scheme now s →
  Forall (λ a : Z * Z * Z * Z, int_range a.1.2 ∧ int_range a.2)
    (field job_params s).
Proof.
  induction 1 as [Hc|now s e r s' Hreach IH Hev He]; [by constructor|].
  pose proof (reachable_wf _ _ _ _ Hreach) as Hwf.
  pose proof (handle_handled now s e r s' Hwf Hev He) as Hh.
  revert Hev.
  destruct Hh as [n t d pr r0 s0 Hout|c n t r0 s0 Hout|c t r0 s0 Hout];
    intros Hev.
  - rewrite (new_job_params _ _ _ _ _ _ _ Hout). apply Forall_app.
    split; [done|]. apply Forall_singleton. cbn.
    by destruct Hev as (_ & _ & _ & ? & ?).
  - by rewrite (job_finished_params _ _ _ _ _ _ Hout).
  - by rewrite (quantum_expired_params _ _ _ _ _ Hout).
Qed.

(** X12. After a call of [scheduler_new_job] at time [time] that meets its
    preconditions, every job that holds a core, the new job included, has
    the remaining time [duration - (time - wait_time - arr_time)], computed
    on [int]s. When its duration is not negative, no step of this
    computation overflows and the remaining time is at most the
    duration. *)
Theorem new_job_refreshes_remaining_times cores scheme now (s s' : sched)
    (job_number time running_time prio r : Z) (p : ptr) (j' : job_t) :
  reachable cores scheme now s →
  valid_event now s (NewJob job_number time running_time prio) →
  scheduler_new_job s job_number time running_time prio = Some (r, s') →
  mem s' !! p = Some j' → core_id j' ≠ -1 →
  remaining_time j' = remaining_at time j' ∧
  (0 ≤ duration j' →
   remaining_time j' = duration j' - (time - wait_time j' - arr_time j') ∧
   remaining_time j' ≤ duration j').
Proof.
  intros Hreach Hev Hcall Hj' Hc.
  pose proof (reachable_wf _ _ _ _ Hreach) as Hwf.
  pose proof (reachable_tinv _ _ _ _ Hreach) as Htinv.
  assert (reachable cores scheme time s') as Hreach'
    by (by eapply (reach_step _ _ _ _
                     (NewJob job_number time running_time prio))).
  destruct (reachable_tinv _ _ _ _ Hreach') as [Ht Htim'].
  pose proof (Forall_lookup_1 _ _ _ _ Htim' Hj') as [Harr Hrun].
  rewrite decide_True in Hrun by done.
  pose proof (Forall_lookup_1 _ _ _ _ (reachable_durations _ _ _ _ Hreach')
                (field_lookup job_params s' p j' Hj')) as [Hdr _].
  cbn in Hdr.
  destruct Hev as (Htime & Hok & _ & Hd & _).
  assert (remaining_time j' = remaining_at time j') as Hrem; cycle 1.
  { split; [done|]. intros Hdur. rewrite Hrem. unfold remaining_at.
    rewrite (sub32_small time)
      by (unfold int_range, INT_MIN, INT_MAX in *; lia).
    rewrite (sub32_small (time - wait_time j'))
      by (unfold int_range, INT_MIN, INT_MAX in *; lia).
    rewrite sub32_small by (unfold int_range, INT_MIN, INT_MAX in *; lia).
    lia. }
  assert (remaining_time (fresh_job job_number time running_time prio)
          = remaining_at time
              (set_response_time 0
                 (set_wait_time 0
                    (fresh_job job_number time running_time prio))))
    as Hnew.
  { unfold remaining_at. cbn.
    rewrite (sub32_small time 0)
      by (unfold int_range, INT_MIN, INT_MAX in *; lia).
    rewrite Z.sub_0_r. unfold sub32 at 2. rewrite Z.sub_diag.
    rewrite (wrap_small 0) by (unfold int_range, INT_MIN, INT_MAX; lia).
    rewrite sub32_small by (by rewrite Z.sub_0_r). lia. }
  destruct (new_job_exec_detail s job_number time running_time prio Hwf Hok)
    as (r0 & s0 & Hex & Hout).
  rewrite Hex in Hcall. injection Hcall as -> ->.
  assert (∀ j2, refreshed s job_number time running_time prio !! p = Some j2 →
            core_id j2 ≠ -1 → remaining_time j2 = remaining_at time j2)
    as Hold.
  { intros j2 Hj2 Hc2.
    destruct (refreshed_lookup _ _ _ _ _ _ _ Hj2) as [[_ ->]|(j & Hj & Heq)];
      [done|].
    rewrite Heq. apply refresh_remaining. rewrite Heq in Hc2.
    unfold refresh in Hc2. by case_decide. }
  destruct Hout as [i k Hi Hlow Hk
                   |k iv v jv Hbusy Hpre Hk Hlt Hiv Hjv Hcv Hlast
                   |k Hbusy Hk Hge]; cbn in Hj'.
  - destruct (decide (p = length (mem s))) as [->|Hne].
    + rewrite list_lookup_alter_eq in Hj'.
      rewrite (arrived_fresh _ _ _ _ _ _ (refreshed_arrived _ _ _ _ _))
        in Hj'.
      injection Hj' as <-. unfold stamp. case_decide; exact Hnew.
    + rewrite list_lookup_alter_ne in Hj' by done. by apply Hold.
  - destruct (decide (p = length (mem s))) as [->|Hne].
    + rewrite list_lookup_alter_eq in Hj'.
      destruct (decide (v = length (mem s))) as [->|Hnv].
      { rewrite (arrived_fresh _ _ _ _ _ _ (refreshed_arrived _ _ _ _ _))
          in Hjv. injection Hjv as <-. done. }
      rewrite list_lookup_alter_ne in Hj' by done.
      rewrite (arrived_fresh _ _ _ _ _ _ (refreshed_arrived _ _ _ _ _))
        in Hj'.
      injection Hj' as <-. exact Hnew.
    + rewrite list_lookup_alter_ne in Hj' by done.
      destruct (decide (p = v)) as [->|Hnv].
      * rewrite list_lookup_alter_eq, Hjv in Hj'. injection Hj' as <-.
        by rewrite evict_core_id in Hc.
      * rewrite list_lookup_alter_ne in Hj' by done. by apply Hold.
  - destruct (decide (p = length (mem s))) as [->|Hne].
    + rewrite list_lookup_alter_eq in Hj'.
      rewrite (arrived_fresh _ _ _ _ _ _ (refreshed_arrived _ _ _ _ _))
        in Hj'.
      injection Hj' as <-. exfalso. apply Hc. unfold stamp. by case_decide.
    + rewrite list_lookup_alter_ne in Hj' by done. by apply Hold.
Qed.

(** Two cores under FCFS: job 0 (duration 9) runs since time 0 when job 1
    arrives at time 2; job 0 has 7 time units left. *)
Lemma new_job_refreshes_remaining_times_witness :
  let now := run_time 2 FCFS [NewJob 0 0 9 0] in
  let s := run_state 2 FCFS [NewJob 0 0 9 0] in
  let j' := Job 0 0 9 0 7 0 (-1) 0 (-1) (-1) 0 (Some 1%nat) in
  ∃ r s',
    reachable 2 FCFS now s ∧
    valid_event now s (NewJob 1 2 4 0) ∧
    scheduler_new_job s 1 2 4 0 = Some (r, s') ∧
    mem s' !! 0%nat = Some j' ∧ core_id j' ≠ -1 ∧
    remaining_time j' = remaining_at 2 j' ∧
    (0 ≤ duration j' →
     remaining_time j' = duration j' - (2 - wait_time j' - arr_time j') ∧
     remaining_time j' ≤ duration j').
Proof.
  intros now s j'.
  assert (run_ok 2 FCFS [NewJob 0 0 9 0] = true) as Hok
    by (vm_compute; reflexivity).
  pose proof (run_reachable 2 FCFS [NewJob 0 0 9 0] Hok) as Hreach.
  assert (valid_event now s (NewJob 1 2 4 0)) as Hev
    by (apply check_event_sound; vm_compute; reflexivity).
  destruct (handle_total now s (NewJob 1 2 4 0)
              (reachable_wf _ _ _ _ Hreach) Hev) as (r & s' & Hcall).
  rewrite handle_new_job in Hcall.
  assert (mem s' !! 0%nat = Some j') as Hj'.
  { assert ((λ x, mem x.2 !! 0%nat) <$> scheduler_new_job s 1 2 4 0
            = Some (Some j')) as Hm by (vm_compute; reflexivity).
    rewrite Hcall in Hm. by injection Hm. }
  assert (core_id j' ≠ -1) as Hc by (by vm_compute).
  exists r, s'. do 5 (split; [assumption|]).
  exact (new_job_refreshes_remaining_times 2 FCFS now s s' 1 2 4 0 r 0%nat j'
           Hreach Hev Hcall Hj' Hc).
Defined.

Lemma refreshed_core_ids s n time d pr :
  core_id <$> refreshed s n time d pr = field core_id s ++ [-1].
Proof.
  apply (arrived_field _ _ _ _ _ _ (refreshed_arrived s n time d pr) core_id);
    done.
Qed.

Lemma insert_at_lookup {A} (l : list A) k x :
  (k ≤ length l)%nat → (take k l ++ x :: drop k l) !! k = Some x.
Proof.
  intros Hk. rewrite lookup_app_r by (rewrite length_take; lia).
  rewrite length_take. by replace (k - k `min` length l)%nat with 0%nat by lia.
Qed.

(** X13. Under PSJF or PPRI, when no core is idle, a call of
    [scheduler_new_job] that meets its preconditions preempts exactly when
    the rank at which the new job enters the queue is below the number of
    cores. It then takes the core of the running job that comes last in the
    queue: every job behind the victim is the new job or was waiting. The
    victim is off the core after the call, the new job holds it, and no
    other job changes its core. Without preemption the call returns -1 and
    no job changes its core. *)
Theorem preemption_takes_last_running_job cores scheme now (s : sched)
    (job_number time running_time prio : Z) :
  reachable cores scheme now s →
  valid_event now s (NewJob job_number time running_time prio) →
  scheme = PSJF ∨ scheme = PPRI →
  (∀ i, core_arr s !! i ≠ Some 0) →
  ∃ r s' (k : nat),
    scheduler_new_job s job_number time running_time prio = Some (r, s') ∧
    elems (head s') !! k = Some (length (mem s)) ∧
    ((cores ≤ Z.of_nat k ∧ r = -1 ∧
      field core_id s' = field core_id s ++ [-1]) ∨
     (Z.of_nat k < cores ∧ r ≠ -1 ∧
      ∃ (iv v : nat),
        elems (head s') !! iv = Some v ∧
        field core_id s !! v = Some r ∧
        field core_id s' = <[v:=-1]> (field core_id s) ++ [r] ∧
        ∀ i' a', (iv < i')%nat → elems (head s') !! i' = Some a' →
          a' = length (mem s) ∨ field core_id s !! a' = Some (-1))).
Proof.
  intros Hreach (_ & Hok & _) Hscheme Hbusy.
  pose proof (reachable_wf _ _ _ _ Hreach) as Hwf.
  destruct (reachable_config _ _ _ _ Hreach) as [Hnc Hsch].
  destruct (new_job_exec_detail s job_number time running_time prio Hwf Hok)
    as (r & s' & Hex & Hout).
  assert (∀ a j2, refreshed s job_number time running_time prio !! a
                  = Some j2 →
            a ≠ length (mem s) → field core_id s !! a = Some (core_id j2))
    as Hold.
  { intros a j2 Hj2 Hne.
    destruct (refreshed_lookup _ _ _ _ _ _ _ Hj2) as [[? _]|(j & Hj & Heq)];
      [done|].
    rewrite (field_lookup core_id _ _ _ Hj). f_equal. rewrite Heq.
    unfold refresh. by case_decide. }
  destruct Hout as [i k Hi Hlow Hk
                   |k iv v jv _ Hpre Hk Hlt Hiv Hjv Hcv Hlast
                   |k _ Hk Hge].
  { by destruct (Hbusy i). }
  - pose proof (offer_rank_le _ _ _ _ _ Hk) as Hkle.
    assert (v ≠ length (mem s)) as Hvn.
    { intros ->.
      rewrite (arrived_fresh _ _ _ _ _ _ (refreshed_arrived _ _ _ _ _))
        in Hjv. injection Hjv as <-. done. }
    pose proof (Hold v jv Hjv Hvn) as Hv.
    pose proof (lookup_lt_Some _ _ _ Hv) as Hvlt. rewrite field_length in Hvlt.
    eexists (core_id jv), _, k. split; [exact Hex|]. cbn.
    split; [by apply insert_at_lookup|]. right.
    split; [lia|]. split; [done|]. exists iv, v. split_and!; [done|done| |].
    + unfold field. cbn.
      rewrite (fmap_alter_set core_id _ (core_id jv)) by done.
      rewrite (fmap_alter_set core_id _ (-1)) by (intros; apply evict_core_id).
      rewrite refreshed_core_ids.
      rewrite insert_app_l by (by rewrite field_length).
      rewrite insert_app_r_alt
        by (rewrite length_insert, field_length; lia).
      rewrite length_insert, field_length, Nat.sub_diag. done.
    + intros i' a' Hi' Ha'.
      destruct (decide (a' = length (mem s))) as [|Hne]; [by left|right].
      assert (a' < length (mem s))%nat as Hlt'.
      { apply list_elem_of_lookup_2 in Ha'. rewrite insert_at_perm in Ha'.
        apply elem_of_cons in Ha' as [?|Ha']; [done|].
        by apply (wf_queue_valid s Hwf). }
      destruct (lookup_lt_is_Some_2
                  (refreshed s job_number time running_time prio) a')
        as [j2 Hj2].
      { unfold refreshed. rewrite length_fmap, length_app, linked_length.
        cbn. lia. }
      rewrite (Hold a' j2 Hj2 Hne). f_equal. by apply (Hlast i' a' j2).
  - pose proof (offer_rank_le _ _ _ _ _ Hk) as Hkle.
    eexists (-1), _, k. split; [exact Hex|]. cbn.
    split; [by apply insert_at_lookup|]. left.
    split; [rewrite <-Hnc; apply Hge; rewrite Hsch; done|]. split; [done|].
    unfold field. cbn. rewrite fmap_alter_same by solve_field.
    apply refreshed_core_ids.
Qed.

(** One core under PPRI, held by job 0 (priority 3): job 1 (priority 1)
    arrives and preempts it. *)
Lemma preemption_takes_last_running_job_witness :
  let now := run_time 1 PPRI [NewJob 0 0 5 3] in
  let s := run_state 1 PPRI [NewJob 0 0 5 3] in
  reachable 1 PPRI now s ∧
  valid_event now s (NewJob 1 2 4 1) ∧
  (PPRI = PSJF ∨ PPRI = PPRI) ∧
  (∀ i, core_arr s !! i ≠ Some 0) ∧
  ∃ r s' (k : nat),
    scheduler_new_job s 1 2 4 1 = Some (r, s') ∧
    elems (head s') !! k = Some (length (mem s)) ∧
    ((1 ≤ Z.of_nat k ∧ r = -1 ∧
      field core_id s' = field core_id s ++ [-1]) ∨
     (Z.of_nat k < 1 ∧ r ≠ -1 ∧
      ∃ (iv v : nat),
        elems (head s') !! iv = Some v ∧
        field core_id s !! v = Some r ∧
        field core_id s' = <[v:=-1]> (field core_id s) ++ [r] ∧
        ∀ i' a', (iv < i')%nat → elems (head s') !! i' = Some a' →
          a' = length (mem s) ∨ field core_id s !! a' = Some (-1))).
Proof.
  intros now s.
  assert (run_ok 1 PPRI [NewJob 0 0 5 3] = true) as Hok
    by (vm_compute; reflexivity).
  pose proof (run_reachable 1 PPRI [NewJob 0 0 5 3] Hok) as Hreach.
  assert (valid_event now s (NewJob 1 2 4 1)) as Hev
    by (apply check_event_sound; vm_compute; reflexivity).
  assert (PPRI = PSJF ∨ PPRI = PPRI) as Hscheme by (by right).
  assert (core_arr s = [1]) as Harr by (vm_compute; reflexivity).
  assert (∀ i, core_arr s !! i ≠ Some 0) as Hbusy.
  { intros i. rewrite Harr. by destruct i as [|[|i]]. }
  do 4 (split; [assumption|]).
  exact (preemption_takes_last_running_job 1 PPRI now s 1 2 4 1
           Hreach Hev Hscheme Hbusy).
Defined.

(** * The order of the queue under FCFS, PRI and PPRI

    Under these policies the comparer reads fields that never change, and
    the queue stays sorted. *)

From stdpp Require sorting.

(** The order on the parameters of two jobs: by priority, then id, under
    PRI and PPRI; by id otherwise. *)
Definition params_before (scheme : scheme_t) (ka kb : Z * Z * Z * Z) : Prop :=
  match scheme with
  | PRI | PPRI => ka.2 < kb.2 ∨ (ka.2 = kb.2 ∧ ka.1.1.1 < kb.1.1.1)
  | _ => ka.1.1.1 < kb.1.1.1
  end.

(** The job at [p] comes before the job at [p'], by their parameters. *)
Definition ranked_before (scheme : scheme_t) (keys : list (Z * Z * Z * Z))
    (p p' : ptr) : Prop :=
  ∃ ka kb, keys !! p = Some ka ∧ keys !! p' = Some kb ∧
           params_before scheme ka kb.

Definition queue_sorted (s : sched) : Prop :=
  Sorted.StronglySorted (ranked_before (sch s) (field job_params s))
    (elems (head s)).

(** The policies with a fixed order. *)
Definition fixed_order (scheme : scheme_t) : Prop :=
  scheme = FCFS ∨ scheme = PRI ∨ scheme = PPRI.

Lemma params_before_trans scheme ka kb kc :
  params_before scheme ka kb → params_before scheme kb kc →
  params_before scheme ka kc.
Proof. destruct scheme; cbn; lia. Qed.

Lemma comparer_params_before cores scheme a b :
  fixed_order scheme →
  0 ≤ id a ≤ INT_MAX → 0 ≤ id b ≤ INT_MAX →
  comparer (head (scheduler_start_up cores scheme)) a b < 0
  ↔ params_before scheme (job_params a) (job_params b).
Proof.
  intros Hfix Ha Hb.
  assert (sub32 (id a) (id b) = id a - id b) as Hsub.
  { apply sub32_small. unfold int_range, INT_MIN, INT_MAX in *. lia. }
  destruct Hfix as [-> | [-> | ->]]; cbn;
    unfold compare1, compare3; repeat case_decide; rewrite ?Hsub; lia.
Qed.

Lemma comparer_params_total cores scheme a b :
  fixed_order scheme →
  0 ≤ id a ≤ INT_MAX → 0 ≤ id b ≤ INT_MAX → id a ≠ id b →
  ¬ comparer (head (scheduler_start_up cores scheme)) a b < 0 →
  params_before scheme (job_params b) (job_params a).
Proof.
  intros Hfix Ha Hb Hne.
  assert (sub32 (id a) (id b) = id a - id b) as Hsub.
  { apply sub32_small. unfold int_range, INT_MIN, INT_MAX in *. lia. }
  destruct Hfix as [-> | [-> | ->]]; cbn;
    unfold compare1, compare3; repeat case_decide; rewrite ?Hsub; lia.
Qed.

Lemma handled_comparer s e r s' :
  handled s e r s' → comparer (head s') = comparer (head s).
Proof.
  intros [n t d pr r0 s0 Hout|c n t r0 s0 Hout|c t r0 s0 Hout].
  - by destruct Hout.
  - destruct Hout as [k p0 j0 m3 r1 s1 _ _ _ _ _ _ _ _ Hd]. by destruct Hd.
  - by destruct Hout.
Qed.

Lemma reachable_comparer cores scheme now s :
  reachable cores scheme now s →
  comparer (head s) = comparer (head (scheduler_start_up cores scheme)).
Proof.
  induction 1 as [Hc|now s e r s' Hreach IH Hev He]; [done|].
  rewrite <-IH. apply (handled_comparer s e r).
  eapply handle_handled; [|done..]. by eapply reachable_wf.
Qed.

Lemma StronglySorted_impl {A} (R R' : A → A → Prop) (l : list A) :
  (∀ x y, x ∈ l → y ∈ l → R x y → R' x y) →
  Sorted.StronglySorted R l → Sorted.StronglySorted R' l.
Proof.
  intros Himp Hl. induction Hl as [|a l Hl IH Ha]; constructor.
  - apply IH. intros x y Hx Hy. apply Himp; by right.
  - apply Forall_forall. intros y Hy. apply Himp; [by left|by right|].
    by apply (proj1 (Forall_forall _ _) Ha).
Qed.

Lemma StronglySorted_delete {A} (R : A → A → Prop) (l : list A) k :
  Sorted.StronglySorted R l → Sorted.StronglySorted R (delete k l).
Proof.
  intros Hl. revert k. induction Hl as [|a l Hl IH Ha]; intros k.
  { destruct k; constructor. }
  destruct k as [|k]; cbn; [done|]. constructor; [apply IH|].
  apply Forall_forall. intros x Hx.
  apply (proj1 (Forall_forall _ _) Ha). by eapply list_elem_of_delete_inv.
Qed.

Lemma StronglySorted_lookup {A} (R : A → A → Prop) (l : list A) i i' x y :
  Sorted.StronglySorted R l → (i < i')%nat →
  l !! i = Some x → l !! i' = Some y → R x y.
Proof.
  intros Hl. revert i i'. induction Hl as [|a l Hl IH Ha]; intros i i' Hlt;
    [done|].
  destruct i' as [|i']; [lia|]. destruct i as [|i]; cbn.
  - intros [= <-] Hy. apply (proj1 (Forall_forall _ _) Ha).
    by eapply list_elem_of_lookup_2.
  - apply IH. lia.
Qed.

(** Where [offer_rank] puts a job: behind jobs that it does not precede,
    right before one that it precedes. *)
Lemma offer_rank_spec (m : list job_t) cmp a (l : list ptr) k :
  offer_rank m cmp a l = Some k →
  (∀ p, p ∈ take k l → ∃ b, m !! p = Some b ∧ ¬ cmp a b < 0) ∧
  (∀ p, drop k l !! 0%nat = Some p → ∃ b, m !! p = Some b ∧ cmp a b < 0).
Proof.
  revert k. induction l as [|p l IH]; intros k; cbn.
  - intros [= <-]. split; [intros p Hp; by apply elem_of_nil in Hp|done].
  - destruct (m !! p) as [b|] eqn:Hb; [cbn|done]. case_decide as Hc.
    + intros [= <-]. cbn. split; [intros p' Hp'; by apply elem_of_nil in Hp'|].
      intros p' [= <-]. eauto.
    + destruct (offer_rank m cmp a l) as [k'|]; [cbn|done].
      intros [= <-]. destruct (IH k' eq_refl) as [Hbefore Hat]. cbn.
      split; [|done]. intros p' [->|Hp']%elem_of_cons; [eauto|auto].
Qed.

Lemma insert_sorted cores s n t d pr (mo : list job_t) jn k :
  wf s → arrival_ok s n → fixed_order (sch s) →
  comparer (head s) = comparer (head (scheduler_start_up cores (sch s))) →
  queue_sorted s →
  (∀ p b, p ∈ elems (head s) → mo !! p = Some b →
     field job_params s !! p = Some (job_params b)) →
  job_params jn = (n, t, d, pr) →
  offer_rank mo (comparer (head s)) jn (elems (head s)) = Some k →
  Sorted.StronglySorted
    (ranked_before (sch s) (field job_params s ++ [(n, t, d, pr)]))
    (take k (elems (head s)) ++ length (mem s) :: drop k (elems (head s))).
Proof.
  intros Hwf Hok Hfix Hcmp Hsorted Hkeys Hjn Hk.
  destruct (offer_rank_spec _ _ _ _ _ Hk) as [Hbefore Hat].
  unfold queue_sorted in Hsorted.
  rewrite <-(take_drop k (elems (head s))) in Hsorted.
  set (keys := field job_params s) in *.
  set (knew := (n, t, d, pr)) in *.
  assert (∀ p p', ranked_before (sch s) keys p p' →
                  ranked_before (sch s) (keys ++ [knew]) p p') as Hmono.
  { intros p p' (ka & kb & Ha & Hb & Hab). exists ka, kb.
    split_and!; [by apply lookup_app_l_Some..|done]. }
  assert ((keys ++ [knew]) !! length (mem s) = Some knew) as Hnew.
  { rewrite lookup_app_r by (unfold keys; by rewrite field_length).
    unfold keys. by rewrite field_length, Nat.sub_diag. }
  assert (∀ p b, p ∈ elems (head s) → mo !! p = Some b →
            0 ≤ id b ≤ INT_MAX ∧ id b ≠ id jn) as Hid.
  { intros p b Hp Hb. pose proof (Hkeys p b Hp Hb) as Hkb.
    apply field_lookup_inv in Hkb as (j & Hj & Hpar).
    assert (id b = id j) as ->
      by exact (f_equal (λ k : Z * Z * Z * Z, k.1.1.1) Hpar).
    pose proof (wf_id_lookup s Hwf p j Hj).
    assert (id jn = n) as ->
      by exact (f_equal (λ k : Z * Z * Z * Z, k.1.1.1) Hjn).
    destruct Hok as (_ & _ & Hlt).
    assert (id j < n); [|lia].
    apply Hlt. apply list_elem_of_lookup. exists p. by apply field_lookup. }
  assert (0 ≤ id jn ≤ INT_MAX) as Hidn.
  { assert (id jn = n) as ->
      by exact (f_equal (λ k : Z * Z * Z * Z, k.1.1.1) Hjn).
    destruct Hok as (? & _). lia. }
  assert (∀ p, p ∈ take k (elems (head s)) → p ∈ elems (head s)) as Htake.
  { intros p Hp. rewrite <-(take_drop k (elems (head s))).
    apply elem_of_app. by left. }
  assert (∀ p, p ∈ drop k (elems (head s)) → p ∈ elems (head s)) as Hdrop.
  { intros p Hp. rewrite <-(take_drop k (elems (head s))).
    apply elem_of_app. by right. }
  apply sorting.StronglySorted_app_2.
  - intros x1 x2 Hx1 [->|Hx2]%elem_of_cons.
    + destruct (Hbefore x1 Hx1) as (b & Hb & Hnlt).
      destruct (Hid x1 b (Htake _ Hx1) Hb) as [Hr Hne].
      exists (job_params b), knew. split_and!; [|done|].
      * apply lookup_app_l_Some. by apply Hkeys; [apply Htake|].
      * rewrite <-Hjn. rewrite Hcmp in Hnlt.
        by apply (comparer_params_total cores (sch s) jn b).
    + apply Hmono.
      by eapply (sorting.StronglySorted_app_1_elem_of _ _ _ _ _ Hsorted).
  - eapply StronglySorted_impl;
      [|by eapply sorting.StronglySorted_app_1_l]. auto.
  - pose proof (sorting.StronglySorted_app_1_r _ _ _ Hsorted) as Hsd.
    constructor; [eapply StronglySorted_impl; [|exact Hsd]; auto|].
    destruct (drop k (elems (head s))) as [|y0 rest] eqn:Hd; [done|].
    destruct (Hat y0 eq_refl) as (b0 & Hb0 & Hlt0).
    assert (y0 ∈ elems (head s)) as Hy0 by (apply Hdrop; by left).
    destruct (Hid y0 b0 Hy0 Hb0) as [Hr0 Hne0].
    rewrite Hcmp in Hlt0.
    apply (comparer_params_before cores (sch s) jn b0) in Hlt0; [|done..].
    rewrite Hjn in Hlt0. fold knew in Hlt0.
    pose proof (Hkeys y0 b0 Hy0 Hb0) as Hk0.
    apply Sorted.StronglySorted_inv in Hsd as [_ Hrest].
    constructor.
    + exists knew, (job_params b0).
      split_and!; [done|by apply lookup_app_l_Some|done].
    + apply Forall_forall. intros y Hy.
      destruct (proj1 (Forall_forall _ _) Hrest y Hy)
        as (ka & kb & Ha & Hb & Hab).
      assert (ka = job_params b0) as -> by (unfold keys in *; congruence).
      exists knew, kb. split_and!; [done|by apply lookup_app_l_Some|].
      by eapply params_before_trans.
Qed.

Lemma refreshed_params s n t d pr (g : job_t → job_t) p b :
  p ∈ elems (head s) → wf s →
  alter g (length (mem s)) (refreshed s n t d pr) !! p = Some b →
  field job_params s !! p = Some (job_params b).
Proof.
  intros Hp Hwf Hb. pose proof (wf_queue_valid s Hwf p Hp) as Hlt.
  rewrite list_lookup_alter_ne in Hb by lia.
  destruct (refreshed_lookup _ _ _ _ _ _ _ Hb) as [[? _]|(j & Hj & Heq)];
    [lia|].
  rewrite (field_lookup job_params s p j Hj). f_equal.
  rewrite Heq. unfold refresh. by case_decide.
Qed.

Lemma handle_sorted cores scheme now s e r s' :
  reachable cores scheme now s → fixed_order scheme → queue_sorted s →
  valid_event now s e → handle s e = Some (r, s') → queue_sorted s'.
Proof.
  intros Hreach Hfix Hsorted Hev He.
  pose proof (reachable_wf _ _ _ _ Hreach) as Hwf.
  destruct (reachable_config _ _ _ _ Hreach) as [_ Hsch].
  pose proof (reachable_comparer _ _ _ _ Hreach) as Hcmp.
  rewrite <-Hsch in Hfix, Hcmp.
  destruct (handle_config now s e r s' Hwf Hev He) as [_ Hsch'].
  unfold queue_sorted. rewrite Hsch'.
  destruct e as [n t d pr|c n t|c t]; cbn in Hev, He.
  - destruct Hev as (_ & Hok & _).
    destruct (new_job_exec s n t d pr Hwf Hok) as (r1 & s1 & Hex1 & Hout).
    destruct (new_job_exec_detail s n t d pr Hwf Hok)
      as (r2 & s2 & Hex2 & Hdet).
    rewrite He in Hex1, Hex2. injection Hex1 as <- <-.
    injection Hex2 as <- <-.
    rewrite (new_job_params _ _ _ _ _ _ _ Hout).
    destruct Hdet as [i k Hi Hlow Hk
                     |k iv v jv Hbusy Hpre Hk Hlt Hiv Hjv Hcv Hlast
                     |k Hbusy Hk Hge]; cbn.
    + eapply (insert_sorted cores s n t d pr); [done..| | |exact Hk].
      * intros p b Hp. by apply refreshed_params.
      * solve_params.
    + eapply (insert_sorted cores s n t d pr); [done..| | |exact Hk].
      * intros p b Hp Hb. apply (refreshed_params s n t d pr (λ j, j));
          [done..|]. by rewrite list_alter_id.
      * done.
    + eapply (insert_sorted cores s n t d pr); [done..| | |exact Hk].
      * intros p b Hp. by apply refreshed_params.
      * solve_params.
  - destruct Hev as (_ & Hon).
    destruct (job_finished_exec s c n t Hwf Hon) as (r' & s'' & Hex & Hout).
    rewrite Hex in He. injection He as <- <-.
    rewrite (job_finished_params _ _ _ _ _ _ Hout).
    destruct Hout as [k p0 j0 m3 r1 s1 _ _ _ _ _ _ _ _ Hd].
    assert (elems (head s1) = delete k (elems (head s))) as ->
      by (by destruct Hd).
    by apply StronglySorted_delete.
  - destruct Hev as (_ & Hrr & _). rewrite Hrr in Hfix.
    by destruct Hfix as [? | [? | ?]].
Qed.

Lemma reachable_sorted cores scheme now s :
  fixed_order scheme → reachable cores scheme now s → queue_sorted s.
Proof.
  intros Hfix. induction 1 as [Hc|now s e r s' Hreach IH Hev He].
  - unfold queue_sorted.
    assert (elems (head (scheduler_start_up cores scheme)) = []) as ->
      by (by destruct scheme).
    constructor.
  - by eapply handle_sorted.
Qed.

(** X14. Under FCFS, PRI and PPRI the queue is sorted in every reachable
    state: of two queued jobs, the comparer puts the one at the lower rank
    first. So the queue is in the order of the ids (the order of arrival)
    under FCFS, and in the order of the priorities, with the ids breaking
    ties, under PRI and PPRI. *)
Theorem queue_is_sorted cores scheme now (s : sched) (i i' : nat)
    (a b : job_t) :
  scheme = FCFS ∨ scheme = PRI ∨ scheme = PPRI →
  reachable cores scheme now s →
  (i < i')%nat →
  queue_jobs s !! i = Some a → queue_jobs s !! i' = Some b →
  comparer (head s) a b < 0 ∧
  (scheme = FCFS → id a < id b) ∧
  (scheme = PRI ∨ scheme = PPRI →
   priority a < priority b ∨ (priority a = priority b ∧ id a < id b)).
Proof.
  intros Hfix Hreach Hlt Ha Hb.
  pose proof (reachable_wf _ _ _ _ Hreach) as Hwf.
  destruct (reachable_config _ _ _ _ Hreach) as [_ Hsch].
  pose proof (reachable_sorted _ _ _ _ Hfix Hreach) as Hsorted.
  destruct (queue_jobs_lookup s i a Hwf Ha) as (p & Hp & Hja).
  destruct (queue_jobs_lookup s i' b Hwf Hb) as (p' & Hp' & Hjb).
  destruct (StronglySorted_lookup _ _ i i' p p' Hsorted Hlt Hp Hp')
    as (ka & kb & Hka & Hkb & Hab).
  rewrite (field_lookup job_params s p a Hja) in Hka.
  rewrite (field_lookup job_params s p' b Hjb) in Hkb.
  injection Hka as <-. injection Hkb as <-. rewrite Hsch in Hab.
  pose proof (wf_id_lookup s Hwf p a Hja).
  pose proof (wf_id_lookup s Hwf p' b Hjb).
  split.
  - rewrite (reachable_comparer _ _ _ _ Hreach).
    apply comparer_params_before; [done|lia|lia|done].
  - split.
    + intros ->. exact Hab.
    + intros [-> | ->]; exact Hab.
Qed.

(** One core under PRI: job 0 runs; job 1 (priority 2) and then job 2
    (priority 0) arrive; job 2 is queued first. *)
Lemma queue_is_sorted_witness :
  let es := [NewJob 0 0 5 1; NewJob 1 1 3 2; NewJob 2 2 3 0] in
  let now := run_time 1 PRI es in
  let s := run_state 1 PRI es in
  let a := Job 2 2 3 0 3 (-1) (-1) (-1) (-1) (-1) (-1) None in
  let b := Job 0 0 5 1 3 0 (-1) 0 (-1) (-1) 0 (Some 1%nat) in
  (PRI = FCFS ∨ PRI = PRI ∨ PRI = PPRI) ∧
  reachable 1 PRI now s ∧
  (0 < 1)%nat ∧
  queue_jobs s !! 0%nat = Some a ∧ queue_jobs s !! 1%nat = Some b ∧
  comparer (head s) a b < 0 ∧
  (PRI = FCFS → id a < id b) ∧
  (PRI = PRI ∨ PRI = PPRI →
   priority a < priority b ∨ (priority a = priority b ∧ id a < id b)).
Proof.
  intros es now s a b.
  assert (run_ok 1 PRI es = true) as Hok by (vm_compute; reflexivity).
  pose proof (run_reachable 1 PRI es Hok) as Hreach.
  assert (PRI = FCFS ∨ PRI = PRI ∨ PRI = PPRI) as Hfix by (right; by left).
  assert (0 < 1)%nat as Hlt by lia.
  assert (queue_jobs s !! 0%nat = Some a) as Ha by (vm_compute; reflexivity).
  assert (queue_jobs s !! 1%nat = Some b) as Hb by (vm_compute; reflexivity).
  do 5 (split; [assumption|]).
  exact (queue_is_sorted 1 PRI now s 0 1 a b Hfix Hreach Hlt Ha Hb).
Defined.

(** X15. Under FCFS, PRI and PPRI, the job that a call of
    [scheduler_job_finished] returns, when it returns one, is the waiting
    job of the queue that the comparer puts before every other waiting
    job: the one that arrived first under FCFS, the one with the most
    urgent priority, and among these the one that arrived first, under PRI
    and PPRI. *)
Theorem job_finished_dispatches_most_urgent cores scheme now (s : sched)
    (core job_number time : Z) :
  scheme = FCFS ∨ scheme = PRI ∨ scheme = PPRI →
  reachable cores scheme now s →
  valid_event now s (JobFinished core job_number time) →
  ∃ r s',
    scheduler_job_finished s core job_number time = Some (r, s') ∧
    (r = -1 ∨
     ∃ (q : ptr) jq,
       q ∈ elems (head s) ∧ mem s !! q = Some jq ∧ id jq = r ∧
       core_id jq = -1 ∧
       ∀ (q' : ptr) jq',
         q' ∈ elems (head s) → mem s !! q' = Some jq' →
         core_id jq' = -1 → q' ≠ q →
         comparer (head s) jq jq' < 0 ∧
         (scheme = FCFS → id jq < id jq') ∧
         (scheme = PRI ∨ scheme = PPRI →
          priority jq < priority jq' ∨
          (priority jq = priority jq' ∧ id jq < id jq'))).
Proof.
  intros Hfix Hreach (Htime & Hon).
  pose proof (reachable_wf _ _ _ _ Hreach) as Hwf.
  pose proof (wf_cores s Hwf) as Hcw.
  destruct (reachable_config _ _ _ _ Hreach) as [_ Hsch].
  pose proof (reachable_sorted _ _ _ _ Hfix Hreach) as Hsorted.
  destruct (job_finished_exec s core job_number time Hwf Hon)
    as (r & s' & Hex & Hout).
  exists r, s'. split; [exact Hex|].
  destruct Hout as [k p0 j0 m3 r0 s0 Hk Hj0 Hid Hcid Hcore Hrel _ _ Hd].
  destruct Hd as [Hall|k' q jq3 Hk' Hjq3 Hcjq3 Hact]; [by left|right].
  cbn in Hk', Hjq3, Hact.
  assert (q ∈ delete k (elems (head s))) as Hq
    by (apply list_elem_of_lookup; eauto).
  assert (∀ x j3, m3 !! x = Some j3 → x ≠ p0 →
            ∃ j, mem s !! x = Some j ∧ id j3 = id j ∧
                 core_id j3 = core_id j) as Hm3.
  { intros x j3 Hj3 Hne.
    destruct (Forall2_lookup_r _ _ _ _ _ Hrel Hj3) as (j1 & Hj1 & Heq).
    rewrite list_lookup_alter_ne in Hj1 by done.
    exists j1. split; [done|]. by rewrite Heq. }
  assert (∀ x, x ∈ delete k (elems (head s)) → x ≠ p0) as Hnp.
  { intros x Hx Heq. subst x. pose proof (cw_nodup _ _ _ _ Hcw) as Hnd.
    rewrite (delete_perm _ _ _ Hk) in Hnd.
    by apply NoDup_cons in Hnd as [? _]. }
  destruct (Hm3 q jq3 Hjq3 (Hnp q Hq)) as (jq & Hjq & Hidq & Hcq).
  exists q, jq. split_and!; [by eapply list_elem_of_delete_inv|done|
                               done|congruence|].
  intros q' jq' Hq' Hjq' Hcq' Hne.
  assert (q' ≠ p0) as Hq'p by (intros ->; congruence).
  assert (q' ∈ delete k (elems (head s))) as Hq'd.
  { rewrite (delete_perm _ _ _ Hk) in Hq'.
    apply elem_of_cons in Hq' as [?|?]; done. }
  apply list_elem_of_lookup in Hq'd as [i' Hi'].
  assert (k' < i')%nat as Hlt.
  { destruct (Nat.lt_trichotomy i' k') as [Hlt|[->|Hlt]]; [|congruence|done].
    exfalso.
    destruct (lookup_lt_is_Some_2 m3 q') as [j3 Hj3].
    { rewrite <-(Forall2_length _ _ _ Hrel), length_alter.
      by eapply lookup_lt_Some. }
    destruct (Hm3 q' j3 Hj3 Hq'p) as (j & Hj & _ & Hc).
    apply (Hact i' q' j3 Hlt Hi' Hj3). congruence. }
  pose proof (StronglySorted_delete _ _ k Hsorted) as Hsd.
  destruct (StronglySorted_lookup _ _ k' i' q q' Hsd Hlt Hk' Hi')
    as (ka & kb & Hka & Hkb & Hab).
  rewrite (field_lookup job_params s q jq Hjq) in Hka.
  rewrite (field_lookup job_params s q' jq' Hjq') in Hkb.
  injection Hka as <-. injection Hkb as <-. rewrite Hsch in Hab.
  pose proof (wf_id_lookup s Hwf q jq Hjq).
  pose proof (wf_id_lookup s Hwf q' jq' Hjq').
  split.
  - rewrite (reachable_comparer _ _ _ _ Hreach).
    apply comparer_params_before; [done|lia|lia|done].
  - split.
    + intros ->. exact Hab.
    + intros [-> | ->]; exact Hab.
Qed.

(** One core under PRI: job 0 finishes at time 5 while job 1 (priority 2)
    and job 2 (priority 0) wait. *)
Lemma job_finished_dispatches_most_urgent_witness :
  let es := [NewJob 0 0 5 1; NewJob 1 1 3 2; NewJob 2 2 3 0] in
  let now := run_time 1 PRI es in
  let s := run_state 1 PRI es in
  (PRI = FCFS ∨ PRI = PRI ∨ PRI = PPRI) ∧
  reachable 1 PRI now s ∧
  valid_event now s (JobFinished 0 0 5) ∧
  ∃ r s',
    scheduler_job_finished s 0 0 5 = Some (r, s') ∧
    (r = -1 ∨
     ∃ (q : ptr) jq,
       q ∈ elems (head s) ∧ mem s !! q = Some jq ∧ id jq = r ∧
       core_id jq = -1 ∧
       ∀ (q' : ptr) jq',
         q' ∈ elems (head s) → mem s !! q' = Some jq' →
         core_id jq' = -1 → q' ≠ q →
         comparer (head s) jq jq' < 0 ∧
         (PRI = FCFS → id jq < id jq') ∧
         (PRI = PRI ∨ PRI = PPRI →
          priority jq < priority jq' ∨
          (priority jq = priority jq' ∧ id jq < id jq'))).
Proof.
  intros es now s.
  assert (run_ok 1 PRI es = true) as Hok by (vm_compute; reflexivity).
  pose proof (run_reachable 1 PRI es Hok) as Hreach.
  assert (PRI = FCFS ∨ PRI = PRI ∨ PRI = PPRI) as Hfix by (right; by left).
  assert (valid_event now s (JobFinished 0 0 5)) as Hev
    by (apply check_event_sound; vm_compute; reflexivity).
  do 3 (split; [assumption|]).
  exact (job_finished_dispatches_most_urgent 1 PRI now s 0 0 5
           Hfix Hreach Hev).
Defined.

(** * No core idles while a job waits *)

Definition work_conserving (s : sched) : Prop :=
  (∃ i, core_arr s !! i = Some 0) →
  ∀ p, p ∈ elems (head s) → field core_id s !! p ≠ Some (-1).

Lemma new_job_work_conserving s n time d pr r s' :
  wf s → work_conserving s →
  new_job_outcome s n time d pr r s' → work_conserving s'.
Proof.
  intros Hwf Hinv Hout.
  destruct Hout as [i k m2 Hm2 Hrank Hi Hlow
                   |k v jv m2 Hm2 Hrank Hbusy Hpre Hlt Hv Hjv Hcv
                   |k m2 Hm2 Hrank Hbusy Hge]; intros [i0 Hi0]; cbn in Hi0;
    [|by destruct (Hbusy i0)..].
  intros p Hp. cbn in Hp. unfold field. cbn.
  rewrite (fmap_alter_set core_id _ (Z.of_nat i)) by solve_field.
  rewrite (arrived_field _ _ _ _ _ _ Hm2 core_id) by done.
  rewrite insert_at_perm in Hp. apply elem_of_cons in Hp as [->|Hp].
  - rewrite list_lookup_insert_eq
      by (rewrite length_app, field_length; cbn; lia).
    intros [= Heq]. lia.
  - pose proof (wf_queue_valid s Hwf p Hp) as Hlt.
    rewrite list_lookup_insert_ne by lia.
    rewrite lookup_app_l by (by rewrite field_length).
    apply Hinv; [|done]. by exists i.
Qed.

Lemma job_finished_work_conserving s core n time r s' :
  wf s → work_conserving s →
  finish_outcome s core n time r s' → work_conserving s'.
Proof.
  intros Hwf Hinv
    [k p0 j0 m3 r0 s0 Hk Hj0 Hid Hcid Hcore Hrel _ _ Hd].
  pose proof (wf_cores s Hwf) as Hcw.
  pose proof (field_lookup core_id s p0 j0 Hj0) as Hfp. rewrite Hcid in Hfp.
  destruct (cw_assign _ _ _ _ Hcw p0 core Hfp Hcore) as (_ & Hc0 & Hbusy).
  pose proof (lookup_lt_Some _ _ _ Hbusy) as Hclt.
  destruct Hd as [Hall|k' q jq Hk' Hjq Hcjq Hact]; intros [i Hi] p Hp;
    cbn in *.
  - unfold field. cbn. rewrite list_lookup_fmap.
    destruct (m3 !! p) as [j|] eqn:Hj; [cbn|done].
    intros [= Hc]. by apply (Hall p j).
  - exfalso.
    assert (i ≠ Z.to_nat core) as Hne.
    { intros ->. rewrite list_lookup_insert_eq in Hi; [done|].
      by rewrite length_insert. }
    rewrite !list_lookup_insert_ne in Hi by done.
    assert (q ∈ delete k (elems (head s))) as Hq
      by (apply list_elem_of_lookup; eauto).
    assert (q ≠ p0) as Hqp.
    { intros ->. pose proof (cw_nodup _ _ _ _ Hcw) as Hnd.
      rewrite (delete_perm _ _ _ Hk) in Hnd.
      by apply NoDup_cons in Hnd as [? _]. }
    apply (Hinv (ex_intro _ i Hi) q); [by eapply list_elem_of_delete_inv|].
    destruct (Forall2_lookup_r _ _ _ _ _ Hrel Hjq) as (j1 & Hj1 & Heq).
    rewrite list_lookup_alter_ne in Hj1 by done.
    rewrite (field_lookup core_id s q j1 Hj1). f_equal.
    rewrite Heq in Hcjq. exact Hcjq.
Qed.

Lemma quantum_expired_work_conserving s core time r s' :
  wf s → work_conserving s →
  quantum_outcome s core time r s' → work_conserving s'.
Proof.
  intros Hwf Hinv
    [k p0 j0 m3 k' p' j3 Hk Hj0 Hcid Hcore Hrel Hturn Hk' Hj3 Hcj3 Hact].
  intros [i Hi] p Hp. cbn in Hi, Hp.
  pose proof (Hinv (ex_intro _ i Hi)) as Hall.
  assert (∀ x j, m3 !! x = Some j → x ≠ p0 →
            field core_id s !! x = Some (core_id j)) as Hm3.
  { intros x j Hj Hne.
    destruct (Forall2_lookup_r _ _ _ _ _ Hrel Hj) as (j1 & Hj1 & Heq).
    rewrite list_lookup_alter_ne in Hj1 by done.
    rewrite (field_lookup core_id s x j1 Hj1). f_equal. by rewrite Heq. }
  assert (∀ x, x ∈ delete k (elems (head s)) ++ [p0] → x ∈ elems (head s))
    as Hq.
  { intros x [Hx|Hx%list_elem_of_singleton]%elem_of_app.
    - by eapply list_elem_of_delete_inv.
    - subst x. apply list_elem_of_lookup. eauto. }
  assert (p' = p0) as ->.
  { destruct (decide (p' = p0)) as [|Hne]; [done|]. exfalso.
    apply (Hall p'); [apply Hq, list_elem_of_lookup; eauto|].
    rewrite (Hm3 p' j3 Hj3 Hne). by rewrite Hcj3. }
  unfold field. cbn. rewrite list_lookup_fmap.
  destruct (decide (p = p0)) as [->|Hne].
  - rewrite list_lookup_alter_eq, Hj3. cbn. intros [= Hc]. done.
  - rewrite list_lookup_alter_ne by done.
    destruct (m3 !! p) as [j|] eqn:Hj; [cbn|done].
    intros [= Hc]. apply (Hall p (Hq p Hp)).
    rewrite (Hm3 p j Hj Hne). by rewrite Hc.
Qed.

Lemma reachable_work_conserving cores scheme now s :
  reachable cores scheme now s → work_conserving s.
Proof.
  induction 1 as [Hc|now s e r s' Hreach IH Hev He].
  - intros _ p Hp.
    assert (elems (head (scheduler_start_up cores scheme)) = []) as Hnil
      by (by destruct scheme).
    rewrite Hnil in Hp. by apply elem_of_nil in Hp.
  - pose proof (reachable_wf _ _ _ _ Hreach) as Hwf.
    destruct (handle_handled now s e r s' Hwf Hev He)
      as [n t d pr r0 s0 Hout|c n t r0 s0 Hout|c t r0 s0 Hout].
    + by eapply new_job_work_conserving.
    + by eapply job_finished_work_conserving.
    + by eapply quantum_expired_work_conserving.
Qed.

(** X16. The scheduler is work conserving, under every policy: in a
    reachable state in which some core is marked idle, no job of the queue
    waits; every queued job holds a core. *)
Theorem no_core_idles_while_a_job_waits cores scheme now (s : sched)
    (i : nat) (p : ptr) (j : job_t) :
  reachable cores scheme now s →
  core_arr s !! i = Some 0 →
  p ∈ elems (head s) → mem s !! p = Some j →
  core_id j ≠ -1.
Proof.
  intros Hreach Hi Hp Hj Hc.
  apply (reachable_work_conserving _ _ _ _ Hreach (ex_intro _ i Hi) p Hp).
  rewrite (field_lookup core_id s p j Hj). by rewrite Hc.
Qed.

(** Two cores under SJF: job 0 runs on core 0, core 1 is idle. *)
Lemma no_core_idles_while_a_job_waits_witness :
  let now := run_time 2 SJF [NewJob 0 0 9 0] in
  let s := run_state 2 SJF [NewJob 0 0 9 0] in
  let j := Job 0 0 9 0 9 0 (-1) 0 (-1) (-1) 0 None in
  reachable 2 SJF now s ∧
  core_arr s !! 1%nat = Some 0 ∧
  0%nat ∈ elems (head s) ∧ mem s !! 0%nat = Some j ∧
  core_id j ≠ -1.
Proof.
  intros now s j.
  assert (run_ok 2 SJF [NewJob 0 0 9 0] = true) as Hok
    by (vm_compute; reflexivity).
  pose proof (run_reachable 2 SJF [NewJob 0 0 9 0] Hok) as Hreach.
  assert (core_arr s !! 1%nat = Some 0) as Hi by (vm_compute; reflexivity).
  assert (elems (head s) = [0%nat]) as Hel by (vm_compute; reflexivity).
  assert (0%nat ∈ elems (head s)) as Hp
    by (exact (eq_ind_r (λ l, 0%nat ∈ l) (list_elem_of_here 0%nat []) Hel)).
  assert (mem s !! 0%nat = Some j) as Hj by (vm_compute; reflexivity).
  do 4 (split; [assumption|]).
  exact (no_core_idles_while_a_job_waits 2 SJF now s 1 0%nat j
           Hreach Hi Hp Hj).
Defined.

(** * Running jobs come first under FCFS and PPRI *)

(** No waiting job is queued before a running job. *)
Definition running_first (q : list ptr) (cids : list Z) : Prop :=
  ∀ i i' p p', (i < i')%nat → q !! i = Some p → q !! i' = Some p' →
    cids !! p = Some (-1) → cids !! p' = Some (-1).

(** The number of queued jobs that hold a core. *)
Definition running_count (q : list ptr) (cids : list Z) : nat :=
  length (filter (λ p, cids !! p ≠ Some (-1)) q).

Lemma filter_all {A} (P : A → Prop) `{!∀ x, Decision (P x)} (l : list A) :
  Forall P l → filter P l = l.
Proof.
  induction 1 as [|x l Hx _ IH]; [done|].
  by rewrite filter_cons_True, IH.
Qed.

Lemma filter_none {A} (P : A → Prop) `{!∀ x, Decision (P x)} (l : list A) :
  Forall (λ x, ¬ P x) l → filter P l = [].
Proof.
  induction 1 as [|x l Hx _ IH]; [done|].
  by rewrite filter_cons_False.
Qed.

Lemma running_count_busy s :
  wf s → (∀ i, core_arr s !! i ≠ Some 0) →
  running_count (elems (head s)) (field core_id s) = length (core_arr s).
Proof.
  intros Hwf Hbusy. pose proof (wf_cores s Hwf) as Hcw.
  unfold running_count.
  rewrite <-(active_count _ _ (cw_nodup _ _ _ _ Hcw) (cw_valid _ _ _ _ Hcw)).
  - rewrite <-(cw_count _ _ _ _ Hcw). f_equal. apply filter_all.
    apply Forall_lookup. intros i c Hi ->. by apply (Hbusy i).
  - intros p c Hp Hc. by destruct (cw_assign _ _ _ _ Hcw p c Hp Hc).
Qed.

(** The running jobs are all below rank [m]: there are at most [m]. *)
Lemma running_count_le (q : list ptr) (cids : list Z) m :
  (∀ i p, q !! i = Some p → cids !! p ≠ Some (-1) → (i < m)%nat) →
  (running_count q cids ≤ m)%nat.
Proof.
  intros Hlow. unfold running_count.
  rewrite <-(take_drop m q), filter_app, length_app.
  rewrite (filter_none _ (drop m q)).
  - pose proof (length_filter (λ p, cids !! p ≠ Some (-1)) (take m q)).
    rewrite length_take in *. cbn. lia.
  - apply Forall_lookup. intros i p Hi Hact. rewrite lookup_drop in Hi.
    specialize (Hlow _ _ Hi Hact). lia.
Qed.

(** The jobs up to rank [m] all run: there are more than [m]. *)
Lemma running_count_gt (q : list ptr) (cids : list Z) m :
  (m < length q)%nat →
  (∀ i p, (i ≤ m)%nat → q !! i = Some p → cids !! p ≠ Some (-1)) →
  (m < running_count q cids)%nat.
Proof.
  intros Hm Hall. unfold running_count.
  rewrite <-(take_drop (S m) q), filter_app, length_app.
  rewrite (filter_all _ (take (S m) q)).
  - rewrite length_take. lia.
  - apply Forall_lookup. intros i p Hi.
    pose proof (lookup_lt_Some _ _ _ Hi) as Hlt. rewrite length_take in Hlt.
    rewrite lookup_take_lt in Hi by lia. apply (Hall i); [lia|done].
Qed.

Lemma insert_at_lookup_lt {A} (l : list A) k x i :
  (i < k)%nat → (k ≤ length l)%nat →
  (take k l ++ x :: drop k l) !! i = l !! i.
Proof.
  intros Hi Hk. rewrite lookup_app_l by (rewrite length_take; lia).
  by apply lookup_take_lt.
Qed.

Lemma insert_at_lookup_gt {A} (l : list A) k x i :
  (k < i)%nat → (k ≤ length l)%nat →
  (take k l ++ x :: drop k l) !! i = l !! (i - 1)%nat.
Proof.
  intros Hi Hk. rewrite lookup_app_r by (rewrite length_take; lia).
  rewrite length_take. replace (k `min` length l)%nat with k by lia.
  destruct (i - k)%nat as [|d] eqn:Hd; [lia|].
  etrans; [apply (lookup_drop l k d)|]. f_equal. lia.
Qed.

Lemma insert_at_lookup_inv {A} (l : list A) k x i a :
  (k ≤ length l)%nat → (take k l ++ x :: drop k l) !! i = Some a →
  (i = k ∧ a = x) ∨ ((i < k)%nat ∧ l !! i = Some a)
  ∨ ((k < i)%nat ∧ l !! (i - 1)%nat = Some a).
Proof.
  intros Hk Hi. destruct (lt_eq_lt_dec i k) as [[Hlt| ->]|Hgt].
  - rewrite insert_at_lookup_lt in Hi by done. auto.
  - rewrite insert_at_lookup in Hi by done. injection Hi as <-. auto.
  - rewrite insert_at_lookup_gt in Hi by done. auto.
Qed.

Lemma running_first_back (q : list ptr) (cids : list Z) i i' p p' :
  running_first q cids → (i ≤ i')%nat →
  q !! i = Some p → q !! i' = Some p' →
  cids !! p' ≠ Some (-1) → cids !! p ≠ Some (-1).
Proof.
  intros Hrf Hle Hp Hp' Hrun Hw.
  destruct (decide (i = i')) as [->|Hne]; [congruence|].
  apply Hrun. apply (Hrf i i' p p'); [lia|done..].
Qed.

(** The new job comes to wait at rank [k], at or behind the running jobs. *)
Lemma running_first_wait (q : list ptr) (cids : list Z) k :
  running_first q cids → (∀ p, p ∈ q → (p < length cids)%nat) →
  (k ≤ length q)%nat → (running_count q cids ≤ k)%nat →
  running_first (take k q ++ length cids :: drop k q) (cids ++ [-1]).
Proof.
  intros Hrf Hv Hk Hcnt i i' p p' Hlt Hp Hp' Hw.
  destruct (insert_at_lookup_inv _ _ _ _ _ Hk Hp')
    as [[-> ->]|[[Hi' Hq']|[Hi' Hq']]].
  - by rewrite lookup_app_r, Nat.sub_diag by lia.
  - rewrite insert_at_lookup_lt in Hp by lia.
    pose proof (Hv p (list_elem_of_lookup_2 _ _ _ Hp)).
    pose proof (Hv p' (list_elem_of_lookup_2 _ _ _ Hq')).
    rewrite lookup_app_l in Hw by done. rewrite lookup_app_l by done.
    by apply (Hrf i i' p p').
  - pose proof (Hv p' (list_elem_of_lookup_2 _ _ _ Hq')).
    rewrite lookup_app_l by done.
    destruct (decide (cids !! p' = Some (-1))) as [|Hrun]; [done|exfalso].
    assert (i' - 1 < running_count q cids)%nat; [|lia].
    apply running_count_gt; [by eapply lookup_lt_Some|].
    intros i0 p0 Hle Hp0.
    by apply (running_first_back q cids i0 (i' - 1) p0 p').
Qed.

(** The new job takes an idle core: no job was waiting. *)
Lemma running_first_idle (q : list ptr) (cids : list Z) k c :
  (∀ p, p ∈ q → cids !! p ≠ Some (-1)) →
  (∀ p, p ∈ q → (p < length cids)%nat) → c ≠ -1 →
  running_first (take k q ++ length cids :: drop k q) (cids ++ [c]).
Proof.
  intros Hall Hv Hc i i' p p' _ Hp _ Hw. exfalso.
  apply list_elem_of_lookup_2 in Hp. rewrite insert_at_perm in Hp.
  apply elem_of_cons in Hp as [->|Hp].
  - rewrite lookup_app_r, Nat.sub_diag in Hw by lia. by injection Hw.
  - rewrite lookup_app_l in Hw by auto. by apply (Hall p).
Qed.

(** The new job enters at rank [k] and takes the core of the running job
    that is last in the queue. *)
Lemma running_first_preempt (q : list ptr) (cids : list Z) k iv v r :
  running_first q cids → NoDup q →
  (∀ p, p ∈ q → (p < length cids)%nat) →
  (k ≤ length q)%nat → (k < running_count q cids)%nat →
  (take k q ++ length cids :: drop k q) !! iv = Some v →
  cids !! v = Some r → r ≠ -1 →
  (∀ i' a', (iv < i')%nat →
     (take k q ++ length cids :: drop k q) !! i' = Some a' →
     a' = length cids ∨ cids !! a' = Some (-1)) →
  running_first (take k q ++ length cids :: drop k q)
    (<[v:=-1]> cids ++ [r]).
Proof.
  intros Hrf Hnd Hv Hk Hcnt Hiv Hcv Hr Hlast.
  set (q' := take k q ++ length cids :: drop k q) in *.
  pose proof (lookup_lt_Some _ _ _ Hcv) as Hvlt.
  assert (NoDup q') as Hnd'.
  { unfold q'. rewrite insert_at_perm. apply NoDup_cons. split; [|done].
    intros Hin. specialize (Hv _ Hin). lia. }
  assert ((<[v:=-1]> cids ++ [r]) !! length cids = Some r) as Hnew.
  { rewrite lookup_app_r by (rewrite length_insert; lia).
    by rewrite length_insert, Nat.sub_diag. }
  assert (∀ x, (x < length cids)%nat → x ≠ v →
            (<[v:=-1]> cids ++ [r]) !! x = cids !! x) as Hold.
  { intros x Hx Hne. rewrite lookup_app_l by (by rewrite length_insert).
    by rewrite list_lookup_insert_ne. }
  assert ((<[v:=-1]> cids ++ [r]) !! v = Some (-1)) as Hvic.
  { rewrite lookup_app_l by (by rewrite length_insert).
    by apply list_lookup_insert_eq. }
  (* the running jobs are at or before the rank of the victim *)
  assert (∀ o a, q !! o = Some a → cids !! a ≠ Some (-1) →
            ((o < k)%nat ∧ (o ≤ iv)%nat) ∨ ((k ≤ o)%nat ∧ (S o ≤ iv)%nat))
    as Hrun.
  { intros o a Ho Ha.
    pose proof (Hv a (list_elem_of_lookup_2 _ _ _ Ho)) as Halt.
    destruct (decide (o < k)%nat) as [Hok|Hok]; [left|right];
      (split; [lia|]).
    - destruct (decide (o ≤ iv)%nat) as [|Hgt]; [done|exfalso].
      destruct (Hlast o a) as [->|Hw]; [lia| |lia|done].
      unfold q'. by rewrite insert_at_lookup_lt.
    - destruct (decide (S o ≤ iv)%nat) as [|Hgt]; [done|exfalso].
      destruct (Hlast (S o) a) as [->|Hw]; [lia| |lia|done].
      unfold q'. rewrite insert_at_lookup_gt by lia.
      by replace (S o - 1)%nat with o by lia. }
  intros i i' p p' Hlt Hp Hp' Hw.
  destruct (decide ((<[v:=-1]> cids ++ [r]) !! p' = Some (-1)))
    as [|Hact]; [done|exfalso].
  destruct (insert_at_lookup_inv _ _ _ _ _ Hk Hp')
    as [[-> ->]|Hold'].
  - (* the new job: a waiting job before it leaves too few running jobs *)
    unfold q' in Hp. rewrite insert_at_lookup_lt in Hp by lia.
    pose proof (Hv p (list_elem_of_lookup_2 _ _ _ Hp)) as Hplt.
    assert (running_count q cids ≤ k)%nat; [|lia].
    apply running_count_le. intros o a Ho Ha.
    destruct (decide (o < k)%nat) as [|Hge]; [done|exfalso].
    destruct (Hrun o a Ho Ha) as [[? _]|[_ Hoiv]]; [lia|].
    assert (p ≠ v) as Hpv.
    { intros ->.
      assert ((take k q ++ length cids :: drop k q) !! i = Some v) as Hi
        by (by rewrite insert_at_lookup_lt by lia).
      pose proof (NoDup_lookup _ _ _ _ Hnd' Hi Hiv). lia. }
    rewrite Hold in Hw by done.
    apply Ha. apply (Hrf i o p a); [lia|done..].
  - assert (∃ o', q !! o' = Some p' ∧
              (((i' < k)%nat ∧ o' = i') ∨ ((k < i')%nat ∧ S o' = i')))
      as (o' & Ho' & Hpos').
    { destruct Hold' as [[? ?]|[? ?]].
      - exists i'. auto.
      - exists (i' - 1)%nat. split; [done|]. right. lia. }
    pose proof (Hv p' (list_elem_of_lookup_2 _ _ _ Ho')) as Hp'lt.
    assert (p' ≠ v) as Hp'v by (intros ->; by rewrite Hvic in Hact).
    rewrite Hold in Hact by done.
    destruct (insert_at_lookup_inv _ _ _ _ _ Hk Hp)
      as [[-> ->]|Hold''].
    + rewrite Hnew in Hw. by injection Hw.
    + assert (∃ o, q !! o = Some p ∧
                (((i < k)%nat ∧ o = i) ∨ ((k < i)%nat ∧ S o = i)))
        as (o & Ho & Hpos).
      { destruct Hold'' as [[? ?]|[? ?]].
        - exists i. auto.
        - exists (i - 1)%nat. split; [done|]. right. lia. }
      pose proof (Hv p (list_elem_of_lookup_2 _ _ _ Ho)) as Hplt.
      assert (p ≠ v) as Hpv.
      { intros ->. pose proof (NoDup_lookup _ _ _ _ Hnd' Hp Hiv) as ->.
        destruct (Hrun o' p' Ho' Hact) as [[? ?]|[? ?]];
          [|lia].
        assert (o' = iv) as -> by lia.
        destruct Hpos' as [[_ ->]|[? ?]]; lia. }
      rewrite Hold in Hw by done.
      apply Hact. apply (Hrf o o' p p'); [lia|done..].
Qed.

(** A job leaves the queue and the first waiting job, if any, takes its
    core. *)
Lemma running_first_finish (q : list ptr) (cids cids3 : list Z) k p0 k' q0 c :
  running_first q cids → NoDup q → q !! k = Some p0 →
  (∀ x, x ∈ q → x ≠ p0 → cids3 !! x = cids !! x) →
  delete k q !! k' = Some q0 → (q0 < length cids3)%nat → c ≠ -1 →
  (∀ k'' p'', (k'' < k')%nat → delete k q !! k'' = Some p'' →
     cids3 !! p'' ≠ Some (-1)) →
  running_first (delete k q) (<[q0:=c]> cids3).
Proof.
  intros Hrf Hnd Hk H3 Hk' Hq0 Hc Hact i i' p p' Hlt Hp Hp' Hw.
  pose proof (NoDup_delete q k Hnd) as Hnd'.
  assert (∀ x, x ∈ delete k q → x ∈ q ∧ x ≠ p0) as Hin.
  { intros x Hx. split; [by eapply list_elem_of_delete_inv|].
    intros ->. rewrite (delete_perm _ _ _ Hk) in Hnd.
    by apply NoDup_cons in Hnd as [? _]. }
  assert (p ≠ q0) as Hpq.
  { intros ->. rewrite list_lookup_insert_eq in Hw by done.
    by injection Hw. }
  rewrite list_lookup_insert_ne in Hw by done.
  assert (k' < i)%nat as Hki.
  { destruct (lt_eq_lt_dec i k') as [[Hik| ->]|Hik]; [|congruence|done].
    by destruct (Hact i p Hik Hp). }
  assert (p' ≠ q0) as Hp'q.
  { intros ->. pose proof (NoDup_lookup _ _ _ _ Hnd' Hp' Hk'). lia. }
  rewrite list_lookup_insert_ne by done.
  destruct (Hin p (list_elem_of_lookup_2 _ _ _ Hp)) as [Hpin Hpp0].
  destruct (Hin p' (list_elem_of_lookup_2 _ _ _ Hp')) as [Hp'in Hp'p0].
  rewrite H3 in Hw by done. rewrite H3 by done.
  rewrite list_lookup_delete in Hp, Hp'.
  eapply (Hrf _ _ p p'); [|exact Hp|exact Hp'|done].
  repeat case_decide; lia.
Qed.

Lemma handle_running_first cores scheme now s e r s' :
  reachable cores scheme now s → scheme = FCFS ∨ scheme = PPRI →
  running_first (elems (head s)) (field core_id s) →
  valid_event now s e → handle s e = Some (r, s') →
  running_first (elems (head s')) (field core_id s').
Proof.
  intros Hreach Hscheme Hrf Hev He.
  pose proof (reachable_wf _ _ _ _ Hreach) as Hwf.
  pose proof (wf_cores s Hwf) as Hcw.
  destruct (reachable_config _ _ _ _ Hreach) as [Hnc Hsch].
  pose proof (reach_step _ _ _ _ _ _ _ Hreach Hev He) as Hreach'.
  assert (∀ p, p ∈ elems (head s) → (p < length (field core_id s))%nat)
    as Hv by apply Hcw.
  destruct e as [n t d pr|c n t|c t]; cbn in Hev, He.
  - destruct Hev as (_ & Hok & _).
    destruct (new_job_exec s n t d pr Hwf Hok) as (r1 & s1 & Hex1 & Hout).
    destruct (new_job_exec_detail s n t d pr Hwf Hok)
      as (r2 & s2 & Hex2 & Hdet).
    rewrite He in Hex1, Hex2. injection Hex1 as <- <-.
    injection Hex2 as <- <-.
    pose proof (new_job_params _ _ _ _ _ _ _ Hout) as Hpar. clear Hout.
    assert (∀ a j2, refreshed s n t d pr !! a = Some j2 →
              a ≠ length (mem s) → field core_id s !! a = Some (core_id j2))
      as Hold.
    { intros a j2 Hj2 Hne.
      destruct (refreshed_lookup _ _ _ _ _ _ _ Hj2) as [[? _]|(j & Hj & Heq)];
        [done|].
      rewrite (field_lookup core_id _ _ _ Hj). f_equal. rewrite Heq.
      unfold refresh. by case_decide. }
    destruct Hdet as [i k Hi Hlow Hk
                     |k iv v jv Hbusy Hpre Hk Hlt Hiv Hjv Hcv Hlast
                     |k Hbusy Hk Hge];
      pose proof (offer_rank_le _ _ _ _ _ Hk) as Hkle.
    + assert (field core_id
                (new_job_state s (<[i:=1]> (core_arr s)) k
                   (alter (λ j, stamp s (run_on (Z.of_nat i) j))
                      (length (mem s)) (refreshed s n t d pr)))
              = field core_id s ++ [Z.of_nat i]) as ->.
      { unfold field. cbn.
        rewrite (fmap_alter_set core_id _ (Z.of_nat i)) by solve_field.
        rewrite refreshed_core_ids.
        rewrite insert_app_r_alt by (rewrite field_length; lia).
        by rewrite field_length, Nat.sub_diag. }
      cbn. rewrite <-(field_length core_id s).
      apply running_first_idle; [|done|lia].
      apply (reachable_work_conserving _ _ _ _ Hreach). eauto.
    + assert (v ≠ length (mem s)) as Hvn.
      { intros ->.
        rewrite (arrived_fresh _ _ _ _ _ _ (refreshed_arrived _ _ _ _ _))
          in Hjv. injection Hjv as <-. done. }
      pose proof (Hold v jv Hjv Hvn) as Hcv'.
      pose proof (lookup_lt_Some _ _ _ Hcv') as Hvlt.
      rewrite field_length in Hvlt.
      assert (field core_id
                (new_job_state s (core_arr s) k
                   (alter (run_on (core_id jv)) (length (mem s))
                      (alter (evict t) v (refreshed s n t d pr))))
              = <[v:=-1]> (field core_id s) ++ [core_id jv]) as ->.
      { unfold field. cbn.
        rewrite (fmap_alter_set core_id _ (core_id jv)) by done.
        rewrite (fmap_alter_set core_id _ (-1))
          by (intros; apply evict_core_id).
        rewrite refreshed_core_ids.
        rewrite insert_app_l by (by rewrite field_length).
        rewrite insert_app_r_alt
          by (rewrite length_insert, field_length; lia).
        rewrite length_insert, field_length, Nat.sub_diag. done. }
      cbn. rewrite <-(field_length core_id s).
      rewrite <-(field_length core_id s) in Hiv, Hlast.
      apply (running_first_preempt _ _ k iv v (core_id jv));
        [done|apply Hcw|done|done| |done|done|done|].
      * rewrite (running_count_busy s Hwf Hbusy).
        pose proof (cw_len _ _ _ _ Hcw). lia.
      * intros i' a' Hi' Ha'.
        destruct (decide (a' = length (field core_id s))) as [|Hne];
          [by left|right].
        assert (a' < length (mem s))%nat as Hlt'.
        { apply list_elem_of_lookup_2 in Ha'. rewrite insert_at_perm in Ha'.
          apply elem_of_cons in Ha' as [?|Ha']; [done|].
          by apply (wf_queue_valid s Hwf). }
        destruct (lookup_lt_is_Some_2 (refreshed s n t d pr) a')
          as [j2 Hj2].
        { unfold refreshed. rewrite length_fmap, length_app, linked_length.
          cbn. lia. }
        rewrite field_length in Hne.
        rewrite (Hold a' j2 Hj2 Hne). f_equal. by apply (Hlast i' a' j2).
    + assert (field core_id
                (new_job_state s (core_arr s) k
                   (alter (stamp s) (length (mem s)) (refreshed s n t d pr)))
              = field core_id s ++ [-1]) as Hcids.
      { unfold field. cbn. rewrite fmap_alter_same by solve_field.
        apply refreshed_core_ids. }
      rewrite Hcids. cbn. rewrite <-(field_length core_id s).
      apply running_first_wait; [done..|].
      destruct Hscheme as [-> | ->].
      * (* FCFS: the new job has the greatest id and is queued last *)
        assert (k = length (elems (head s))) as ->; cycle 1.
        { apply length_filter. }
        destruct (decide (k = length (elems (head s)))) as [|Hne];
          [done|exfalso].
        destruct (lookup_lt_is_Some_2 (elems (head s)) k) as [y Hy]; [lia|].
        pose proof (reachable_sorted _ _ _ _
                      (or_introl eq_refl : fixed_order FCFS) Hreach')
          as Hsorted.
        unfold queue_sorted in Hsorted. rewrite Hpar in Hsorted.
        cbn [new_job_state head elems sch] in Hsorted.
        destruct (StronglySorted_lookup _ _ k (S k) (length (mem s)) y
                    Hsorted)
          as (ka & kb & Hka & Hkb & Hab); [lia|by apply insert_at_lookup| |].
        { rewrite insert_at_lookup_gt by lia.
          by replace (S k - 1)%nat with k by lia. }
        rewrite lookup_app_r in Hka by (by rewrite field_length).
        rewrite field_length, Nat.sub_diag in Hka. injection Hka as <-.
        pose proof (wf_queue_valid s Hwf y (list_elem_of_lookup_2 _ _ _ Hy))
          as Hylt.
        rewrite lookup_app_l in Hkb by (by rewrite field_length).
        apply field_lookup_inv in Hkb as (jy & Hjy & ->).
        rewrite Hsch in Hab. cbn in Hab.
        destruct Hok as (_ & _ & Hids).
        specialize (Hids (id jy)).
        assert (id jy < n); [|lia]. apply Hids.
        apply list_elem_of_lookup. exists y. by apply field_lookup.
      * rewrite (running_count_busy s Hwf Hbusy).
        pose proof (cw_len _ _ _ _ Hcw).
        assert (numOfCores s ≤ Z.of_nat k); [|lia].
        apply Hge. right. done.
  - destruct Hev as (_ & Hon).
    destruct (job_finished_exec s c n t Hwf Hon) as (r' & s'' & Hex & Hout).
    rewrite Hex in He. injection He as <- <-.
    destruct Hout as [k p0 j0 m3 r0 s0 Hk Hj0 Hid Hcid Hcore Hrel Hnrr _ Hd].
    assert (sch s ≠ RR) as Hrr.
    { rewrite Hsch. by destruct Hscheme as [-> | ->]. }
    specialize (Hnrr Hrr).
    assert (∀ x, x ≠ p0 → (core_id <$> m3) !! x = field core_id s !! x)
      as H3.
    { intros x Hne. rewrite Hnrr. unfold field.
      by rewrite !list_lookup_fmap, list_lookup_alter_ne. }
    assert (length m3 = length (mem s)) as Hlen
      by (by rewrite Hnrr, length_alter).
    destruct Hd as [Hall|k' q0 jq Hk' Hjq Hcjq Hact].
    + intros i i' p p' _ Hp _ Hw. exfalso. unfold field in Hw. cbn in Hw.
      rewrite list_lookup_fmap in Hw.
      destruct (m3 !! p) as [j|] eqn:Hj; [|done]. injection Hw as Hw.
      by apply (Hall p j); [eapply list_elem_of_lookup_2|..].
    + unfold field at 1. cbn in Hk', Hjq, Hact |- *.
      rewrite (fmap_alter_set core_id _ c) by done.
      apply (running_first_finish _ (field core_id s) _ k p0 k' q0 c);
        [done|apply Hcw|done|auto| | |done|].
      * done.
      * rewrite length_fmap. by eapply lookup_lt_Some.
      * intros k'' p'' Hlt Hp''. rewrite list_lookup_fmap.
        destruct (m3 !! p'') as [j|] eqn:Hj; [cbn|done].
        intros [= Hc]. by apply (Hact k'' p'' j).
  - destruct Hev as (_ & Hrr & _). rewrite Hsch in Hrr.
    by destruct Hscheme as [-> | ->].
Qed.

Lemma reachable_running_first cores scheme now s :
  scheme = FCFS ∨ scheme = PPRI → reachable cores scheme now s →
  running_first (elems (head s)) (field core_id s).
Proof.
  intros Hscheme. induction 1 as [Hc|now s e r s' Hreach IH Hev He].
  - assert (elems (head (scheduler_start_up cores scheme)) = []) as ->
      by (by destruct scheme).
    by intros i i' p p' _ Hp.
  - by eapply handle_running_first.
Qed.

(** X17. Under FCFS and PPRI the jobs that hold a core are the first of the
    queue, in every reachable state: a queued job that runs has a lower rank
    than every queued job that waits, and the comparer puts it first. So a
    running job arrived before every waiting job under FCFS, and under PPRI
    it has the more urgent priority, or the same priority and the earlier
    arrival. *)
Theorem running_jobs_come_first cores scheme now (s : sched) (i i' : nat)
    (a b : job_t) :
  scheme = FCFS ∨ scheme = PPRI →
  reachable cores scheme now s →
  queue_jobs s !! i = Some a → queue_jobs s !! i' = Some b →
  core_id a ≠ -1 → core_id b = -1 →
  (i < i')%nat ∧
  comparer (head s) a b < 0 ∧
  (scheme = FCFS → id a < id b) ∧
  (scheme = PPRI →
   priority a < priority b ∨ (priority a = priority b ∧ id a < id b)).
Proof.
  intros Hscheme Hreach Ha Hb Hrun Hwait.
  pose proof (reachable_wf _ _ _ _ Hreach) as Hwf.
  destruct (reachable_config _ _ _ _ Hreach) as [_ Hsch].
  assert (fixed_order scheme) as Hfix.
  { destruct Hscheme as [-> | ->]; [by left|right; by right]. }
  pose proof (reachable_sorted _ _ _ _ Hfix Hreach) as Hsorted.
  pose proof (reachable_running_first _ _ _ _ Hscheme Hreach) as Hrf.
  destruct (queue_jobs_lookup s i a Hwf Ha) as (p & Hp & Hja).
  destruct (queue_jobs_lookup s i' b Hwf Hb) as (p' & Hp' & Hjb).
  assert (i < i')%nat as Hlt.
  { destruct (lt_eq_lt_dec i i') as [[Hlt| ->]|Hgt]; [done|congruence|].
    exfalso. apply Hrun.
    pose proof (Hrf i' i p' p Hgt Hp' Hp) as Hw.
    rewrite (field_lookup core_id s p' b Hjb), Hwait in Hw.
    rewrite (field_lookup core_id s p a Hja) in Hw.
    specialize (Hw eq_refl). by injection Hw. }
  split; [done|].
  destruct (StronglySorted_lookup _ _ i i' p p' Hsorted Hlt Hp Hp')
    as (ka & kb & Hka & Hkb & Hab).
  rewrite (field_lookup job_params s p a Hja) in Hka.
  rewrite (field_lookup job_params s p' b Hjb) in Hkb.
  injection Hka as <-. injection Hkb as <-. rewrite Hsch in Hab.
  pose proof (wf_id_lookup s Hwf p a Hja).
  pose proof (wf_id_lookup s Hwf p' b Hjb).
  split.
  - rewrite (reachable_comparer _ _ _ _ Hreach).
    apply comparer_params_before; [done|lia|lia|done].
  - split; intros ->; exact Hab.
Qed.

(** One core under PPRI: job 0 (priority 3) runs, job 1 (priority 1) arrives
    and takes the core; job 1 is first in the queue, job 0 waits behind
    it. *)
Lemma running_jobs_come_first_witness :
  let es := [NewJob 0 0 5 3; NewJob 1 2 4 1] in
  let now := run_time 1 PPRI es in
  let s := run_state 1 PPRI es in
  let a := Job 1 2 4 1 4 0 (-1) 0 (-1) (-1) 0 None in
  let b := Job 0 0 5 3 3 0 2 0 (-1) (-1) (-1) (Some 1%nat) in
  (PPRI = FCFS ∨ PPRI = PPRI) ∧
  reachable 1 PPRI now s ∧
  queue_jobs s !! 0%nat = Some a ∧ queue_jobs s !! 1%nat = Some b ∧
  core_id a ≠ -1 ∧ core_id b = -1 ∧
  (0 < 1)%nat ∧
  comparer (head s) a b < 0 ∧
  (PPRI = FCFS → id a < id b) ∧
  (PPRI = PPRI →
   priority a < priority b ∨ (priority a = priority b ∧ id a < id b)).
Proof.
  intros es now s a b.
  assert (run_ok 1 PPRI es = true) as Hok by (vm_compute; reflexivity).
  pose proof (run_reachable 1 PPRI es Hok) as Hreach.
  assert (PPRI = FCFS ∨ PPRI = PPRI) as Hscheme by (by right).
  assert (queue_jobs s !! 0%nat = Some a) as Ha by (vm_compute; reflexivity).
  assert (queue_jobs s !! 1%nat = Some b) as Hb by (vm_compute; reflexivity).
  assert (core_id a ≠ -1) as Hrun by (by vm_compute).
  assert (core_id b = -1) as Hwait by reflexivity.
  do 6 (split; [assumption|]).
  exact (running_jobs_come_first 1 PPRI now s 0 1 a b
           Hscheme Hreach Ha Hb Hrun Hwait).
Defined.
